(** * Adapter invocation pipeline of the Aimpact SDK

    A shallow embedding of the TypeScript sources

    - [adapterRegistry.ts]  (registry and [isValidAdapterId]),
    - [client.ts]           ([AdapterClient]: retry loop, [callAdapter],
                             [batchCallAdapters]),
    - [executor.ts]         ([AdapterExecutor]: [runBeforeLLM],
                             [runAfterLLM], [runParallel]),
    - [healthManager.ts]    ([HealthManager]: probes, aggregation, timers),

    followed by the properties of the pipeline that the specification
    states about them.

    Conventions of the embedding.

    - JavaScript numbers are modelled by [Z]: every number the pipeline
      computes with (attempt counters, millisecond delays, HTTP status
      codes, clock readings) is an integer, for which double arithmetic is
      exact below 2^53.
    - Objects that the code mutates in place (the context objects) live
      in a heap and are passed by location, so aliasing is visible.
    - [async] functions are state-passing computations that either return
      a value or throw (a rejected promise); [await] is sequencing.
    - The remote side is an arbitrary [Environment]: a world with a
      transition for every network round trip and for every timer wait,
      and a clock.
    - The [Logger] only writes to the console and is disabled in its
      default configuration; its calls are not part of the model. *)

From Stdlib Require Import ZArith Lia.
From stdpp Require Import base strings gmap list pretty.

Open Scope Z_scope.
Set Warnings "-register-all,-clear-no-such-hyp".

(** ** JavaScript values *)

(** Values that travel in JSON bodies ([any] in the TypeScript types). *)
Inductive JsValue : Type :=
| JsNull
| JsBool (b : bool)
| JsNumber (z : Z)
| JsString (s : string)
| JsArray (xs : list JsValue)
| JsObject (props : list (string * JsValue)).

(** ToBoolean, as used by [if (data)]. *)
Definition truthy (v : JsValue) : bool :=
  match v with
  | JsNull => false
  | JsBool b => b
  | JsNumber z => negb (z =? 0)
  | JsString s => negb (String.eqb s "")
  | JsArray _ => true
  | JsObject _ => true
  end.

(** ToBoolean of a string, as used by [if (output)]. *)
Definition truthy_string (s : string) : bool := negb (String.eqb s "").

(** The own enumerable properties that [Object.assign] copies from a
    source value: the properties of an object, the indices of an array or
    of a string, nothing for the other primitives. *)
Definition own_enumerable_props (v : JsValue) : list (string * JsValue) :=
  match v with
  | JsObject props => props
  | JsArray xs => imap (λ i x, (pretty i, x)) xs
  | JsString s =>
      imap (λ i c, (pretty i, JsString (String c EmptyString)))
           (String.list_ascii_of_string s)
  | _ => []
  end.

(** [AdapterContext]: an open mapping from keys to values. *)
Abbreviation AdapterContext := (gmap string JsValue).

(** [Object.assign(target, source)] on the contents of the target. *)
Definition Object_assign (target : AdapterContext) (source : JsValue)
  : AdapterContext :=
  foldl (λ m kv, <[kv.1 := kv.2]> m) target (own_enumerable_props source).

(** ** adapterRegistry.ts *)

Inductive AdapterType : Type := tool | prompt | action.

Definition adapterRegistry : list (string * AdapterType) :=
  [ ("pdf-text-extractor", tool);
    ("persona-legal", prompt);
    ("vector-search-legal", tool);
    ("risk-analyzer", tool);
    ("slack-sender", action);
    ("db-logger", action);
    ("telegram-alert", action) ].

(** [Object.keys(o)]: the own enumerable keys, in insertion order. *)
Definition Object_keys {A} (o : list (string * A)) : list string := o.*1.

(** The properties every object literal inherits from [Object.prototype]. *)
Definition Object_prototype_keys : list string :=
  [ "constructor"; "__defineGetter__"; "__defineSetter__"; "hasOwnProperty";
    "__lookupGetter__"; "__lookupSetter__"; "isPrototypeOf";
    "propertyIsEnumerable"; "toString"; "valueOf"; "__proto__";
    "toLocaleString" ].

(** [key in o] for an object literal [o]: own properties, then the
    prototype chain. *)
Definition js_in {A} (key : string) (o : list (string * A)) : bool :=
  bool_decide (key ∈ Object_keys o) || bool_decide (key ∈ Object_prototype_keys).

Definition isValidAdapterId (id : string) : bool := js_in id adapterRegistry.

(** ** types.ts *)

Inductive Status : Type := ok | error.

#[global] Instance Status_eq_dec : EqDecision Status.
Proof. solve_decision. Defined.

Record AdapterResponse : Type := mkResponse {
  resp_output : option string;
  resp_status : Status;
  resp_data : option JsValue;
  resp_error : option string
}.

Record AdapterRequest : Type := mkRequest {
  req_adapterId : string;
  req_input : option string;
  req_context : AdapterContext
}.

Record RetryConfig : Type := mkRetryConfig {
  maxAttempts : Z;
  baseDelay : Z;
  maxDelay : Z;
  backoffMultiplier : Z
}.

(** [Partial<RetryConfig>] *)
Record PartialRetryConfig : Type := mkPartialRetryConfig {
  p_maxAttempts : option Z;
  p_baseDelay : option Z;
  p_maxDelay : option Z;
  p_backoffMultiplier : option Z
}.

Inductive HealthStatus : Type := healthy | degraded | unhealthy.

#[global] Instance HealthStatus_eq_dec : EqDecision HealthStatus.
Proof. solve_decision. Defined.

Record AdapterHealth : Type := mkHealth {
  health_status : HealthStatus;
  health_latency : Z;
  health_lastCheck : Z;
  health_message : option string
}.

Record SystemHealth : Type := mkSystemHealth {
  sys_status : HealthStatus;
  sys_adapters : gmap string AdapterHealth;
  sys_timestamp : Z
}.

(** An [Error] object: its message and the [status] property that
    [callAdapter] attaches to HTTP failures. *)
Record JsError : Type := mkError {
  err_message : string;
  err_status : option Z
}.

(** ** The environment: network, timers, clock *)

(** What [response.json()] gives. *)
Inductive JsonBody : Type :=
| JsonResult (r : AdapterResponse)
| JsonSyntaxError (message : string).

(** What one [fetch] gives: a rejection (network failure, timeout) or an
    HTTP response. *)
Inductive FetchOutcome : Type :=
| FetchRejected (message : string)
| FetchResponse (status : Z) (statusText : string) (body : JsonBody).

(** [response.ok] *)
Definition response_ok (status : Z) : bool := (200 <=? status) && (status <=? 299).

Class Environment : Type := {
  World : Type;
  (** one [POST {baseUrl}/run-adapter] round trip *)
  run_adapter : AdapterRequest → World → FetchOutcome * World;
  (** the world after a [setTimeout] wait of the given length *)
  elapse : Z → World → World;
  (** [Date.now()] *)
  Date_now : World → Z
}.

(** What the program does to its environment, in order. *)
Inductive Event : Type :=
| EvFetch (request : AdapterRequest)
| EvSleep (ms : Z).

Abbreviation loc := nat (only parsing).
Abbreviation TimerId := nat (only parsing).

(** How a computation completes: with a value, or by throwing. *)
Inductive Completion (A : Type) : Type :=
| Return (a : A)
| Throw (e : JsError).
Arguments Return {A} a.
Arguments Throw {A} e.

Section Pipeline.

Context `{Env : Environment}.

(** The state of the running program. *)
Record State : Type := mkState {
  world : World;
  heap : gmap loc AdapterContext;           (* context objects *)
  trace : list Event;                       (* effects so far, oldest first *)
  timers : gmap TimerId Z;                  (* scheduled intervals, with their period *)
  next_timer : TimerId;                     (* intervals created so far *)
  healthState : gmap string AdapterHealth;  (* HealthManager.healthState *)
  checkInterval : option TimerId;           (* HealthManager.checkInterval *)
  lastSystemCheck : option Z                (* HealthManager.lastSystemCheck *)
}.

(** *** Computations *)

Definition M (A : Type) : Type := State → Completion A * State.

Definition ret {A} (a : A) : M A := λ s, (Return a, s).

Definition bind {A B} (m : M A) (k : A → M B) : M B :=
  λ s, match m s with
       | (Return a, s1) => k a s1
       | (Throw e, s1) => (Throw e, s1)
       end.

Definition throw {A} (e : JsError) : M A := λ s, (Throw e, s).

Definition try_catch {A} (body : M A) (handler : JsError → M A) : M A :=
  λ s, match body s with
       | (Return a, s1) => (Return a, s1)
       | (Throw e, s1) => handler e s1
       end.

#[global] Instance M_ret : MRet M := @ret.
#[global] Instance M_bind : MBind M := λ A B k m, bind m k.

(** *** Primitive effects *)

Definition set_world (w : World) (s : State) : State :=
  mkState w (heap s) (trace s) (timers s) (next_timer s) (healthState s)
          (checkInterval s) (lastSystemCheck s).
Definition set_heap (h : gmap loc AdapterContext) (s : State) : State :=
  mkState (world s) h (trace s) (timers s) (next_timer s) (healthState s)
          (checkInterval s) (lastSystemCheck s).
Definition log_event (e : Event) (s : State) : State :=
  mkState (world s) (heap s) (trace s ++ [e]) (timers s) (next_timer s)
          (healthState s) (checkInterval s) (lastSystemCheck s).
Definition set_timers (t : gmap TimerId Z) (n : TimerId) (s : State) : State :=
  mkState (world s) (heap s) (trace s) t n (healthState s) (checkInterval s)
          (lastSystemCheck s).
Definition set_healthState (h : gmap string AdapterHealth) (s : State) : State :=
  mkState (world s) (heap s) (trace s) (timers s) (next_timer s) h
          (checkInterval s) (lastSystemCheck s).
Definition set_checkInterval (c : option TimerId) (s : State) : State :=
  mkState (world s) (heap s) (trace s) (timers s) (next_timer s)
          (healthState s) c (lastSystemCheck s).
Definition set_lastSystemCheck (d : option Z) (s : State) : State :=
  mkState (world s) (heap s) (trace s) (timers s) (next_timer s)
          (healthState s) (checkInterval s) d.

(** Reading an object: its properties now. *)
Definition read_object (l : loc) : M AdapterContext :=
  λ s, (Return (default ∅ (heap s !! l)), s).

(** A new object with the given properties. *)
Definition new_object (props : AdapterContext) : M loc :=
  λ s, let l := fresh (dom (heap s)) in (Return l, set_heap (<[l := props]> (heap s)) s).

(** [Object.assign(target, source)] in place. *)
Definition assign_object (target : loc) (source : JsValue) : M unit :=
  λ s, (Return tt,
        set_heap (<[target := Object_assign (default ∅ (heap s !! target)) source]> (heap s)) s).

(** [await fetch(.../run-adapter, body)] *)
Definition fetch (request : AdapterRequest) : M FetchOutcome :=
  λ s, let '(o, w) := run_adapter request (world s) in
       (Return o, log_event (EvFetch request) (set_world w s)).

(** [await this.sleep(ms)] *)
Definition sleep (ms : Z) : M unit :=
  λ s, (Return tt, log_event (EvSleep ms) (set_world (elapse ms (world s)) s)).

(** [Date.now()], [new Date()] *)
Definition now : M Z := λ s, (Return (Date_now (world s)), s).

(** The fields of the [HealthManager]. *)
Definition healthState_set (adapterId : string) (health : AdapterHealth) : M unit :=
  λ s, (Return tt, set_healthState (<[adapterId := health]> (healthState s)) s).
Definition get_checkInterval : M (option TimerId) :=
  λ s, (Return (checkInterval s), s).
Definition put_checkInterval (c : option TimerId) : M unit :=
  λ s, (Return tt, set_checkInterval c s).
Definition put_lastSystemCheck (d : Z) : M unit :=
  λ s, (Return tt, set_lastSystemCheck (Some d) s).

(** [clearInterval] and [setInterval] of the runtime, and whether an
    interval is still scheduled. *)
Definition clearInterval (t : TimerId) : M unit :=
  λ s, (Return tt, set_timers (delete t (timers s)) (next_timer s) s).
Definition setInterval (interval : Z) : M TimerId :=
  λ s, (Return (next_timer s),
        set_timers (<[next_timer s := interval]> (timers s)) (S (next_timer s)) s).
Definition scheduled (t : TimerId) : M bool :=
  λ s, (Return (bool_decide (is_Some (timers s !! t))), s).

(** ** client.ts *)

Definition defaultRetryConfig : RetryConfig :=
  mkRetryConfig 3 1000 10000 2.

(** [{ ...this.defaultRetryConfig, ...this.config.retry }] *)
Definition merge_retry (d : RetryConfig) (p : PartialRetryConfig) : RetryConfig :=
  mkRetryConfig (default (maxAttempts d) (p_maxAttempts p))
                (default (baseDelay d) (p_baseDelay p))
                (default (maxDelay d) (p_maxDelay p))
                (default (backoffMultiplier d) (p_backoffMultiplier p)).

Definition getRetryDelay (attempt : Z) (retryConfig : RetryConfig) : Z :=
  let delay := baseDelay retryConfig * backoffMultiplier retryConfig ^ (attempt - 1) in
  Z.min delay (maxDelay retryConfig).

Definition shouldRetry (e : JsError) (attempt maxAttempts : Z) : bool :=
  if attempt >=? maxAttempts then false
  else match err_status e with
       | Some st => if (st >=? 400) && (st <? 500) then false else true
       | None => true
       end.

(** The part of [AdapterConfig] that the call path reads. *)
Record AdapterConfig : Type := mkConfig {
  retry : PartialRetryConfig
}.

(** The body of the [try] block of one attempt: serialise the request,
    post it, fail on a status outside 2xx, parse the body. *)
Definition attempt_once (adapterId : string) (input : option string)
    (context : loc) : M AdapterResponse :=
  ctx ← read_object context;
  response ← fetch (mkRequest adapterId input ctx);
  match response with
  | FetchRejected msg => throw (mkError msg None)
  | FetchResponse status statusText body =>
      if negb (response_ok status)
      then throw (mkError ("Adapter " +:+ adapterId +:+ " failed: " +:+ statusText)
                          (Some status))
      else match body with
           | JsonResult r => ret r
           | JsonSyntaxError msg => throw (mkError msg None)
           end
  end.

(** How the [for] loop of [callAdapter] is left: by the [return] inside
    the [try] block, or by [break] or the loop condition, with the value
    of [lastError] ([None] is [undefined]). *)
Inductive LoopExit : Type :=
| Returned (r : AdapterResponse)
| Exhausted (lastError : option JsError).

(** [for (let attempt = 1; attempt <= maxAttempts; attempt++)], entered
    at [attempt]. [remaining] counts the values of [attempt] that still
    satisfy the loop condition, [maxAttempts + 1 - attempt] of them. *)
Fixpoint retry_loop (retryConfig : RetryConfig) (adapterId : string)
    (input : option string) (context : loc)
    (remaining : nat) (attempt : Z) (lastError : option JsError) : M LoopExit :=
  match remaining with
  | O => ret (Exhausted lastError)
  | S remaining' =>
      try_catch
        (r ← attempt_once adapterId input context; mret (Returned r))
        (λ e,
           if negb (shouldRetry e attempt (maxAttempts retryConfig))
           then ret (Exhausted (Some e))
           else
             (if attempt <? maxAttempts retryConfig
              then sleep (getRetryDelay attempt retryConfig)
              else ret tt) ;;
             retry_loop retryConfig adapterId input context
                        remaining' (attempt + 1) (Some e))
  end.

(** [errorResponse], built after the loop from [lastError]. *)
Definition errorResponse (lastError : option JsError) : AdapterResponse :=
  mkResponse None error None
    (Some match lastError with
          | Some e => err_message e
          | None => "Unknown error occurred"
          end).

Definition callAdapter (config : AdapterConfig) (adapterId : string)
    (input : option string) (context : loc) : M AdapterResponse :=
  if negb (isValidAdapterId adapterId)
  then throw (mkError ("Invalid adapter ID: " +:+ adapterId) None)
  else
    let retryConfig := merge_retry defaultRetryConfig (retry config) in
    exit ← retry_loop retryConfig adapterId input context
                      (Z.to_nat (maxAttempts retryConfig)) 1 None;
    match exit with
    | Returned r => ret r
    | Exhausted lastError => ret (errorResponse lastError)
    end.

(** *** [batchCallAdapters]

    [adapterIds.map(...)] creates one promise per identifier and
    [Promise.all] stores the value of promise [i] at index [i] of its
    result, whenever that promise settles. The calls run concurrently; the
    model runs them to completion one after the other in the order a
    schedule picks, which is the order in which the promises settle. At
    every step the schedule names one of the promises still pending (its
    next number, modulo how many are pending), so every schedule is a
    legal one and every order of settlement has a schedule. *)

Definition Schedule := list nat.

Fixpoint settle_pending (config : AdapterConfig) (input : option string)
    (context : loc) (n : nat) (schedule : Schedule)
    (pending : list (nat * string))
  : State → list (nat * Completion AdapterResponse) * State :=
  λ s,
  match n, pending with
  | S n', p0 :: _ =>
      let k := (hd 0%nat schedule `mod` length pending)%nat in
      let '(i, adapterId) := nth k pending p0 in
      let '(c, s1) := callAdapter config adapterId input context s in
      let '(rest, s2) :=
        settle_pending config input context n' (tl schedule) (delete k pending) s1 in
      ((i, c) :: rest, s2)
  | _, _ => ([], s)
  end.

(** The result array of [Promise.all], filled in settlement order. *)
Definition settle_into {A} (arr : list (option A)) (settled : list (nat * A))
  : list (option A) :=
  foldl (λ arr ic, <[ic.1 := Some ic.2]> arr) arr settled.

Definition fill_results {A} (n : nat) (settled : list (nat * A)) : list (option A) :=
  settle_into (replicate n None) settled.

(** The first rejection in list order, if any; only validation errors
    reject, and they do so when the promise is created. *)
Fixpoint first_rejection {A} (arr : list (option (Completion A))) : option JsError :=
  match arr with
  | [] => None
  | Some (Throw e) :: _ => Some e
  | _ :: arr' => first_rejection arr'
  end.

Definition fulfilled {A} (c : option (Completion A)) : option A :=
  match c with
  | Some (Return a) => Some a
  | _ => None
  end.

Definition batchCallAdapters (config : AdapterConfig) (schedule : Schedule)
    (adapterIds : list string) (input : option string) (context : loc)
  : M (list AdapterResponse) :=
  λ s,
  let n := length adapterIds in
  let '(settled, s1) :=
    settle_pending config input context n schedule (imap pair adapterIds) s in
  let arr := fill_results n settled in
  match first_rejection arr with
  | Some e => (Throw e, s1)
  | None => (Return (omap fulfilled arr), s1)
  end.

(** ** executor.ts *)

(** [`${error}`] for an optional string. *)
Definition template (x : option string) : string := default "undefined" x.

(** [if (output) { currentInput = output; }] *)
Definition thread_output (currentInput : string) (output : option string) : string :=
  match output with
  | Some o => if truthy_string o then o else currentInput
  | None => currentInput
  end.

(** [if (data) { Object.assign(updatedContext, data); }] *)
Definition merge_data (updatedContext : loc) (data : option JsValue) : M unit :=
  match data with
  | Some d => if truthy d then assign_object updatedContext d else mret tt
  | None => mret tt
  end.

(** The [for ... of] loop of [runBeforeLLM]. *)
Fixpoint runBeforeLLM_loop (config : AdapterConfig) (adapterIds : list string)
    (currentInput : string) (updatedContext : loc) : M string :=
  match adapterIds with
  | [] => mret currentInput
  | adapterId :: rest =>
      r ← callAdapter config adapterId (Some currentInput) updatedContext;
      match resp_status r with
      | error =>
          throw (mkError ("Adapter " +:+ adapterId +:+ " failed after retries: "
                            +:+ template (resp_error r)) None)
      | ok =>
          let currentInput := thread_output currentInput (resp_output r) in
          merge_data updatedContext (resp_data r);;
          runBeforeLLM_loop config rest currentInput updatedContext
      end
  end.

Definition runBeforeLLM (config : AdapterConfig) (input : string)
    (adapterIds : list string) (context : loc) : M (string * loc) :=
  props ← read_object context;
  updatedContext ← new_object props;
  prompt ← runBeforeLLM_loop config adapterIds input updatedContext;
  mret (prompt, updatedContext).

Fixpoint runAfterLLM (config : AdapterConfig) (context : loc)
    (adapterIds : list string) : M unit :=
  match adapterIds with
  | [] => mret tt
  | adapterId :: rest =>
      r ← callAdapter config adapterId None context;
      match resp_status r with
      | error =>
          throw (mkError ("Post-LLM adapter " +:+ adapterId +:+ " failed after retries: "
                            +:+ template (resp_error r)) None)
      | ok => runAfterLLM config context rest
      end
  end.

(** [results.forEach((result, index) => ...)] of [runParallel], entered
    at [index]. *)
Fixpoint runParallel_forEach (adapterIds : list string) (updatedContext : loc)
    (index : nat) (results : list AdapterResponse) : M unit :=
  match results with
  | [] => mret tt
  | result :: rest =>
      match resp_status result with
      | error =>
          throw (mkError ("Adapter " +:+ template (adapterIds !! index)
                            +:+ " failed after retries: "
                            +:+ template (resp_error result)) None)
      | ok =>
          merge_data updatedContext (resp_data result);;
          runParallel_forEach adapterIds updatedContext (S index) rest
      end
  end.

Definition runParallel (config : AdapterConfig) (schedule : Schedule)
    (input : option string) (adapterIds : list string) (context : loc) : M loc :=
  results ← batchCallAdapters config schedule adapterIds input context;
  props ← read_object context;
  updatedContext ← new_object props;
  runParallel_forEach adapterIds updatedContext 0 results;;
  mret updatedContext.

(** ** healthManager.ts *)

Definition checkAdapterHealth (config : AdapterConfig) (adapterId : string)
  : M AdapterHealth :=
  startTime ← now;
  try_catch
    (probe ← new_object {[ "healthCheck" := JsBool true ]};
     response ← callAdapter config adapterId None probe;
     t ← now;
     let latency := t - startTime in
     match resp_status response with
     | error =>
         lastCheck ← now;
         mret (mkHealth unhealthy latency lastCheck (resp_error response))
     | ok =>
         let status := if latency >? 1000 then degraded else healthy in
         lastCheck ← now;
         mret (mkHealth status latency lastCheck
                 match status with
                 | degraded => Some "High latency detected"
                 | _ => None
                 end)
     end)
    (λ e,
       t ← now;
       lastCheck ← now;
       mret (mkHealth unhealthy (t - startTime) lastCheck (Some (err_message e)))).

(** The update of [overallStatus] after one probe. *)
Definition update_overall (overallStatus : HealthStatus) (h : HealthStatus)
  : HealthStatus :=
  match h with
  | unhealthy => unhealthy
  | degraded =>
      match overallStatus with
      | healthy => degraded
      | _ => overallStatus
      end
  | healthy => overallStatus
  end.

(** The [for ... of] loop of [checkSystemHealth]. *)
Fixpoint checkSystemHealth_loop (config : AdapterConfig) (adapterIds : list string)
    (adapters : gmap string AdapterHealth) (overallStatus : HealthStatus)
  : M (gmap string AdapterHealth * HealthStatus) :=
  match adapterIds with
  | [] => mret (adapters, overallStatus)
  | adapterId :: rest =>
      health ← checkAdapterHealth config adapterId;
      healthState_set adapterId health;;
      checkSystemHealth_loop config rest (<[adapterId := health]> adapters)
                             (update_overall overallStatus (health_status health))
  end.

(** The [reduce] that fills [adapters] with a placeholder per key. *)
Fixpoint not_checked_yet (adapterIds : list string)
    (acc : gmap string AdapterHealth) : M (gmap string AdapterHealth) :=
  match adapterIds with
  | [] => mret acc
  | adapterId :: rest =>
      lastCheck ← now;
      not_checked_yet rest
        (<[adapterId := mkHealth unhealthy 0 lastCheck (Some "Not checked yet")]> acc)
  end.

Definition checkSystemHealth (config : AdapterConfig) : M SystemHealth :=
  adapters ← not_checked_yet (Object_keys adapterRegistry) ∅;
  r ← checkSystemHealth_loop config (Object_keys adapterRegistry) adapters healthy;
  t ← now;
  put_lastSystemCheck t;;
  mret (mkSystemHealth r.2 r.1 t).

(** [this.checkSystemHealth().catch(console.error)] *)
Definition checkSystemHealth_caught (config : AdapterConfig) : M unit :=
  try_catch (checkSystemHealth config;; mret tt) (λ _, mret tt).

(** The check that [startMonitoring] starts at once is run to its end
    before the interval is created; it does not touch the timers, so the
    order between the two is immaterial to them. *)
Definition startMonitoring (config : AdapterConfig) (interval : Z) : M unit :=
  c ← get_checkInterval;
  match c with
  | Some t => clearInterval t
  | None => mret tt
  end;;
  checkSystemHealth_caught config;;
  t ← setInterval interval;
  put_checkInterval (Some t).

Definition stopMonitoring : M unit :=
  c ← get_checkInterval;
  match c with
  | Some t =>
      clearInterval t;;
      put_checkInterval None
  | None => mret tt
  end.

(** What can happen to a [HealthManager] from outside: the two calls and
    the firing of a scheduled interval. *)
Inductive MonitorOp : Type :=
| OpStart (interval : Z)
| OpStop
| OpTick (t : TimerId).

Definition monitor_step (config : AdapterConfig) (op : MonitorOp) : M unit :=
  match op with
  | OpStart interval => startMonitoring config interval
  | OpStop => stopMonitoring
  | OpTick t =>
      active ← scheduled t;
      if (active : bool) then checkSystemHealth_caught config else mret tt
  end.

End Pipeline.

(** ** The rest of healthManager.ts and client.ts *)

Section Client.

Context `{Env : Environment}.

Definition getAdapterHealth (adapterId : string) : M (option AdapterHealth) :=
  λ s, (Return (healthState s !! adapterId), s).

(** The [reduce] of [getLastSystemHealth]: the stored record of every
    key, or a placeholder where there is none. *)
Fixpoint last_known (adapterIds : list string) (acc : gmap string AdapterHealth)
  : M (gmap string AdapterHealth) :=
  match adapterIds with
  | [] => mret acc
  | adapterId :: rest =>
      health ← getAdapterHealth adapterId;
      match health with
      | Some h => last_known rest (<[adapterId := h]> acc)
      | None =>
          lastCheck ← now;
          last_known rest
            (<[adapterId := mkHealth unhealthy 0 lastCheck (Some "Not checked yet")]> acc)
      end
  end.

(** [Object.values(o)] of a record whose keys were created in the order
    [keys]. *)
Definition Object_values {A} (keys : list string) (o : gmap string A) : list A :=
  omap (λ k, o !! k) keys.

Definition getLastSystemHealth : M (option SystemHealth) :=
  λ s,
  match lastSystemCheck s with
  | None => (Return None, s)
  | Some timestamp =>
      (adapters ← last_known (Object_keys adapterRegistry) ∅;
       let overallStatus :=
         foldl update_overall healthy
               (health_status <$> Object_values (Object_keys adapterRegistry) adapters) in
       mret (Some (mkSystemHealth overallStatus adapters timestamp))) s
  end.




Definition checkHealth (config : AdapterConfig) : M unit :=
  checkSystemHealth config;; mret tt.

(** [startMonitoring(interval: number = 60000)] behind the client. *)
Definition startHealthMonitoring (config : AdapterConfig) (interval : option Z)
  : M unit :=
  startMonitoring config (default 60000 interval).

Definition stopHealthMonitoring : M unit := stopMonitoring.

(** *** Adapter discovery

    The two [GET] endpoints: what one request gives, and the world after
    it. The path is [None] for [/adapters] and [Some id] for
    [/adapters/id]. *)

Inductive DiscoveryOutcome : Type :=
| DiscoveryRejected (message : string)
| DiscoveryResponse (status : Z) (statusText : string) (body : JsValue + string).

Variable discover : option string → World → DiscoveryOutcome * World.

Definition fetch_get (path : option string) : M DiscoveryOutcome :=
  λ s, let '(o, w) := discover path (world s) in (Return o, set_world w s).

(** What both methods do with the response. *)
Definition discovery_result (failed : string) (response : DiscoveryOutcome)
  : M JsValue :=
  match response with
  | DiscoveryRejected msg => throw (mkError msg None)
  | DiscoveryResponse status statusText body =>
      if negb (response_ok status)
      then throw (mkError (failed +:+ statusText) None)
      else match body with
           | inl v => mret v
           | inr msg => throw (mkError msg None)
           end
  end.

Definition getAvailableAdapters : M JsValue :=
  response ← fetch_get None;
  discovery_result "Failed to fetch adapters: " response.

Definition getAdapterInfo (adapterId : string) : M JsValue :=
  if negb (isValidAdapterId adapterId)
  then throw (mkError ("Invalid adapter ID: " +:+ adapterId) None)
  else
    response ← fetch_get (Some adapterId);
    discovery_result "Failed to fetch adapter info: " response.

End Client.

(** ** adapterRegistry.ts, continued *)

(** [adapterRegistry[id].type]: the declared type for a key of the
    registry; [undefined] where [adapterRegistry[id]] is something the
    registry object inherits, none of which has a [type]; a [TypeError]
    where [adapterRegistry[id]] is [undefined]. *)
Definition getAdapterType (id : string) : Completion (option AdapterType) :=
  match list_find (λ kv, kv.1 = id) adapterRegistry with
  | Some (_, kv) => Return (Some kv.2)
  | None =>
      if bool_decide (id ∈ Object_prototype_keys)
      then Return None
      else Throw (mkError "Cannot read properties of undefined (reading 'type')" None)
  end.

(** ** logger.ts *)

Module Logger.

Inductive LogLevel : Type := debug | info | warn | error | none.

#[global] Instance LogLevel_eq_dec : EqDecision LogLevel.
Proof. solve_decision. Defined.

(** A custom logger is a callback; the model keeps which one it is. *)
Record LogConfig : Type := mkLogConfig {
  level : LogLevel;
  enabled : bool;
  customLogger : option nat
}.

(** [Partial<LogConfig>] *)
Record PartialLogConfig : Type := mkPartialLogConfig {
  p_level : option LogLevel;
  p_enabled : option bool;
  p_customLogger : option nat
}.

Definition defaultConfig : LogConfig := mkLogConfig info false None.

(** [{ ...c, ...p }] *)
Definition spread (c : LogConfig) (p : PartialLogConfig) : LogConfig :=
  mkLogConfig (default (level c) (p_level p))
              (default (enabled c) (p_enabled p))
              (match p_customLogger p with
               | Some f => Some f
               | None => customLogger c
               end).

(** [{ ...p, ...q }] of two partial configurations. *)
Definition spread_partial (p q : PartialLogConfig) : PartialLogConfig :=
  mkPartialLogConfig
    (match p_level q with Some l => Some l | None => p_level p end)
    (match p_enabled q with Some b => Some b | None => p_enabled p end)
    (match p_customLogger q with Some f => Some f | None => p_customLogger p end).

Definition constructor (config : option PartialLogConfig) : LogConfig :=
  match config with
  | Some p => spread defaultConfig p
  | None => defaultConfig
  end.

(** [levels.indexOf(x)] *)
Fixpoint indexOf (levels : list LogLevel) (x : LogLevel) : Z :=
  match levels with
  | [] => -1
  | l :: rest =>
      if decide (l = x) then 0
      else let i := indexOf rest x in if i <? 0 then -1 else i + 1
  end.

Definition shouldLog (config : LogConfig) (lvl : LogLevel) : bool :=
  if negb (enabled config) || bool_decide (level config = none) then false
  else
    let levels := [debug; info; warn; error] in
    let configIndex := indexOf levels (level config) in
    let messageIndex := indexOf levels lvl in
    messageIndex >=? configIndex.

Definition toUpperCase (lvl : LogLevel) : string :=
  match lvl with
  | debug => "DEBUG"
  | info => "INFO"
  | warn => "WARN"
  | error => "ERROR"
  | none => "NONE"
  end.

(** [formatMessage], given the clock's ISO string and
    [JSON.stringify(_, null, 2)]. *)
Definition formatMessage (timestamp : string) (stringify : JsValue → string)
    (lvl : LogLevel) (message : string) (data : option JsValue) : string :=
  let dataStr :=
    match data with
    | Some d => if truthy d then String (Ascii.ascii_of_nat 10) "" +:+ stringify d else ""
    | None => ""
    end in
  "[" +:+ timestamp +:+ "] [" +:+ toUpperCase lvl +:+ "] " +:+ message +:+ dataStr.

(** What a call of the logger puts out: a line on a console method, or a
    call of the custom logger. *)
Inductive Output : Type :=
| Console (method : LogLevel) (text : string)
| Custom (logger : nat) (lvl : LogLevel) (message : string) (data : option JsValue).

Definition log (config : LogConfig) (timestamp : string)
    (stringify : JsValue → string)
    (lvl : LogLevel) (message : string) (data : option JsValue) : list Output :=
  if negb (shouldLog config lvl) then []
  else
    let formattedMessage := formatMessage timestamp stringify lvl message data in
    match customLogger config with
    | Some f => [Custom f lvl message data]
    | None =>
        match lvl with
        | none => []
        | _ => [Console lvl formattedMessage]
        end
    end.

Definition setConfig (config : LogConfig) (p : PartialLogConfig) : LogConfig :=
  spread config p.

Definition enable (config : LogConfig) : LogConfig :=
  mkLogConfig (level config) true (customLogger config).

Definition disable (config : LogConfig) : LogConfig :=
  mkLogConfig (level config) false (customLogger config).

(** [AdapterClient.enableLogging(config?)]:
    [setConfig({ enabled: true, ...config })]. *)
Definition enableLogging (config : LogConfig) (p : option PartialLogConfig)
  : LogConfig :=
  setConfig config
    (spread_partial (mkPartialLogConfig None (Some true) None)
                    (default (mkPartialLogConfig None None None) p)).

Definition disableLogging (config : LogConfig) : LogConfig := disable config.

End Logger.

(** ** A concrete environment

    A server given by a function of the number of requests it has seen
    and of the request, answering with an outcome and the time the round
    trip takes; the world is the clock and the number of requests. *)

Definition scripted (server : nat → AdapterRequest → FetchOutcome * Z)
  : Environment :=
  {| World := Z * nat;
     run_adapter := λ request w,
       let '(o, d) := server w.2 request in (o, (w.1 + d, S w.2));
     elapse := λ ms w, (w.1 + ms, w.2);
     Date_now := λ w, w.1 |}.

Definition initial_state `{Env : Environment} (w : World)
    (h : gmap loc AdapterContext) : State :=
  mkState w h [] ∅ 0%nat ∅ None None.

Definition http_ok (r : AdapterResponse) : FetchOutcome :=
  FetchResponse 200 "OK" (JsonResult r).

Definition default_config : AdapterConfig :=
  mkConfig (mkPartialRetryConfig None None None None).

(** *** Scenarios *)

Definition ok_response (output : option string) (data : option JsValue)
  : AdapterResponse :=
  mkResponse output ok data None.

(** Every round trip takes 5 ms. *)
Definition answering (answer : AdapterRequest → FetchOutcome)
  : nat → AdapterRequest → FetchOutcome * Z :=
  λ _ request, (answer request, 5).

(** The extractor answers ["y"] and [{foo: 1}], the others ["z"]. *)
Definition chain_server : nat → AdapterRequest → FetchOutcome * Z :=
  answering (λ request,
    if String.eqb (req_adapterId request) "pdf-text-extractor"
    then http_ok (ok_response (Some "y") (Some (JsObject [("foo", JsNumber 1)])))
    else http_ok (ok_response (Some "z") None)).

(** The extractor answers with an empty output, the others with none. *)
Definition silent_server : nat → AdapterRequest → FetchOutcome * Z :=
  answering (λ request,
    if String.eqb (req_adapterId request) "pdf-text-extractor"
    then http_ok (ok_response (Some "") None)
    else http_ok (ok_response None None)).

(** The persona adapter reports a failure of its own. *)
Definition failing_server : nat → AdapterRequest → FetchOutcome * Z :=
  answering (λ request,
    if String.eqb (req_adapterId request) "persona-legal"
    then http_ok (mkResponse None error None (Some "boom"))
    else http_ok (ok_response (Some "y") None)).

(** The Slack adapter answers with the update [{notified: true}]. *)
Definition notifying_server : nat → AdapterRequest → FetchOutcome * Z :=
  answering (λ request,
    if String.eqb (req_adapterId request) "slack-sender"
    then http_ok (ok_response None (Some (JsObject [("notified", JsBool true)])))
    else http_ok (ok_response None None)).

(** The analyzer updates [{x: 1}], the logger [{x: 2, y: 1}]. *)
Definition updating_server : nat → AdapterRequest → FetchOutcome * Z :=
  answering (λ request,
    if String.eqb (req_adapterId request) "risk-analyzer"
    then http_ok (ok_response None (Some (JsObject [("x", JsNumber 1)])))
    else http_ok (ok_response None
                    (Some (JsObject [("x", JsNumber 2); ("y", JsNumber 1)])))).

(** Two failures with status 503, then an answer. *)
Definition flaky_server : nat → AdapterRequest → FetchOutcome * Z :=
  λ n _,
    if (n <? 2)%nat
    then (FetchResponse 503 "Service Unavailable" (JsonSyntaxError ""), 5)
    else (http_ok (ok_response (Some "done") None), 5).

(** Status 404 to everything. *)
Definition rejecting_server : nat → AdapterRequest → FetchOutcome * Z :=
  answering (λ _, FetchResponse 404 "Not Found" (JsonSyntaxError "")).

(** A slow answer (1500 ms) from the analyzer, quick ones from the rest. *)
Definition slow_server : nat → AdapterRequest → FetchOutcome * Z :=
  λ _ request,
    (http_ok (ok_response None None),
     if String.eqb (req_adapterId request) "risk-analyzer" then 1500 else 5).

(** The caller's context object at location 0, nothing scheduled. *)
Definition scenario_state (server : nat → AdapterRequest → FetchOutcome * Z)
  : @State (scripted server) :=
  @initial_state (scripted server) (0, 0%nat)
                 {[ 0%nat := {[ "userId" := JsString "user_123" ]} ]}.

(** The caller's context in the scenarios. *)
Definition scenario_context : AdapterContext :=
  {[ "userId" := JsString "user_123" ]}.

(** Status 503 to everything. *)
Definition unavailable_server : nat → AdapterRequest → FetchOutcome * Z :=
  answering (λ _, FetchResponse 503 "Service Unavailable" (JsonSyntaxError "")).

(** A policy without attempts, and one with two. *)
Definition no_attempts_config : AdapterConfig :=
  mkConfig (mkPartialRetryConfig (Some 0) None None None).

Definition two_attempts_config : AdapterConfig :=
  mkConfig (mkPartialRetryConfig (Some 2) None None None).

(** The scripted environment with a clock that cannot run backwards:
    negative durations count as none. *)
Definition punctual (server : nat → AdapterRequest → FetchOutcome * Z)
  : Environment :=
  {| World := Z * nat;
     run_adapter := λ request w,
       let '(o, d) := server w.2 request in (o, (w.1 + Z.max 0 d, S w.2));
     elapse := λ ms w, (w.1 + Z.max 0 ms, w.2);
     Date_now := λ w, w.1 |}.

Definition punctual_state (server : nat → AdapterRequest → FetchOutcome * Z)
  : @State (punctual server) :=
  @initial_state (punctual server) (0, 0%nat)
                 {[ 0%nat := {[ "userId" := JsString "user_123" ]} ]}.

(** A discovery endpoint that is down. *)
Definition discovery_down : option string → Z * nat → DiscoveryOutcome * (Z * nat) :=
  λ _ w, (DiscoveryResponse 503 "Service Unavailable" (inr ""), (w.1 + 5, S w.2)).

(** * Observations

    The vocabulary in which the properties are stated: what a stretch of
    execution did to the state, and the behaviour the specification
    describes, written out as plain functions. *)

Section Observations.

Context `{Env : Environment}.

(** ** Effects of a call, seen from outside *)

(** [frame s s' evs]: from [s] to [s'] the program performed exactly the
    events [evs] and touched nothing but the world. *)
Record frame (s s' : State) (evs : list Event) : Prop := mkFrame {
  fr_heap : heap s' = heap s;
  fr_trace : trace s' = trace s ++ evs;
  fr_timers : timers s' = timers s;
  fr_next_timer : next_timer s' = next_timer s;
  fr_healthState : healthState s' = healthState s;
  fr_checkInterval : checkInterval s' = checkInterval s;
  fr_lastSystemCheck : lastSystemCheck s' = lastSystemCheck s
}.

(** The request that [callAdapter] serialises in state [s]. *)
Definition request_of (adapterId : string) (input : option string)
    (context : loc) (s : State) : AdapterRequest :=
  mkRequest adapterId input (default ∅ (heap s !! context)).

(** The events of [n] consecutive failed-or-final attempts, the first of
    them numbered [attempt]: a fetch each, and between two of them the
    wait that [getRetryDelay] computes for the attempt that just failed. *)
Fixpoint loop_trace (retryConfig : RetryConfig) (request : AdapterRequest)
    (attempt : Z) (n : nat) : list Event :=
  match n with
  | O => []
  | S n' =>
      EvFetch request ::
      match n' with
      | O => []
      | S _ => EvSleep (getRetryDelay attempt retryConfig) ::
               loop_trace retryConfig request (attempt + 1) n'
      end
  end.

(** The wait before attempt [k], for [k >= 2]. *)
Definition delay_before (retryConfig : RetryConfig) (k : Z) : Z :=
  Z.min (baseDelay retryConfig * backoffMultiplier retryConfig ^ (k - 2))
        (maxDelay retryConfig).

(** What attempt number [k] does: from the second attempt on a wait, then
    the fetch. *)
Definition attempt_events (retryConfig : RetryConfig) (request : AdapterRequest)
    (k : nat) : list Event :=
  (if (2 <=? k)%nat then [EvSleep (delay_before retryConfig (Z.of_nat k))] else [])
  ++ [EvFetch request].

(** Attempts 1 to [n]. *)
Definition attempts_schedule (retryConfig : RetryConfig) (request : AdapterRequest)
    (n : nat) : list Event :=
  flat_map (attempt_events retryConfig request) (seq 1 n).

Definition is_fetch (e : Event) : bool :=
  match e with
  | EvFetch _ => true
  | EvSleep _ => false
  end.

(** The number of transport attempts among some events. *)
Definition transport_attempts (evs : list Event) : nat :=
  length (List.filter is_fetch evs).

(** *** Sequential chains *)

(** The context after an adapter's update has been merged. *)
Definition apply_data (ctx : AdapterContext) (data : option JsValue) : AdapterContext :=
  match data with
  | Some d => Object_assign ctx d
  | None => ctx
  end.

(** The threaded input and the accumulated context after the adapters
    that answered [rs], in order. *)
Definition input_after (input : string) (rs : list AdapterResponse) : string :=
  foldl (λ cur r, thread_output cur (resp_output r)) input rs.

Definition context_after (ctx : AdapterContext) (rs : list AdapterResponse)
  : AdapterContext :=
  foldl (λ acc r, apply_data acc (resp_data r)) ctx rs.

(** [invocation config adapterId input ctx r evs]: a call of [callAdapter]
    for [adapterId] with input [input] and a context object whose
    properties were [ctx] returned [r] after performing [evs], and every
    request it sent carried that input and that context. *)
Definition invocation (config : AdapterConfig) (adapterId : string)
    (input : option string) (ctx : AdapterContext) (r : AdapterResponse)
    (evs : list Event) : Prop :=
  (∃ s1 s2 context,
      default ∅ (heap s1 !! context) = ctx ∧
      callAdapter config adapterId input context s1 = (Return r, s2) ∧
      trace s2 = trace s1 ++ evs) ∧
  Forall (λ ev, ∀ request, ev = EvFetch request →
                           request = mkRequest adapterId input ctx) evs.

(** Two states that differ in the heap only. *)
Definition same_but_heap (s s' : State) : Prop :=
  world s' = world s ∧ trace s' = trace s ∧ timers s' = timers s ∧
  next_timer s' = next_timer s ∧ healthState s' = healthState s ∧
  checkInterval s' = checkInterval s ∧ lastSystemCheck s' = lastSystemCheck s.

(** A server whose answer to a request does not depend on what it has
    seen before, nor on when it is asked. *)
Definition stateless : Prop :=
  ∀ request w1 w2, (run_adapter request w1).1 = (run_adapter request w2).1.

(** What one attempt makes of the outcome of its fetch. *)
Definition attempt_completion (adapterId : string) (o : FetchOutcome)
  : Completion AdapterResponse :=
  match o with
  | FetchRejected msg => Throw (mkError msg None)
  | FetchResponse status statusText body =>
      if negb (response_ok status)
      then Throw (mkError ("Adapter " +:+ adapterId +:+ " failed: " +:+ statusText)
                          (Some status))
      else match body with
           | JsonResult r => Return r
           | JsonSyntaxError msg => Throw (mkError msg None)
           end
  end.

(** *** Health monitoring *)

(** [probed config adapterId h]: [h] is the record that a probe of
    [adapterId] produced. *)
Definition probed (config : AdapterConfig) (adapterId : string)
    (h : AdapterHealth) : Prop :=
  ∃ s1 s2, checkAdapterHealth config adapterId s1 = (Return h, s2).

(** Two states with the same timers and the same [checkInterval]. *)
Definition same_timers (s s' : State) : Prop :=
  timers s' = timers s ∧ next_timer s' = next_timer s ∧
  checkInterval s' = checkInterval s.

(** The scheduled intervals are exactly the one that [checkInterval]
    holds, if it holds one. *)
Definition monitor_inv (s : State) : Prop :=
  dom (timers s) = match checkInterval s with
                   | Some t => {[t]}
                   | None => ∅
                   end.

(** A sequence of operations on the monitor. *)
Definition run_ops (config : AdapterConfig) (ops : list MonitorOp) (s : State)
  : State :=
  foldl (λ s op, (monitor_step config op s).2) s ops.

End Observations.

(** * Further observations *)

Section MoreObservations.

Context `{Env : Environment}.

(** The time spent waiting among some events. *)
Definition total_wait (evs : list Event) : Z :=
  foldr (λ ev acc, match ev with
                   | EvSleep ms => ms + acc
                   | EvFetch _ => acc
                   end) 0 evs.



(** A clock that does not run backwards. *)
Definition monotone_clock : Prop :=
  (∀ request w, Date_now w ≤ Date_now (run_adapter request w).2) ∧
  (∀ ms w, Date_now w ≤ Date_now (elapse ms w)).

(** The objects that exist in [s] are in [s'] as they were. *)
Definition heap_preserved (s s' : State) : Prop :=
  ∀ l, is_Some (heap s !! l) → heap s' !! l = heap s !! l.

(** What a stretch of execution leaves alone: every object but [u], the
    health records and the timers. *)
Definition only_touches (u : loc) (s s' : State) : Prop :=
  (∀ l, l ≠ u → heap s' !! l = heap s !! l) ∧
  healthState s' = healthState s ∧
  lastSystemCheck s' = lastSystemCheck s ∧
  same_timers s s'.

(** Two states that the environment cannot tell apart: the same world
    and the same events so far. *)
Definition same_outside (s1 s2 : State) : Prop :=
  world s1 = world s2 ∧ trace s1 = trace s2.

(** What a probe or a check may do: send probe requests for the adapters
    [adapterIds], and nothing to the objects that exist or to the timers. *)
Definition probes_only (adapterIds : list string) (s s' : State) : Prop :=
  heap_preserved s s' ∧ same_timers s s' ∧
  ∃ evs, trace s' = trace s ++ evs ∧
         ∀ request, EvFetch request ∈ evs →
                    req_adapterId request ∈ adapterIds ∧
                    req_input request = None ∧
                    req_context request = {[ "healthCheck" := JsBool true ]}.

(** A record whose message and latency fit its status. *)
Definition record_consistent (h : AdapterHealth) : Prop :=
  match health_status h with
  | healthy => health_latency h ≤ 1000 ∧ health_message h = None
  | degraded =>
      1000 < health_latency h ∧ health_message h = Some "High latency detected"
  | unhealthy => True
  end.

(** Once a system check has completed, every adapter of the registry has
    a record. *)
Definition records_complete (s : State) : Prop :=
  is_Some (lastSystemCheck s) →
  ∀ adapterId, adapterId ∈ Object_keys adapterRegistry →
               is_Some (healthState s !! adapterId).

End MoreObservations.

(** * Properties *)

Ltac unfold_monad :=
  unfold mbind, M_bind, bind, mret, M_ret, ret, throw, try_catch in *.

Section Properties.

Context `{Env : Environment}.


Lemma frame_refl s : frame s s [].
Proof. split; try done. by rewrite app_nil_r. Qed.

Lemma frame_trans s1 s2 s3 evs1 evs2 :
  frame s1 s2 evs1 → frame s2 s3 evs2 → frame s1 s3 (evs1 ++ evs2).
Proof.
  intros [] []. split; try congruence.
  rewrite app_assoc. congruence.
Qed.


Lemma fetch_frame request s :
  fetch request s =
    (Return (run_adapter request (world s)).1,
     log_event (EvFetch request)
               (set_world (run_adapter request (world s)).2 s)).
Proof. unfold fetch. by destruct (run_adapter request (world s)). Qed.


Lemma attempt_once_frame adapterId input context s res s' :
  attempt_once adapterId input context s = (res, s') →
  frame s s' [EvFetch (request_of adapterId input context s)].
Proof.
  unfold attempt_once, read_object. unfold_monad. rewrite fetch_frame.
  set (o := run_adapter _ _). intros H.
  assert (s' = log_event (EvFetch (request_of adapterId input context s))
                         (set_world o.2 s)) as ->.
  { unfold request_of.
    destruct o.1 as [?|st ? body]; simpl in H; [congruence|].
    destruct (response_ok st); simpl in H; [|congruence].
    destruct body; congruence. }
  by split.
Qed.


Lemma shouldRetry_lt e attempt maxAttempts :
  shouldRetry e attempt maxAttempts = true → attempt < maxAttempts.
Proof. unfold shouldRetry. destruct (Z.geb_spec attempt maxAttempts); [done | lia]. Qed.

Lemma retry_loop_frame retryConfig adapterId input context remaining :
  ∀ attempt lastError s res s',
    retry_loop retryConfig adapterId input context remaining attempt lastError s
      = (res, s') →
    Z.of_nat remaining = maxAttempts retryConfig + 1 - attempt →
    ∃ (n : nat) exit,
      res = Return exit ∧ (n ≤ remaining)%nat ∧
      (remaining ≠ O → n ≠ O) ∧
      (n = O → exit = Exhausted lastError) ∧
      frame s s' (loop_trace retryConfig
                    (request_of adapterId input context s) attempt n).
Proof.
  induction remaining as [|remaining IH]; intros attempt lastError s res s' H Hrem.
  - simpl in H. unfold_monad. inversion H; subst.
    exists O, (Exhausted lastError). repeat split; try done. by rewrite app_nil_r.
  - simpl in H. unfold_monad.
    destruct (attempt_once adapterId input context s) as [[r|e] s1] eqn:Hatt;
      pose proof (attempt_once_frame _ _ _ _ _ _ Hatt) as Hfr.
    + inversion H; subst. exists 1%nat, (Returned r).
      repeat split; try done; try lia; apply Hfr.
    + destruct (shouldRetry e attempt (maxAttempts retryConfig)) eqn:Hsr; simpl in H.
      * pose proof (shouldRetry_lt _ _ _ Hsr) as Hlt.
        destruct (Z.ltb_spec attempt (maxAttempts retryConfig)); [|lia].
        unfold sleep in H.
        set (s2 := log_event _ _) in H.
        apply IH in H; [|lia].
        destruct H as (n & exit & -> & Hn & Hpos & _ & Hfr2).
        destruct remaining as [|remaining]; [lia|].
        destruct n as [|n]; [by destruct Hpos|].
        exists (S (S n)), exit. repeat split; try done; try lia.
        all: try (destruct Hfr, Hfr2; simpl in *; congruence).
        destruct Hfr, Hfr2. simpl in *.
        rewrite fr_trace1. unfold request_of in *. simpl.
        rewrite fr_heap0, fr_trace0. simpl. by rewrite <- !app_assoc.
      * inversion H; subst. exists 1%nat, (Exhausted (Some e)).
        repeat split; try done; try lia; apply Hfr.
Qed.

Lemma retry_loop_last retryConfig adapterId input context remaining :
  ∀ attempt lastError s exit s',
    retry_loop retryConfig adapterId input context remaining attempt lastError s
      = (Return exit, s') →
    Z.of_nat remaining = maxAttempts retryConfig + 1 - attempt →
    remaining ≠ O →
    ∃ s0,
      match exit with
      | Returned r =>
          attempt_once adapterId input context s0 = (Return r, s')
      | Exhausted lastError' =>
          ∃ e, lastError' = Some e ∧
               attempt_once adapterId input context s0 = (Throw e, s')
      end.
Proof.
  induction remaining as [|remaining IH];
    intros attempt lastError s exit s' H Hinv Hrem; [done|].
  simpl in H. unfold_monad.
  destruct (attempt_once adapterId input context s) as [[r|e] s1] eqn:Hatt.
  - inversion H; subst. by exists s.
  - destruct (shouldRetry e attempt (maxAttempts retryConfig)) eqn:Hsr; simpl in H.
    + apply shouldRetry_lt in Hsr.
      destruct (attempt <? maxAttempts retryConfig); simpl in H;
        apply IH in H; try done; lia.
    + inversion H; subst. exists s. eauto.
Qed.

(** *** [callAdapter] *)

Lemma callAdapter_invalid config adapterId input context s :
  isValidAdapterId adapterId = false →
  callAdapter config adapterId input context s =
    (Throw (mkError ("Invalid adapter ID: " +:+ adapterId) None), s).
Proof. intros H. unfold callAdapter. by rewrite H. Qed.

Lemma callAdapter_valid config adapterId input context s :
  isValidAdapterId adapterId = true →
  let retryConfig := merge_retry defaultRetryConfig (retry config) in
  ∃ (n : nat) exit s',
    retry_loop retryConfig adapterId input context
               (Z.to_nat (maxAttempts retryConfig)) 1 None s = (Return exit, s') ∧
    callAdapter config adapterId input context s =
      (Return match exit with
              | Returned r => r
              | Exhausted lastError => errorResponse lastError
              end, s') ∧
    (n ≤ Z.to_nat (maxAttempts retryConfig))%nat ∧
    (1 ≤ maxAttempts retryConfig → n ≠ O) ∧
    frame s s' (loop_trace retryConfig
                  (request_of adapterId input context s) 1 n).
Proof.
  intros Hvalid retryConfig. unfold callAdapter. rewrite Hvalid.
  cbn [negb]. fold retryConfig. unfold_monad.
  destruct (retry_loop retryConfig adapterId input context
              (Z.to_nat (maxAttempts retryConfig)) 1 None s) as [res s'] eqn:Hloop.
  destruct (Z.le_gt_cases 1 (maxAttempts retryConfig)) as [Hge|Hlt].
  - apply retry_loop_frame in Hloop as Hfr; [|lia].
    destruct Hfr as (n & exit & -> & Hn & Hpos & _ & Hfr).
    exists n, exit, s'. repeat split; try done; try apply Hfr.
    + by destruct exit.
    + intros _. apply Hpos. lia.
  - replace (Z.to_nat (maxAttempts retryConfig)) with O in * by lia.
    simpl in Hloop. unfold_monad. inversion Hloop; subst.
    exists O, (Exhausted None), s'. repeat split; try done; try lia.
    by rewrite app_nil_r.
Qed.

(** For a valid identifier the caller always receives a value. *)
Lemma callAdapter_valid_returns config adapterId input context s :
  isValidAdapterId adapterId = true →
  ∃ r s', callAdapter config adapterId input context s = (Return r, s').
Proof.
  intros H. destruct (callAdapter_valid config adapterId input context s H)
    as (n & exit & s' & _ & Hcall & _). eauto.
Qed.

(** [callAdapter] throws exactly when the validation rejects the
    identifier, and then nothing has happened. *)
Lemma callAdapter_throws_iff config adapterId input context s :
  (∃ e s', callAdapter config adapterId input context s = (Throw e, s')) ↔
  isValidAdapterId adapterId = false.
Proof.
  split.
  - intros (e & s' & H). destruct (isValidAdapterId adapterId) eqn:Hv; [|done].
    destruct (callAdapter_valid_returns config adapterId input context s Hv)
      as (r & s'' & Hr). congruence.
  - intros H. rewrite callAdapter_invalid by done. eauto.
Qed.

(** When the attempts are exhausted the value is an [error] result that
    carries the message of the error thrown by the last attempt. *)
Lemma callAdapter_exhausted config adapterId input context s lastError s' :
  let retryConfig := merge_retry defaultRetryConfig (retry config) in
  isValidAdapterId adapterId = true →
  1 ≤ maxAttempts retryConfig →
  retry_loop retryConfig adapterId input context
             (Z.to_nat (maxAttempts retryConfig)) 1 None s
    = (Return (Exhausted lastError), s') →
  ∃ e s0,
    attempt_once adapterId input context s0 = (Throw e, s') ∧
    callAdapter config adapterId input context s =
      (Return (mkResponse None error None (Some (err_message e))), s').
Proof.
  intros retryConfig Hvalid Hmax Hloop.
  apply retry_loop_last in Hloop as Hlast; [|lia..].
  destruct Hlast as (s0 & e & -> & Hatt).
  exists e, s0. split; [done|].
  unfold callAdapter. rewrite Hvalid. cbn [negb]. fold retryConfig.
  unfold_monad. by rewrite Hloop.
Qed.

Lemma callAdapter_frame config adapterId input context s res s' :
  callAdapter config adapterId input context s = (res, s') →
  ∃ evs, frame s s' evs ∧
    ∀ request, EvFetch request ∈ evs →
               request = request_of adapterId input context s.
Proof.
  intros H. destruct (isValidAdapterId adapterId) eqn:Hv.
  - destruct (callAdapter_valid config adapterId input context s Hv)
      as (n & exit & s'' & _ & Hcall & _ & _ & Hfr).
    rewrite Hcall in H. inversion H; subst.
    eexists. split; [exact Hfr|].
    generalize 1. clear. induction n as [|n IH]; intros a request Hin;
      simpl in Hin.
    + by apply elem_of_nil in Hin.
    + apply elem_of_cons in Hin as [Hin|Hin]; [congruence|].
      destruct n as [|n]; [by apply elem_of_nil in Hin|].
      apply elem_of_cons in Hin as [Hin|Hin]; [done|]. by eapply IH.
  - rewrite callAdapter_invalid in H by done. inversion H; subst.
    exists []. split; [apply frame_refl|]. intros ? Hin. by apply elem_of_nil in Hin.
Qed.

(** *** The schedule of attempts *)

Lemma getRetryDelay_delay_before retryConfig (a : nat) :
  getRetryDelay (Z.of_nat a) retryConfig = delay_before retryConfig (Z.of_nat (S a)).
Proof.
  unfold getRetryDelay, delay_before.
  by replace (Z.of_nat (S a) - 2) with (Z.of_nat a - 1) by lia.
Qed.

Lemma loop_trace_schedule retryConfig request (n a : nat) :
  (1 ≤ a)%nat →
  loop_trace retryConfig request (Z.of_nat a) (S n) =
    EvFetch request :: flat_map (attempt_events retryConfig request) (seq (S a) n).
Proof.
  revert a. induction n as [|n IH]; intros a Ha; [done|].
  change (loop_trace retryConfig request (Z.of_nat a) (S (S n)))
    with (EvFetch request :: EvSleep (getRetryDelay (Z.of_nat a) retryConfig)
            :: loop_trace retryConfig request (Z.of_nat a + 1) (S n)).
  replace (Z.of_nat a + 1) with (Z.of_nat (S a)) by lia.
  rewrite IH by lia. rewrite getRetryDelay_delay_before.
  cbn [seq flat_map]. unfold attempt_events at 2.
  destruct (Nat.leb_spec 2 (S a)); [done | lia].
Qed.

Lemma loop_trace_attempts retryConfig request (n : nat) :
  loop_trace retryConfig request 1 n = attempts_schedule retryConfig request n.
Proof.
  destruct n as [|n]; [done|].
  apply (loop_trace_schedule retryConfig request n 1). lia.
Qed.

Lemma transport_attempts_app evs1 evs2 :
  transport_attempts (evs1 ++ evs2) =
    (transport_attempts evs1 + transport_attempts evs2)%nat.
Proof. unfold transport_attempts. by rewrite List.filter_app, length_app. Qed.

Lemma transport_attempts_schedule retryConfig request (n : nat) :
  transport_attempts (attempts_schedule retryConfig request n) = n.
Proof.
  unfold attempts_schedule. generalize 1%nat.
  induction n as [|n IH]; intros a; [done|].
  cbn [seq flat_map]. rewrite transport_attempts_app, IH.
  unfold attempt_events. by destruct (2 <=? a)%nat.
Qed.

Lemma attempt_once_client_error adapterId input context s st txt body w :
  run_adapter (request_of adapterId input context s) (world s)
    = (FetchResponse st txt body, w) →
  400 ≤ st < 500 →
  ∃ s1,
    attempt_once adapterId input context s =
      (Throw (mkError ("Adapter " +:+ adapterId +:+ " failed: " +:+ txt) (Some st)), s1).
Proof.
  intros Hrun Hst. unfold attempt_once, read_object. unfold_monad.
  rewrite fetch_frame. unfold request_of in Hrun. rewrite Hrun. cbn [fst snd].
  unfold response_ok.
  destruct (Z.leb_spec 200 st), (Z.leb_spec st 299); try lia; cbn [andb negb]; eauto.
Qed.

(** C3. For every retry policy with [maxAttempts >= 1], what
    [callAdapter] does to the network and the timers is the schedule of
    some number [n <= maxAttempts] of attempts: one fetch per attempt, no
    wait before attempt 1, and before attempt [k >= 2] a wait of
    [min(baseDelay * backoffMultiplier^(k-2), maxDelay)]. When the first
    response carries a status in [400,500) there is exactly one attempt. *)
Theorem retry_attempts_and_delays config adapterId input context s :
  let retryConfig := merge_retry defaultRetryConfig (retry config) in
  let request := request_of adapterId input context s in
  let s' := (callAdapter config adapterId input context s).2 in
  1 ≤ maxAttempts retryConfig →
  (∃ n : nat,
      Z.of_nat n ≤ maxAttempts retryConfig ∧
      trace s' = trace s ++ attempts_schedule retryConfig request n ∧
      transport_attempts (attempts_schedule retryConfig request n) = n ∧
      (isValidAdapterId adapterId = true → (1 ≤ n)%nat)) ∧
  (isValidAdapterId adapterId = true →
   ∀ st txt body w,
     run_adapter request (world s) = (FetchResponse st txt body, w) →
     400 ≤ st < 500 →
     trace s' = trace s ++ [EvFetch request] ∧
     transport_attempts [EvFetch request] = 1%nat).
Proof.
  intros retryConfig request s' Hmax. split.
  - destruct (isValidAdapterId adapterId) eqn:Hv.
    + destruct (callAdapter_valid config adapterId input context s Hv)
        as (n & exit & s1 & _ & Hcall & Hn & Hpos & Hfr).
      exists n. subst s'. rewrite Hcall. cbn [snd].
      fold retryConfig in Hn, Hpos, Hfr. fold request in Hfr.
      rewrite loop_trace_attempts in Hfr.
      repeat split.
      * lia.
      * apply Hfr.
      * apply transport_attempts_schedule.
      * intros _. specialize (Hpos Hmax). lia.
    + exists O. subst s'. rewrite callAdapter_invalid by done. cbn [snd].
      repeat split; try done; try lia. by rewrite app_nil_r.
  - intros Hv st txt body w Hrun Hst.
    destruct (attempt_once_client_error _ _ _ _ _ _ _ _ Hrun Hst) as (s1 & Hatt).
    pose proof (attempt_once_frame _ _ _ _ _ _ Hatt) as Hfr.
    split; [|done].
    subst s'. unfold callAdapter. rewrite Hv. cbn [negb]. fold retryConfig.
    destruct (Z.to_nat (maxAttempts retryConfig)) as [|remaining] eqn:Hrem; [lia|].
    unfold_monad. cbn [retry_loop]. unfold_monad. rewrite Hatt.
    unfold shouldRetry. cbn [err_status].
    destruct (1 >=? maxAttempts retryConfig); cbn [negb snd]; [apply Hfr|].
    destruct (Z.geb_spec st 400), (Z.ltb_spec st 500); try lia.
    cbn [andb negb snd]. apply Hfr.
Qed.

(** C2, at an identifier that is not in the registry. ["toString"] is not
    one of the registry's keys, yet [isValidAdapterId] accepts it, because
    [in] also finds what the registry object inherits; [callAdapter] then
    does not throw: it goes to the network and hands back a value. *)
Theorem callAdapter_accepts_inherited_key config input context s :
  ("toString" ∉ Object_keys adapterRegistry) ∧
  isValidAdapterId "toString" = true ∧
  (∃ r s', callAdapter config "toString" input context s = (Return r, s')) ∧
  (∃ evs, trace (callAdapter default_config "toString" input context s).2 =
            trace s ++ EvFetch (request_of "toString" input context s) :: evs).
Proof.
  assert (isValidAdapterId "toString" = true) as Hv by (by vm_compute).
  split; [|split; [done|split]].
  - vm_compute. intros H. repeat (apply elem_of_cons in H as [H|H]; [done|]).
    by apply elem_of_nil in H.
  - by apply callAdapter_valid_returns.
  - destruct (callAdapter_valid default_config "toString" input context s Hv)
      as (n & exit & s1 & _ & Hcall & Hn & Hpos & Hfr).
    rewrite Hcall. cbn [snd].
    destruct n as [|n]; [by destruct Hpos|].
    eexists. apply Hfr.
Qed.

(** ** The executor *)

Lemma Object_assign_falsy ctx d : truthy d = false → Object_assign ctx d = ctx.
Proof.
  unfold Object_assign. destruct d as [|b|z|str| |]; simpl; try done.
  destruct str; [done | by simpl].
Qed.

Lemma merge_data_spec u data s ctx :
  heap s !! u = Some ctx →
  ∃ s', merge_data u data s = (Return tt, s') ∧
        heap s' = <[u := apply_data ctx data]> (heap s) ∧
        same_but_heap s s'.
Proof.
  intros Hu. unfold merge_data, apply_data.
  assert (heap s = <[u := ctx]> (heap s)) as Hid by (by rewrite insert_id).
  destruct data as [d|]; [destruct (truthy d) eqn:Ht|].
  - unfold assign_object. rewrite Hu. eexists. split; [done|]. by split.
  - rewrite Object_assign_falsy by done. exists s. by split.
  - exists s. by split.
Qed.

Lemma invocation_of_call config adapterId input context s r s' :
  callAdapter config adapterId input context s = (Return r, s') →
  ∃ evs, frame s s' evs ∧
         invocation config adapterId input (default ∅ (heap s !! context)) r evs.
Proof.
  intros H. destruct (callAdapter_frame _ _ _ _ _ _ _ H) as (evs & Hfr & Hreq).
  exists evs. split; [done|]. split.
  - exists s, s', context. repeat split; try done. apply Hfr.
  - apply Forall_forall. intros ev Hin request ->. by apply Hreq.
Qed.

Lemma runBeforeLLM_loop_ok config updatedContext adapterIds :
  ∀ input s prompt s' ctx,
    heap s !! updatedContext = Some ctx →
    runBeforeLLM_loop config adapterIds input updatedContext s = (Return prompt, s') →
    ∃ rs evss,
      length rs = length adapterIds ∧
      length evss = length adapterIds ∧
      Forall (λ r, resp_status r = ok) rs ∧
      prompt = input_after input rs ∧
      heap s' = <[updatedContext := context_after ctx rs]> (heap s) ∧
      trace s' = trace s ++ concat evss ∧
      ∀ i adapterId,
        adapterIds !! i = Some adapterId →
        ∃ r evs,
          rs !! i = Some r ∧ evss !! i = Some evs ∧
          invocation config adapterId
                     (Some (input_after input (take i rs)))
                     (context_after ctx (take i rs)) r evs.
Proof.
  induction adapterIds as [|adapterId rest IH]; intros input s prompt s' ctx Hu H.
  - simpl in H. unfold_monad. inversion H; subst.
    exists [], []. repeat split; try done.
    + simpl. by rewrite insert_id.
    + simpl. by rewrite app_nil_r.
  - simpl in H. unfold_monad.
    destruct (callAdapter config adapterId (Some input) updatedContext s)
      as [[r|e] s1] eqn:Hcall; [|done].
    destruct (resp_status r) eqn:Hst; [|done].
    destruct (invocation_of_call _ _ _ _ _ _ _ Hcall) as (evs & Hfr & Hinv).
    rewrite Hu in Hinv. simpl in Hinv.
    assert (heap s1 !! updatedContext = Some ctx) as Hu1
      by (by rewrite (fr_heap _ _ _ Hfr)).
    destruct (merge_data_spec updatedContext (resp_data r) s1 ctx Hu1)
      as (s2 & Hmerge & Hheap2 & Hsame).
    rewrite Hmerge in H.
    apply (IH _ _ _ _ (apply_data ctx (resp_data r))) in H;
      [|by rewrite Hheap2, lookup_insert_eq].
    destruct H as (rs & evss & Hlen & Hlen' & Hok & -> & Hheap & Htrace & Hinvs).
    exists (r :: rs), (evs :: evss). repeat split.
    + simpl. by rewrite Hlen.
    + simpl. by rewrite Hlen'.
    + by constructor.
    + rewrite Hheap, Hheap2, insert_insert_eq. by rewrite (fr_heap _ _ _ Hfr).
    + destruct Hsame as (_ & Htr & _). rewrite Htrace, Htr, (fr_trace _ _ _ Hfr).
      simpl. by rewrite <- app_assoc.
    + intros [|i] id Hid; simpl in Hid.
      * inversion Hid; subst. exists r, evs. split; [done|]. split; [done|].
        exact Hinv.
      * destruct (Hinvs i id Hid) as (r' & evs' & Hr & Hevs & Hinv').
        exists r', evs'. split; [done|]. split; [done|]. exact Hinv'.
Qed.

Lemma new_object_spec props s :
  let l := fresh (dom (heap s)) in
  new_object props s = (Return l, set_heap (<[l := props]> (heap s)) s) ∧
  heap s !! l = None.
Proof.
  split; [done|]. apply not_elem_of_dom, is_fresh.
Qed.

(** The chain of [runBeforeLLM] when every adapter of the list succeeds:
    it returns the input threaded through the adapters' outputs and a new
    context object holding the initial context with every adapter's
    update merged in, in order; and adapter [i] was invoked with the
    input and the context accumulated from the answers of the adapters
    before it. *)
Lemma runBeforeLLM_chain config input adapterIds context s prompt updatedContext s' :
  runBeforeLLM config input adapterIds context s
    = (Return (prompt, updatedContext), s') →
  let ctx0 := default ∅ (heap s !! context) in
  ∃ rs evss,
    length rs = length adapterIds ∧
    length evss = length adapterIds ∧
    Forall (λ r, resp_status r = ok) rs ∧
    prompt = input_after input rs ∧
    heap s !! updatedContext = None ∧
    heap s' = <[updatedContext := context_after ctx0 rs]> (heap s) ∧
    trace s' = trace s ++ concat evss ∧
    ∀ i adapterId,
      adapterIds !! i = Some adapterId →
      ∃ r evs,
        rs !! i = Some r ∧ evss !! i = Some evs ∧
        invocation config adapterId
                   (Some (input_after input (take i rs)))
                   (context_after ctx0 (take i rs)) r evs.
Proof.
  intros H ctx0. unfold runBeforeLLM, read_object in H. unfold_monad.
  destruct (new_object_spec ctx0 s) as [Hnew Hfresh]. fold ctx0 in H.
  rewrite Hnew in H. set (u := fresh (dom (heap s))) in *.
  set (s0 := set_heap _ s) in H.
  destruct (runBeforeLLM_loop config adapterIds input u s0) as [[p|e] s1] eqn:Hloop;
    [|done].
  inversion H; subst p updatedContext s1. clear H.
  apply (runBeforeLLM_loop_ok _ _ _ _ _ _ _ ctx0) in Hloop;
    [|by subst s0; simpl; rewrite lookup_insert_eq].
  destruct Hloop as (rs & evss & Hlen & Hlen' & Hok & Hp & Hheap & Htrace & Hinv).
  exists rs, evss. repeat split; try done.
  rewrite Hheap. subst s0. simpl. by rewrite insert_insert_eq.
Qed.

Lemma callAdapter_first_success config adapterId input context s r w :
  isValidAdapterId adapterId = true →
  1 ≤ maxAttempts (merge_retry defaultRetryConfig (retry config)) →
  run_adapter (request_of adapterId input context s) (world s) = (http_ok r, w) →
  callAdapter config adapterId input context s =
    (Return r, log_event (EvFetch (request_of adapterId input context s))
                         (set_world w s)).
Proof.
  intros Hv Hmax Hrun. unfold callAdapter. rewrite Hv. cbn [negb].
  destruct (Z.to_nat _) as [|remaining] eqn:Hrem; [lia|].
  unfold_monad. cbn [retry_loop]. unfold_monad.
  unfold attempt_once, read_object. unfold_monad. rewrite fetch_frame.
  unfold request_of in Hrun. by rewrite Hrun.
Qed.

(** C4. When every adapter of the list succeeds, the output of adapter
    [i], if it is present and not empty, becomes the input of adapter
    [i+1], and otherwise the previous input is carried forward; every
    adapter's update is merged into the accumulated context, a new object,
    before adapter [i+1] is invoked, so adapter [i] is invoked with the
    input and the context accumulated from the answers of the adapters
    before it. In the example, with valid adapters [A], [B] and input
    ["x"], where [A] answers with output ["y"] and the update [{foo: 1}]
    and [B], asked with ["y"] and the merged context, answers with output
    ["z"], the result is the prompt ["z"] and the initial context extended
    with [foo: 1]. *)
Theorem runBeforeLLM_threads_output_and_context config :
  (∀ input adapterIds context s prompt updatedContext s',
      runBeforeLLM config input adapterIds context s
        = (Return (prompt, updatedContext), s') →
      let ctx0 := default ∅ (heap s !! context) in
      ∃ rs evss,
        length rs = length adapterIds ∧
        length evss = length adapterIds ∧
        Forall (λ r, resp_status r = ok) rs ∧
        prompt = input_after input rs ∧
        heap s !! updatedContext = None ∧
        heap s' = <[updatedContext := context_after ctx0 rs]> (heap s) ∧
        trace s' = trace s ++ concat evss ∧
        ∀ i adapterId,
          adapterIds !! i = Some adapterId →
          ∃ r evs,
            rs !! i = Some r ∧ evss !! i = Some evs ∧
            invocation config adapterId
                       (Some (input_after input (take i rs)))
                       (context_after ctx0 (take i rs)) r evs) ∧
  (∀ A B context s w1 w2,
      let ctx0 := default ∅ (heap s !! context) in
      isValidAdapterId A = true →
      isValidAdapterId B = true →
      1 ≤ maxAttempts (merge_retry defaultRetryConfig (retry config)) →
      run_adapter (mkRequest A (Some "x") ctx0) (world s) =
        (http_ok (mkResponse (Some "y") ok
                             (Some (JsObject [("foo", JsNumber 1)])) None), w1) →
      run_adapter (mkRequest B (Some "y") (<["foo" := JsNumber 1]> ctx0)) w1 =
        (http_ok (mkResponse (Some "z") ok None None), w2) →
      ∃ updatedContext s',
        runBeforeLLM config "x" [A; B] context s
          = (Return ("z", updatedContext), s') ∧
        heap s !! updatedContext = None ∧
        heap s' = <[updatedContext := <["foo" := JsNumber 1]> ctx0]> (heap s)).
Proof.
  split; [intros; by eapply runBeforeLLM_chain|].
  intros A B context s w1 w2 ctx0 HA HB Hmax HrunA HrunB.
  destruct (new_object_spec ctx0 s) as [Hnew Hfresh].
  set (u := fresh (dom (heap s))) in *.
  exists u. eexists. split; [|split; [exact Hfresh|]].
  - unfold runBeforeLLM, read_object. unfold_monad. fold ctx0. rewrite Hnew.
    cbn [runBeforeLLM_loop]. unfold_monad.
    erewrite (callAdapter_first_success _ _ _ _ _ _ w1 HA Hmax);
      [|by unfold request_of; simpl; rewrite lookup_insert_eq; exact HrunA].
    cbn [resp_status resp_output resp_data thread_output truthy_string
         merge_data truthy String.eqb negb assign_object].
    unfold assign_object.
    erewrite (callAdapter_first_success _ _ _ _ _ _ w2 HB Hmax);
      [|by unfold request_of; simpl; rewrite !lookup_insert_eq; exact HrunB].
    cbn [resp_status resp_output resp_data thread_output truthy_string
         merge_data truthy String.eqb negb]. reflexivity.
  - simpl. rewrite lookup_insert_eq. simpl. by rewrite !insert_insert_eq.
Qed.

(** *** Abort on the first error *)

Lemma runBeforeLLM_loop_app config updatedContext pre post :
  ∀ input s,
    runBeforeLLM_loop config (pre ++ post) input updatedContext s =
      match runBeforeLLM_loop config pre input updatedContext s with
      | (Return input', s1) => runBeforeLLM_loop config post input' updatedContext s1
      | (Throw e, s1) => (Throw e, s1)
      end.
Proof.
  induction pre as [|adapterId pre IH]; intros input s; [done|].
  simpl. unfold_monad.
  destruct (callAdapter config adapterId (Some input) updatedContext s)
    as [[r|e] s1]; [|done].
  destruct (resp_status r); [|done].
  destruct (merge_data updatedContext (resp_data r) s1) as [[[]|e] s2]; [|done].
  apply IH.
Qed.

(** C5. If the adapters before [adapterId] in the list have succeeded
    and the call for [adapterId] yields an [error] result, then
    [runBeforeLLM] throws an error whose message names [adapterId] and
    the result's error message; no prompt or context is returned, and the
    state in which it throws is the state in which that call ended,
    whatever adapters follow in the list: none of them is invoked. *)
Theorem runBeforeLLM_aborts_on_first_error
    config input pre adapterId post context s input' updatedContext s1 r s2 :
  runBeforeLLM config input pre context s = (Return (input', updatedContext), s1) →
  callAdapter config adapterId (Some input') updatedContext s1 = (Return r, s2) →
  resp_status r = error →
  runBeforeLLM config input (pre ++ adapterId :: post) context s =
    (Throw (mkError ("Adapter " +:+ adapterId +:+ " failed after retries: "
                       +:+ template (resp_error r)) None), s2).
Proof.
  unfold runBeforeLLM, read_object. unfold_monad.
  destruct (new_object _ s) as [[u|e] s0]; [|done].
  rewrite runBeforeLLM_loop_app.
  destruct (runBeforeLLM_loop config pre input u s0) as [[p|e] s1'] eqn:Hpre; [|done].
  intros H Hcall Hst. inversion H; subst. clear H.
  cbn [runBeforeLLM_loop]. unfold_monad. by rewrite Hcall, Hst.
Qed.

(** *** An empty output *)

Lemma thread_output_nonempty currentInput output :
  currentInput ≠ "" → thread_output currentInput output ≠ "".
Proof.
  intros H. unfold thread_output, truthy_string.
  destruct output as [o|]; [|done].
  destruct (String.eqb_spec o ""); simpl; done.
Qed.

Lemma input_after_nonempty rs : ∀ input, input ≠ "" → input_after input rs ≠ "".
Proof.
  unfold input_after. induction rs as [|r rs IH]; intros input H; [done|].
  simpl. by apply IH, thread_output_nonempty.
Qed.

(** C10. An empty output is threaded like no output: the previous input
    is kept. So an input that is not empty stays so along the chain:
    every request that [runBeforeLLM] sends carries a non-empty input, and
    the prompt it returns is not empty. *)
Theorem empty_output_keeps_previous_input
    config input adapterIds context s prompt updatedContext s' :
  input ≠ "" →
  runBeforeLLM config input adapterIds context s
    = (Return (prompt, updatedContext), s') →
  (∀ currentInput,
      thread_output currentInput (Some "") = currentInput ∧
      thread_output currentInput None = currentInput) ∧
  prompt ≠ "" ∧
  ∃ evs, trace s' = trace s ++ evs ∧
         ∀ request, EvFetch request ∈ evs →
                    ∃ i, req_input request = Some i ∧ i ≠ "".
Proof.
  intros Hinput H. split; [done|].
  destruct (runBeforeLLM_chain _ _ _ _ _ _ _ _ H)
    as (rs & evss & Hlen & Hlen' & _ & -> & _ & _ & Htrace & Hinv).
  split; [by apply input_after_nonempty|].
  exists (concat evss). split; [done|].
  intros request Hin. apply list_elem_of_In, in_concat in Hin as (evs & Hevs & Hin).
  apply list_elem_of_In in Hevs, Hin.
  apply list_elem_of_lookup in Hevs as (i & Hevs).
  destruct (lookup_lt_is_Some_2 adapterIds i) as (adapterId & Hid).
  { rewrite <- Hlen'. by eapply lookup_lt_Some. }
  destruct (Hinv i adapterId Hid) as (r & evs' & _ & Hevs' & _ & Hreq).
  rewrite Hevs in Hevs'. inversion Hevs'; subst evs'.
  rewrite Forall_forall in Hreq. rewrite (Hreq _ Hin request eq_refl).
  eexists. split; [done|]. by apply input_after_nonempty.
Qed.

(** *** The post-processing chain *)

(** C1, as the code has it. [runAfterLLM] does not merge anything: the
    heap is left as it was, and every request it sends, for whichever
    adapter of the list, carries a null input and the properties that the
    caller's context object had at the start. *)
Theorem runAfterLLM_passes_context_unchanged config context adapterIds :
  ∀ s,
    let s' := (runAfterLLM config context adapterIds s).2 in
    heap s' = heap s ∧
    ∃ evs, trace s' = trace s ++ evs ∧
           ∀ request,
             EvFetch request ∈ evs →
             req_adapterId request ∈ adapterIds ∧
             req_input request = None ∧
             req_context request = default ∅ (heap s !! context).
Proof.
  induction adapterIds as [|adapterId rest IH]; intros s; simpl.
  - split; [done|]. exists []. split; [by rewrite app_nil_r|].
    intros ? Hin. by apply elem_of_nil in Hin.
  - unfold_monad.
    destruct (callAdapter config adapterId None context s) as [res s1] eqn:Hcall.
    destruct (callAdapter_frame _ _ _ _ _ _ _ Hcall) as (evs & Hfr & Hreq).
    assert (∀ request, EvFetch request ∈ evs →
              req_adapterId request ∈ adapterId :: rest ∧
              req_input request = None ∧
              req_context request = default ∅ (heap s !! context)) as Hevs.
    { intros request Hin. rewrite (Hreq _ Hin). simpl.
      split; [apply elem_of_cons; by left | done]. }
    destruct res as [r|e]; [destruct (resp_status r)|]; simpl.
    + destruct (IH s1) as (Hheap & evs' & Htrace & Hreq').
      split; [by rewrite Hheap, (fr_heap _ _ _ Hfr)|].
      exists (evs ++ evs'). split.
      * by rewrite Htrace, (fr_trace _ _ _ Hfr), app_assoc.
      * intros request Hin. apply elem_of_app in Hin as [Hin|Hin]; [by apply Hevs|].
        destruct (Hreq' _ Hin) as (? & ? & ?).
        rewrite (fr_heap _ _ _ Hfr) in *.
        split; [apply elem_of_cons; by right | done].
    + split; [apply Hfr|]. exists evs. split; [apply Hfr | done].
    + split; [apply Hfr|]. exists evs. split; [apply Hfr | done].
Qed.

(** ** The parallel fan-out *)

Lemma settle_pending_spec config input context n :
  ∀ schedule pending s settled s1,
    length pending = n →
    Forall (λ p, isValidAdapterId p.2 = true) pending →
    settle_pending config input context n schedule pending s = (settled, s1) →
    settled.*1 ≡ₚ pending.*1 ∧
    (∃ evs, frame s s1 evs) ∧
    Forall (λ ic, ∃ adapterId r evs,
                (ic.1, adapterId) ∈ pending ∧ ic.2 = Return r ∧
                invocation config adapterId input
                           (default ∅ (heap s !! context)) r evs) settled.
Proof.
  induction n as [|n IH]; intros schedule pending s settled s1 Hlen Hvalid H.
  - destruct pending; [|done]. simpl in H. inversion H; subst.
    split; [done|]. split; [|done]. exists []. apply frame_refl.
  - destruct pending as [|p0 pending']; [done|].
    cbn [settle_pending] in H.
    set (pending := p0 :: pending') in *.
    set (k := (hd 0%nat schedule `mod` length pending)%nat) in *.
    assert (k < length pending)%nat as Hk
      by (apply Nat.mod_upper_bound; by rewrite Hlen).
    destruct (lookup_lt_is_Some_2 pending k Hk) as ([i adapterId] & Hp).
    rewrite (nth_lookup_Some _ _ _ _ Hp) in H.
    assert (isValidAdapterId adapterId = true) as Hv.
    { rewrite Forall_forall in Hvalid.
      apply (Hvalid (i, adapterId)). apply list_elem_of_lookup. eauto. }
    destruct (callAdapter_valid_returns config adapterId input context s Hv)
      as (r & s0 & Hcall).
    rewrite Hcall in H.
    destruct (settle_pending config input context n (tl schedule)
                (delete k pending) s0) as [rest s2] eqn:Hrest.
    inversion H; subst settled s2. clear H.
    destruct (invocation_of_call _ _ _ _ _ _ _ Hcall) as (evs & Hfr & Hinv).
    apply IH in Hrest as (Hperm & (evs' & Hfr') & Hall).
    + split; [|split].
      * cbn [fmap list_fmap fst]. rewrite Hperm.
        by rewrite (delete_Permutation pending k (i, adapterId)) at 2.
      * eexists. by eapply frame_trans.
      * constructor.
        -- exists adapterId, r, evs. split; [|done].
           apply list_elem_of_lookup. eauto.
        -- eapply Forall_impl; [exact Hall|].
           intros ic (id' & r' & evs'' & Hin & Hr & Hinv').
           exists id', r', evs''. rewrite (fr_heap _ _ _ Hfr) in Hinv'.
           split; [|done].
           rewrite (delete_Permutation pending k (i, adapterId)) by done.
           apply elem_of_cons. by right.
    + rewrite length_delete by eauto. rewrite Hlen. lia.
    + eapply Forall_delete. exact Hvalid.
Qed.

Lemma settle_into_length {A} (settled : list (nat * A)) :
  ∀ arr : list (option A), length (settle_into arr settled) = length arr.
Proof.
  unfold settle_into. induction settled as [|ic settled IH]; intros arr; [done|].
  simpl. by rewrite IH, length_insert.
Qed.

Lemma settle_into_other {A} (settled : list (nat * A)) :
  ∀ (arr : list (option A)) (i : nat),
    i ∉ settled.*1 → settle_into arr settled !! i = arr !! i.
Proof.
  unfold settle_into.
  induction settled as [|[j c] settled IH]; intros arr i Hi; [done|].
  simpl in *. apply not_elem_of_cons in Hi as [Hne Hi].
  rewrite IH by done. by apply list_lookup_insert_ne.
Qed.

Lemma settle_into_lookup {A} (settled : list (nat * A)) :
  ∀ (arr : list (option A)) (i : nat) c,
    NoDup settled.*1 →
    (i, c) ∈ settled →
    (i < length arr)%nat →
    settle_into arr settled !! i = Some (Some c).
Proof.
  induction settled as [|[j d] settled IH]; intros arr i c Hnd Hin Hi.
  - by apply elem_of_nil in Hin.
  - simpl in Hnd. apply NoDup_cons in Hnd as [Hj Hnd].
    apply elem_of_cons in Hin as [Heq|Hin].
    + inversion Heq; subst j d.
      change (settle_into (<[i := Some c]> arr) settled !! i = Some (Some c)).
      rewrite settle_into_other by done.
      by apply list_lookup_insert_eq.
    + change (settle_into (<[j := Some d]> arr) settled !! i = Some (Some c)).
      apply IH; [done..|]. by rewrite length_insert.
Qed.

Lemma fulfilled_all {A} (arr : list (option (Completion A))) :
  Forall (λ x, ∃ a, x = Some (Return a)) arr →
  first_rejection arr = None ∧
  length (omap fulfilled arr) = length arr ∧
  ∀ (i : nat) a, arr !! i = Some (Some (Return a)) → omap fulfilled arr !! i = Some a.
Proof.
  induction 1 as [|x arr (a & ->) _ (IH1 & IH2 & IH3)]; [done|].
  change (omap fulfilled (Some (Return a) :: arr)) with (a :: omap fulfilled arr).
  split; [done|]. split; [by rewrite !length_cons, IH2|].
  intros [|i] b Hb; [by inversion Hb | by apply IH3].
Qed.

Lemma imap_index {A} (l : list A) :
  ∀ k : nat, imap (λ n _, (k + n)%nat) l = seq k (length l).
Proof.
  induction l as [|a l IH]; intros k; [done|].
  simpl. f_equal; [lia|]. rewrite <- IH. apply imap_ext. intros; simpl; lia.
Qed.

Lemma batchCallAdapters_spec config schedule adapterIds input context s :
  Forall (λ adapterId, isValidAdapterId adapterId = true) adapterIds →
  ∃ rs s1,
    batchCallAdapters config schedule adapterIds input context s = (Return rs, s1) ∧
    length rs = length adapterIds ∧
    (∃ evs, frame s s1 evs) ∧
    ∀ i adapterId,
      adapterIds !! i = Some adapterId →
      ∃ r evs,
        rs !! i = Some r ∧
        invocation config adapterId input (default ∅ (heap s !! context)) r evs.
Proof.
  intros Hvalid. unfold batchCallAdapters.
  set (n := length adapterIds).
  destruct (settle_pending config input context n schedule (imap pair adapterIds) s)
    as [settled s1] eqn:Hsettle.
  assert ((imap pair adapterIds).*1 = seq 0 n) as Hidx.
  { rewrite fmap_imap. unfold compose. simpl. subst n.
    apply (imap_index adapterIds 0). }
  apply settle_pending_spec in Hsettle as (Hperm & Hfr & Hall).
  2: { by rewrite length_imap. }
  2: { apply Forall_forall. intros [i id] Hin.
       apply list_elem_of_lookup in Hin as (j & Hj).
       rewrite list_lookup_imap in Hj.
       destruct (adapterIds !! j) as [id'|] eqn:Hid; [|done].
       inversion Hj; subst. rewrite Forall_forall in Hvalid.
       apply Hvalid, list_elem_of_lookup. eauto. }
  rewrite Hidx in Hperm.
  assert (NoDup settled.*1) as Hnd by (rewrite Hperm; apply NoDup_seq).
  assert (∀ i adapterId, adapterIds !! i = Some adapterId →
            ∃ r evs, fill_results n settled !! i = Some (Some (Return r)) ∧
                     invocation config adapterId input
                                (default ∅ (heap s !! context)) r evs) as Hfill.
  { intros i adapterId Hid.
    assert (i ∈ settled.*1) as Hi.
    { rewrite Hperm. apply elem_of_seq. apply lookup_lt_Some in Hid. lia. }
    apply list_elem_of_fmap in Hi as ([i' c] & -> & Hin). simpl in *.
    rewrite Forall_forall in Hall.
    destruct (Hall _ Hin) as (id' & r & evs & Hpend & Hc & Hinv). simpl in *.
    subst c. apply list_elem_of_lookup in Hpend as (j & Hj).
    rewrite list_lookup_imap in Hj.
    destruct (adapterIds !! j) as [id''|] eqn:Hid'; [|done].
    inversion Hj; subst. rewrite Hid in Hid'. inversion Hid'; subst.
    exists r, evs. split; [|done].
    apply settle_into_lookup; [done..|].
    rewrite length_replicate. by eapply lookup_lt_Some. }
  assert (length (fill_results n settled) = n) as Hlenfill.
  { unfold fill_results. by rewrite settle_into_length, length_replicate. }
  assert (Forall (λ x, ∃ a, x = Some (Return a)) (fill_results n settled)) as Hful.
  { apply Forall_lookup. intros i x Hx.
    destruct (lookup_lt_is_Some_2 adapterIds i) as (adapterId & Hid).
    { apply lookup_lt_Some in Hx. by rewrite Hlenfill in Hx. }
    destruct (Hfill i adapterId Hid) as (r & evs & Hr & _).
    rewrite Hr in Hx. inversion Hx; subst. eauto. }
  destruct (fulfilled_all _ Hful) as (Hnone & Hlen & Hlookup).
  rewrite Hnone. eexists _, s1. split; [done|].
  split; [by rewrite Hlen|]. split; [done|].
  intros i adapterId Hid. destruct (Hfill i adapterId Hid) as (r & evs & Hr & Hinv).
  exists r, evs. split; [by apply Hlookup | done].
Qed.

Lemma same_but_heap_refl s : same_but_heap s s.
Proof. by repeat split. Qed.

Lemma same_but_heap_trans s1 s2 s3 :
  same_but_heap s1 s2 → same_but_heap s2 s3 → same_but_heap s1 s3.
Proof.
  unfold same_but_heap. intros (?&?&?&?&?&?&?) (?&?&?&?&?&?&?).
  repeat split; congruence.
Qed.

Lemma runParallel_forEach_ok adapterIds updatedContext results :
  ∀ index s ctx,
    Forall (λ r, resp_status r = ok) results →
    heap s !! updatedContext = Some ctx →
    ∃ s',
      runParallel_forEach adapterIds updatedContext index results s = (Return tt, s') ∧
      heap s' = <[updatedContext := context_after ctx results]> (heap s) ∧
      same_but_heap s s'.
Proof.
  induction results as [|r results IH]; intros index s ctx Hok Hu.
  - exists s. split; [done|]. split; [|apply same_but_heap_refl].
    simpl. by rewrite insert_id.
  - apply Forall_cons in Hok as [Hr Hok]. cbn [runParallel_forEach].
    rewrite Hr. unfold_monad.
    destruct (merge_data_spec updatedContext (resp_data r) s ctx Hu)
      as (s1 & -> & Hheap1 & Hsame1).
    destruct (IH (S index) s1 (apply_data ctx (resp_data r)) Hok) as (s' & -> & Hheap & Hsame).
    { by rewrite Hheap1, lookup_insert_eq. }
    exists s'. split; [done|]. split; [|by eapply same_but_heap_trans].
    by rewrite Hheap, Hheap1, insert_insert_eq.
Qed.

Lemma runParallel_forEach_error adapterIds updatedContext pre r post :
  ∀ index s ctx,
    Forall (λ r, resp_status r = ok) pre →
    resp_status r = error →
    heap s !! updatedContext = Some ctx →
    ∃ s',
      runParallel_forEach adapterIds updatedContext index (pre ++ r :: post) s =
        (Throw (mkError ("Adapter " +:+ template (adapterIds !! (index + length pre)%nat)
                           +:+ " failed after retries: "
                           +:+ template (resp_error r)) None), s') ∧
      same_but_heap s s'.
Proof.
  induction pre as [|r0 pre IH]; intros index s ctx Hok Hr Hu.
  - exists s. simpl. rewrite Hr, Nat.add_0_r. split; [done | apply same_but_heap_refl].
  - apply Forall_cons in Hok as [Hr0 Hok]. simpl. rewrite Hr0. unfold_monad.
    destruct (merge_data_spec updatedContext (resp_data r0) s ctx Hu)
      as (s1 & -> & Hheap1 & Hsame1).
    destruct (IH (S index) s1 (apply_data ctx (resp_data r0)) Hok Hr) as (s' & -> & Hsame).
    { by rewrite Hheap1, lookup_insert_eq. }
    exists s'. replace (index + S (length pre))%nat with (S index + length pre)%nat by lia.
    split; [done | by eapply same_but_heap_trans].
Qed.

Lemma invocation_first_success config adapterId input ctx r evs r0 :
  isValidAdapterId adapterId = true →
  1 ≤ maxAttempts (merge_retry defaultRetryConfig (retry config)) →
  (∀ w, (run_adapter (mkRequest adapterId input ctx) w).1 = http_ok r0) →
  invocation config adapterId input ctx r evs →
  r = r0.
Proof.
  intros Hv Hmax Hrun ((s1 & s2 & context & Hctx & Hcall & _) & _).
  rewrite (callAdapter_first_success config adapterId input context s1 r0
             (run_adapter (request_of adapterId input context s1) (world s1)).2)
    in Hcall; [congruence | done | done |].
  unfold request_of. rewrite Hctx.
  rewrite <- (Hrun (world s1)). apply surjective_pairing.
Qed.

Lemma attempt_once_result adapterId input context s :
  (attempt_once adapterId input context s).1 =
    attempt_completion adapterId
      (run_adapter (request_of adapterId input context s) (world s)).1.
Proof.
  unfold attempt_once, read_object. unfold_monad. rewrite fetch_frame.
  unfold request_of, attempt_completion.
  destruct (run_adapter _ _).1 as [?|st ? body]; [done|].
  destruct (response_ok st); [|done]. by destruct body.
Qed.

Lemma retry_loop_stateless retryConfig adapterId input context1 context2 remaining :
  stateless →
  ∀ attempt lastError s1 s2,
    default ∅ (heap s1 !! context1) = default ∅ (heap s2 !! context2) →
    (retry_loop retryConfig adapterId input context1 remaining attempt lastError s1).1 =
    (retry_loop retryConfig adapterId input context2 remaining attempt lastError s2).1.
Proof.
  intros Hstateless.
  induction remaining as [|remaining IH]; intros attempt lastError s1 s2 Hheap; [done|].
  simpl. unfold_monad.
  pose proof (attempt_once_result adapterId input context1 s1) as H1.
  pose proof (attempt_once_result adapterId input context2 s2) as H2.
  unfold request_of in H1, H2. rewrite Hheap in H1.
  rewrite (Hstateless _ (world s1) (world s2)) in H1. rewrite <- H2 in H1.
  destruct (attempt_once adapterId input context1 s1) as [c1 s1'] eqn:Ha1.
  destruct (attempt_once adapterId input context2 s2) as [c2 s2'] eqn:Ha2.
  simpl in H1. subst c2.
  apply attempt_once_frame in Ha1, Ha2.
  destruct c1 as [r|e]; [done|].
  destruct (shouldRetry e attempt (maxAttempts retryConfig)); [|done].
  cbn [negb]. unfold sleep.
  destruct (attempt <? maxAttempts retryConfig); apply IH; simpl;
    by rewrite (fr_heap _ _ _ Ha1), (fr_heap _ _ _ Ha2).
Qed.

Lemma callAdapter_stateless config adapterId input context1 context2 s1 s2 :
  stateless →
  default ∅ (heap s1 !! context1) = default ∅ (heap s2 !! context2) →
  (callAdapter config adapterId input context1 s1).1 =
  (callAdapter config adapterId input context2 s2).1.
Proof.
  intros Hstateless Hheap. unfold callAdapter.
  destruct (isValidAdapterId adapterId); [|done]. cbn [negb]. unfold_monad.
  set (retryConfig := merge_retry _ _).
  pose proof (retry_loop_stateless retryConfig adapterId input context1 context2
                (Z.to_nat (maxAttempts retryConfig)) Hstateless 1 None s1 s2 Hheap)
    as Hloop.
  destruct (retry_loop retryConfig adapterId input context1 _ 1 None s1)
    as [[e1|e1] s1'],
           (retry_loop retryConfig adapterId input context2 _ 1 None s2)
    as [[e2|e2] s2']; simpl in Hloop; try done.
  - inversion Hloop; subst. by destruct e2.
  - by inversion Hloop.
Qed.

Lemma invocation_deterministic config adapterId input ctx r1 evs1 r2 evs2 :
  stateless →
  invocation config adapterId input ctx r1 evs1 →
  invocation config adapterId input ctx r2 evs2 →
  r1 = r2.
Proof.
  intros Hstateless ((s1 & s1' & c1 & Hc1 & Hcall1 & _) & _)
                    ((s2 & s2' & c2 & Hc2 & Hcall2 & _) & _).
  pose proof (callAdapter_stateless config adapterId input c1 c2 s1 s2 Hstateless)
    as H.
  rewrite Hcall1, Hcall2, Hc1, Hc2 in H. specialize (H eq_refl). by inversion H.
Qed.

Lemma first_error_split (rs : list AdapterResponse) :
  ¬ Forall (λ r, resp_status r = ok) rs →
  ∃ pre r post,
    rs = pre ++ r :: post ∧
    Forall (λ r, resp_status r = ok) pre ∧ resp_status r = error.
Proof.
  induction rs as [|r0 rs IH]; intros Hnot; [by destruct Hnot|].
  destruct (resp_status r0) eqn:Hst.
  - destruct IH as (pre & r & post & -> & Hpre & Hr).
    { intros Hall. apply Hnot. by constructor. }
    exists (r0 :: pre), r, post. repeat split; [by constructor | done].
  - exists [], r0, rs. by repeat split.
Qed.

(** The general part of the statement about [runParallel]. *)
Lemma runParallel_spec config schedule input adapterIds context s :
  Forall (λ adapterId, isValidAdapterId adapterId = true) adapterIds →
  let ctx0 := default ∅ (heap s !! context) in
  ∃ rs s1,
    batchCallAdapters config schedule adapterIds input context s = (Return rs, s1) ∧
    length rs = length adapterIds ∧
    (∀ i adapterId,
        adapterIds !! i = Some adapterId →
        ∃ r evs, rs !! i = Some r ∧ invocation config adapterId input ctx0 r evs) ∧
    (Forall (λ r, resp_status r = ok) rs →
     ∃ updatedContext s',
       runParallel config schedule input adapterIds context s
         = (Return updatedContext, s') ∧
       heap s !! updatedContext = None ∧
       heap s' = <[updatedContext := context_after ctx0 rs]> (heap s) ∧
       trace s' = trace s1) ∧
    (∀ pre r post,
        rs = pre ++ r :: post →
        Forall (λ r, resp_status r = ok) pre →
        resp_status r = error →
        ∃ adapterId s',
          adapterIds !! length pre = Some adapterId ∧
          runParallel config schedule input adapterIds context s =
            (Throw (mkError ("Adapter " +:+ adapterId +:+ " failed after retries: "
                               +:+ template (resp_error r)) None), s') ∧
          trace s' = trace s1).
Proof.
  intros Hvalid ctx0.
  destruct (batchCallAdapters_spec config schedule adapterIds input context s Hvalid)
    as (rs & s1 & Hbatch & Hlen & (evs & Hfr) & Hinv).
  exists rs, s1. split; [done|]. split; [done|]. split; [done|].
  assert (default ∅ (heap s1 !! context) = ctx0) as Hctx
    by (by rewrite (fr_heap _ _ _ Hfr)).
  destruct (new_object_spec ctx0 s1) as [Hnew Hfresh].
  set (u := fresh (dom (heap s1))) in *.
  set (s2 := set_heap (<[u := ctx0]> (heap s1)) s1) in *.
  assert (heap s2 !! u = Some ctx0) as Hu
    by (subst s2; simpl; by rewrite lookup_insert_eq).
  split.
  - intros Hok.
    destruct (runParallel_forEach_ok adapterIds u rs 0%nat s2 ctx0 Hok Hu)
      as (s' & Hfor & Hheap & Hsame).
    exists u, s'. split; [|split; [|split]].
    + unfold runParallel, read_object. unfold_monad.
      by rewrite Hbatch, Hctx, Hnew, Hfor.
    + by rewrite <- (fr_heap _ _ _ Hfr).
    + rewrite Hheap. subst s2. simpl.
      by rewrite insert_insert_eq, (fr_heap _ _ _ Hfr).
    + by destruct Hsame as (_ & -> & _).
  - intros pre r post -> Hok Hr.
    destruct (runParallel_forEach_error adapterIds u pre r post 0%nat s2 ctx0 Hok Hr Hu)
      as (s' & Hfor & Hsame).
    destruct (lookup_lt_is_Some_2 adapterIds (length pre)) as (adapterId & Hid).
    { rewrite <- Hlen, length_app. simpl. lia. }
    exists adapterId, s'. split; [done|]. split.
    + unfold runParallel, read_object. unfold_monad.
      rewrite Hbatch, Hctx, Hnew, Hfor. simpl. by rewrite Hid.
    + by destruct Hsame as (_ & -> & _).
Qed.

(** C6. For every schedule of the concurrent calls, [batchCallAdapters]
    delivers the adapters' results in list order, each adapter having
    been invoked with the same input and the initial context. If all
    results are [ok], [runParallel] returns a new object holding the
    initial context with the updates merged in list order, the later
    update winning per key. If some result is [error], [runParallel]
    throws, naming the first such adapter in list order, in a state in
    which all the calls have completed. Against a server whose answers
    depend on the request only, two schedules give the same outcome: the
    same resulting context, or the same error. In the example, whatever
    the schedule, the resulting context has [x: 2] and [y: 1]. *)
Theorem runParallel_merges_in_list_order config :
  (∀ schedule input adapterIds context s,
      Forall (λ adapterId, isValidAdapterId adapterId = true) adapterIds →
      let ctx0 := default ∅ (heap s !! context) in
      ∃ rs s1,
        batchCallAdapters config schedule adapterIds input context s = (Return rs, s1) ∧
        length rs = length adapterIds ∧
        (∀ i adapterId,
            adapterIds !! i = Some adapterId →
            ∃ r evs, rs !! i = Some r ∧ invocation config adapterId input ctx0 r evs) ∧
        (Forall (λ r, resp_status r = ok) rs →
         ∃ updatedContext s',
           runParallel config schedule input adapterIds context s
             = (Return updatedContext, s') ∧
           heap s !! updatedContext = None ∧
           heap s' = <[updatedContext := context_after ctx0 rs]> (heap s) ∧
           trace s' = trace s1) ∧
        (∀ pre r post,
            rs = pre ++ r :: post →
            Forall (λ r, resp_status r = ok) pre →
            resp_status r = error →
            ∃ adapterId s',
              adapterIds !! length pre = Some adapterId ∧
              runParallel config schedule input adapterIds context s =
                (Throw (mkError ("Adapter " +:+ adapterId +:+ " failed after retries: "
                                   +:+ template (resp_error r)) None), s') ∧
              trace s' = trace s1)) ∧
  (∀ schedule1 schedule2 input adapterIds context s,
      stateless →
      Forall (λ adapterId, isValidAdapterId adapterId = true) adapterIds →
      match runParallel config schedule1 input adapterIds context s,
            runParallel config schedule2 input adapterIds context s with
      | (Return u1, s1), (Return u2, s2) => heap s1 !! u1 = heap s2 !! u2
      | (Throw e1, _), (Throw e2, _) => e1 = e2
      | _, _ => False
      end) ∧
  (∀ schedule input A B context s,
      let ctx0 := default ∅ (heap s !! context) in
      isValidAdapterId A = true →
      isValidAdapterId B = true →
      1 ≤ maxAttempts (merge_retry defaultRetryConfig (retry config)) →
      (∀ w, (run_adapter (mkRequest A input ctx0) w).1 =
              http_ok (mkResponse None ok (Some (JsObject [("x", JsNumber 1)])) None)) →
      (∀ w, (run_adapter (mkRequest B input ctx0) w).1 =
              http_ok (mkResponse None ok
                         (Some (JsObject [("x", JsNumber 2); ("y", JsNumber 1)])) None)) →
      ∃ updatedContext s' ctx,
        runParallel config schedule input [A; B] context s = (Return updatedContext, s') ∧
        heap s' !! updatedContext = Some ctx ∧
        ctx !! "x" = Some (JsNumber 2) ∧ ctx !! "y" = Some (JsNumber 1) ∧
        ∀ k, k ≠ "x" → k ≠ "y" → ctx !! k = ctx0 !! k).
Proof.
  split; [intros; by apply runParallel_spec|]. split.
  { intros schedule1 schedule2 input adapterIds context s Hstateless Hvalid.
    destruct (runParallel_spec config schedule1 input adapterIds context s Hvalid)
      as (rs1 & s1 & _ & Hlen1 & Hinv1 & Hok1 & Herr1).
    destruct (runParallel_spec config schedule2 input adapterIds context s Hvalid)
      as (rs2 & s2 & _ & Hlen2 & Hinv2 & Hok2 & Herr2).
    assert (rs1 = rs2) as <-.
    { apply list_eq. intros i.
      destruct (adapterIds !! i) as [adapterId|] eqn:Hid.
      - destruct (Hinv1 i adapterId Hid) as (r1 & evs1 & -> & Hi1).
        destruct (Hinv2 i adapterId Hid) as (r2 & evs2 & -> & Hi2).
        f_equal. by eapply invocation_deterministic.
      - apply lookup_ge_None in Hid.
        rewrite !(proj2 (lookup_ge_None _ _)); [done | lia..]. }
    destruct (decide (Forall (λ r, resp_status r = ok) rs1)) as [Hall|Hnot].
    - destruct (Hok1 Hall) as (u1 & s1' & -> & _ & Hheap1 & _).
      destruct (Hok2 Hall) as (u2 & s2' & -> & _ & Hheap2 & _).
      by rewrite Hheap1, Hheap2, !lookup_insert_eq.
    - destruct (first_error_split rs1 Hnot) as (pre & r & post & Heq & Hpre & Hr).
      destruct (Herr1 pre r post Heq Hpre Hr) as (id1 & s1' & Hid1 & -> & _).
      destruct (Herr2 pre r post Heq Hpre Hr) as (id2 & s2' & Hid2 & -> & _).
      congruence. }
  intros schedule input A B context s ctx0 HA HB Hmax HrunA HrunB.
  destruct (runParallel_spec config schedule input [A; B] context s) as
    (rs & s1 & _ & Hlen & Hinv & Hok & _).
  { by repeat constructor. }
  destruct rs as [|rA [|rB [|]]]; try done.
  destruct (Hinv 0%nat A eq_refl) as (r & evs & Hr & HinvA).
  destruct (Hinv 1%nat B eq_refl) as (r' & evs' & Hr' & HinvB).
  inversion Hr; inversion Hr'; subst r r'.
  apply (invocation_first_success _ _ _ _ _ _ _ HA Hmax HrunA) in HinvA.
  apply (invocation_first_success _ _ _ _ _ _ _ HB Hmax HrunB) in HinvB.
  subst rA rB.
  destruct Hok as (u & s' & Hrun & _ & Hheap & _); [by repeat constructor|].
  exists u, s'. eexists. split; [exact Hrun|].
  split; [by rewrite Hheap, lookup_insert_eq|].
  fold ctx0. unfold context_after, apply_data, Object_assign. simpl.
  split; [by rewrite lookup_insert_ne, lookup_insert_eq|].
  split; [by rewrite lookup_insert_eq|].
  intros k Hx Hy. by rewrite !lookup_insert_ne.
Qed.

(** ** The health monitor *)

(** C7. A probe never throws: it always returns a record. The record is
    [unhealthy] with the error's message when the invocation throws,
    [unhealthy] with the result's error when the invocation returns an
    [error] result, and otherwise [degraded] when the measured latency
    exceeds 1000 and [healthy] when it does not. *)
Theorem checkAdapterHealth_never_raises config adapterId s :
  let startTime := Date_now (world s) in
  let probe := fresh (dom (heap s)) in
  let s0 := set_heap (<[probe := {[ "healthCheck" := JsBool true ]}]> (heap s)) s in
  ∃ h,
    checkAdapterHealth config adapterId s =
      (Return h, (callAdapter config adapterId None probe s0).2) ∧
    match callAdapter config adapterId None probe s0 with
    | (Throw e, s1) =>
        health_status h = unhealthy ∧
        health_message h = Some (err_message e) ∧
        health_latency h = Date_now (world s1) - startTime
    | (Return r, s1) =>
        let latency := Date_now (world s1) - startTime in
        health_latency h = latency ∧
        match resp_status r with
        | error =>
            health_status h = unhealthy ∧ health_message h = resp_error r
        | ok =>
            (1000 < latency → health_status h = degraded) ∧
            (latency ≤ 1000 → health_status h = healthy)
        end
    end.
Proof.
  intros startTime probe s0. unfold checkAdapterHealth, now, new_object.
  unfold_monad. fold startTime probe s0.
  destruct (callAdapter config adapterId None probe s0) as [[r|e] s1] eqn:Hcall.
  - destruct (resp_status r) eqn:Hst.
    + eexists. split; [done|]. cbn [health_latency health_status snd].
      split; [done|].
      destruct (Z.gtb_spec (Date_now (world s1) - startTime) 1000); split; (done || lia).
    + eexists. split; [done|]. by cbn.
  - eexists. split; [done|]. by cbn.
Qed.

Lemma checkAdapterHealth_returns config adapterId s :
  ∃ h s',
    checkAdapterHealth config adapterId s = (Return h, s') ∧
    same_timers s s' ∧ healthState s' = healthState s.
Proof.
  unfold checkAdapterHealth, now, new_object. unfold_monad.
  set (s0 := set_heap _ s).
  destruct (callAdapter config adapterId None _ s0) as [res s1] eqn:Hcall.
  destruct (callAdapter_frame _ _ _ _ _ _ _ Hcall) as (evs & Hfr & _).
  assert (same_timers s s1 ∧ healthState s1 = healthState s) as Hsame.
  { destruct Hfr. by repeat split. }
  destruct res as [r|e]; [destruct (resp_status r)|]; eauto.
Qed.

(** The overall status after probes with the given statuses, in order. *)
Lemma update_overall_worst statuses :
  ∀ overall,
    let final := foldl update_overall overall statuses in
    (final = unhealthy ↔ overall = unhealthy ∨ unhealthy ∈ statuses) ∧
    (final = healthy ↔ overall = healthy ∧ Forall (λ st, st = healthy) statuses).
Proof.
  induction statuses as [|st statuses IH]; intros overall; simpl.
  - split; [|split; [by intros ->|by intros [-> _]]].
    split; [by left|]. intros [H|H]; [done|]. by apply elem_of_nil in H.
  - destruct (IH (update_overall overall st)) as [IHu IHh].
    split.
    + rewrite IHu. split.
      * intros [H|H]; [|right; apply elem_of_cons; by right].
        destruct st, overall; simpl in H; try done;
          try (by left); right; apply elem_of_cons; by left.
      * intros [->|H]; [left; by destruct st|].
        apply elem_of_cons in H as [<-|H]; [by left | by right].
    + rewrite IHh. split.
      * intros [H Hall]. destruct st, overall; simpl in H; try done.
        split; [done|]. by constructor.
      * intros [-> Hall]. apply Forall_cons in Hall as [-> Hall]. done.
Qed.

Lemma update_overall_degraded statuses :
  foldl update_overall healthy statuses = degraded ↔
  (unhealthy ∉ statuses) ∧ degraded ∈ statuses.
Proof.
  destruct (update_overall_worst statuses healthy) as [Hu Hh]. simpl in Hu, Hh.
  split.
  - intros Hd. split.
    + intros Hin. assert (foldl update_overall healthy statuses = unhealthy) as Heq
        by (apply Hu; by right). congruence.
    + destruct (decide (degraded ∈ statuses)) as [|Hnd]; [done|].
      assert (foldl update_overall healthy statuses = healthy) as Heq; [|congruence].
      apply Hh. split; [done|]. apply Forall_forall. intros st Hin.
      destruct st; [done|by destruct Hnd|].
      assert (foldl update_overall healthy statuses = unhealthy) as Heq
        by (apply Hu; by right). congruence.
  - intros [Hnu Hd].
    assert (foldl update_overall healthy statuses ≠ healthy) as Hnh.
    { intros Hf. apply Hh in Hf as [_ Hall]. rewrite Forall_forall in Hall.
      by specialize (Hall _ Hd). }
    assert (foldl update_overall healthy statuses ≠ unhealthy) as Hnu'.
    { intros Hf. apply Hu in Hf as [|]; done. }
    by destruct (foldl update_overall healthy statuses).
Qed.

Lemma not_checked_yet_spec adapterIds :
  ∀ acc s,
    ∃ m, not_checked_yet adapterIds acc s = (Return m, s) ∧
         ∀ adapterId,
           (adapterId ∈ adapterIds → is_Some (m !! adapterId)) ∧
           (adapterId ∉ adapterIds → m !! adapterId = acc !! adapterId).
Proof.
  induction adapterIds as [|a rest IH]; intros acc s.
  - exists acc. split; [done|]. intros id. split; [|done].
    intros H. by apply elem_of_nil in H.
  - simpl. unfold now. unfold_monad.
    destruct (IH (<[a := mkHealth unhealthy 0 (Date_now (world s))
                           (Some "Not checked yet")]> acc) s) as (m & -> & Hm).
    exists m. split; [done|]. intros id. split.
    + intros Hin. destruct (decide (id ∈ rest)) as [|Hn]; [by apply Hm|].
      apply elem_of_cons in Hin as [->|]; [|done].
      destruct (Hm a) as [_ Ha]. rewrite Ha, lookup_insert_eq by done. eauto.
    + intros Hn. apply not_elem_of_cons in Hn as [Hne Hn].
      destruct (Hm id) as [_ Hid]. by rewrite Hid, lookup_insert_ne.
Qed.

Lemma checkSystemHealth_loop_spec config adapterIds :
  ∀ adapters overall s,
    NoDup adapterIds →
    ∃ hs adapters' s',
      checkSystemHealth_loop config adapterIds adapters overall s =
        (Return (adapters', foldl update_overall overall (health_status <$> hs)), s') ∧
      length hs = length adapterIds ∧
      same_timers s s' ∧
      (∀ adapterId, adapterId ∉ adapterIds →
                    adapters' !! adapterId = adapters !! adapterId ∧
                    healthState s' !! adapterId = healthState s !! adapterId) ∧
      (∀ i adapterId,
          adapterIds !! i = Some adapterId →
          ∃ h, hs !! i = Some h ∧
               adapters' !! adapterId = Some h ∧
               healthState s' !! adapterId = Some h ∧
               probed config adapterId h).
Proof.
  induction adapterIds as [|a rest IH]; intros adapters overall s Hnd.
  - exists [], adapters, s. repeat split; try done.
  - apply NoDup_cons in Hnd as [Ha Hnd]. cbn [checkSystemHealth_loop]. unfold_monad.
    destruct (checkAdapterHealth_returns config a s) as (h & s1 & Hprobe & Hsame1 & Hhs1).
    rewrite Hprobe. unfold healthState_set.
    set (s2 := set_healthState _ s1).
    destruct (IH (<[a := h]> adapters) (update_overall overall (health_status h)) s2 Hnd)
      as (hs & adapters' & s' & -> & Hlen & Hsame & Hother & Hprobed).
    exists (h :: hs), adapters', s'. split; [done|].
    split; [simpl; by rewrite Hlen|]. split; [|split].
    + destruct Hsame1 as (?&?&?), Hsame as (?&?&?). subst s2. simpl in *.
      repeat split; congruence.
    + intros id Hn. apply not_elem_of_cons in Hn as [Hne Hn].
      destruct (Hother id Hn) as [-> ->]. subst s2. simpl.
      rewrite !lookup_insert_ne by done. by rewrite Hhs1.
    + intros [|i] id Hid; simpl in Hid.
      * inversion Hid; subst id. exists h.
        destruct (Hother a Ha) as [-> ->]. subst s2. simpl.
        rewrite !lookup_insert_eq. repeat split; try done. by exists s, s1.
      * by apply Hprobed.
Qed.

(** C8. [checkSystemHealth] never throws; the snapshot has a record for
    exactly the adapters of the registry, each one produced by a probe of
    that adapter and stored as the adapter's current record; and the
    overall status is the worst of them: [unhealthy] if some record is,
    else [degraded] if some record is, else [healthy]. *)
Theorem checkSystemHealth_worst_case config s :
  ∃ snapshot s',
    checkSystemHealth config s = (Return snapshot, s') ∧
    (∀ adapterId,
        adapterId ∈ Object_keys adapterRegistry ↔
        is_Some (sys_adapters snapshot !! adapterId)) ∧
    (∀ adapterId h,
        sys_adapters snapshot !! adapterId = Some h →
        probed config adapterId h ∧ healthState s' !! adapterId = Some h) ∧
    (sys_status snapshot = unhealthy ↔
       ∃ adapterId h, sys_adapters snapshot !! adapterId = Some h ∧
                      health_status h = unhealthy) ∧
    (sys_status snapshot = degraded ↔
       (¬ ∃ adapterId h, sys_adapters snapshot !! adapterId = Some h ∧
                        health_status h = unhealthy) ∧
       ∃ adapterId h, sys_adapters snapshot !! adapterId = Some h ∧
                      health_status h = degraded) ∧
    (sys_status snapshot = healthy ↔
       ∀ adapterId h, sys_adapters snapshot !! adapterId = Some h →
                      health_status h = healthy).
Proof.
  unfold checkSystemHealth. unfold_monad.
  set (ids := Object_keys adapterRegistry).
  assert (NoDup ids) as Hnd by (vm_compute; repeat constructor;
    intros H; repeat (apply elem_of_cons in H as [H|H]; [done|]);
    by apply elem_of_nil in H).
  destruct (not_checked_yet_spec ids ∅ s) as (m0 & -> & Hm0).
  destruct (checkSystemHealth_loop_spec config ids m0 healthy s Hnd)
    as (hs & m & s1 & -> & Hlen & _ & Hother & Hprobed).
  unfold now, put_lastSystemCheck. eexists _, _. split; [done|].
  cbn [sys_adapters sys_status fst snd healthState set_lastSystemCheck].
  assert (∀ id, is_Some (m !! id) → id ∈ ids) as Hdom.
  { intros id Hsome. destruct (decide (id ∈ ids)) as [|Hn]; [done|].
    destruct (Hother id Hn) as [Heq _]. destruct (Hm0 id) as [_ Hacc].
    rewrite Heq, Hacc, lookup_empty in Hsome by done. by destruct Hsome. }
  assert (∀ st, (∃ id h, m !! id = Some h ∧ health_status h = st) ↔
                st ∈ health_status <$> hs) as Hlink.
  { intros st. split.
    - intros (id & h & Hm & Hst).
      assert (id ∈ ids) as Hin by (apply Hdom; eauto).
      apply list_elem_of_lookup in Hin as (i & Hi).
      destruct (Hprobed i id Hi) as (h' & Hh' & Hm' & _).
      rewrite Hm in Hm'. inversion Hm'; subst h'.
      apply list_elem_of_fmap. exists h. split; [done|].
      apply list_elem_of_lookup. eauto.
    - intros Hin. apply list_elem_of_fmap in Hin as (h & -> & Hin).
      apply list_elem_of_lookup in Hin as (i & Hi).
      destruct (lookup_lt_is_Some_2 ids i) as (id & Hid).
      { rewrite <- Hlen. by eapply lookup_lt_Some. }
      destruct (Hprobed i id Hid) as (h' & Hh' & Hm' & _).
      rewrite Hi in Hh'. inversion Hh'; subst h'. eauto. }
  split; [|split; [|split; [|split]]].
  - intros id. split; [|apply Hdom].
    intros Hin. apply list_elem_of_lookup in Hin as (i & Hi).
    destruct (Hprobed i id Hi) as (h & _ & Hm & _). eauto.
  - intros id h Hm.
    assert (id ∈ ids) as Hin by (apply Hdom; eauto).
    apply list_elem_of_lookup in Hin as (i & Hi).
    destruct (Hprobed i id Hi) as (h' & _ & Hm' & Hhs & Hp).
    rewrite Hm in Hm'. inversion Hm'; subst h'. done.
  - rewrite Hlink.
    destruct (update_overall_worst (health_status <$> hs) healthy) as [Hu _].
    simpl in Hu. rewrite Hu. split; [by intros [|] | by right].
  - rewrite !Hlink. apply update_overall_degraded.
  - destruct (update_overall_worst (health_status <$> hs) healthy) as [_ Hh].
    simpl in Hh. rewrite Hh. split.
    + intros [_ Hall] id h Hm. rewrite Forall_forall in Hall.
      apply Hall. apply Hlink. eauto.
    + intros Hall. split; [done|]. apply Forall_forall. intros st Hin.
      apply Hlink in Hin as (id & h & Hm & <-). by eapply Hall.
Qed.

(** *** The monitoring timer *)

Lemma same_timers_trans s1 s2 s3 :
  same_timers s1 s2 → same_timers s2 s3 → same_timers s1 s3.
Proof. intros (?&?&?) (?&?&?). repeat split; congruence. Qed.

Lemma checkSystemHealth_caught_spec config s :
  ∃ s', checkSystemHealth_caught config s = (Return tt, s') ∧ same_timers s s'.
Proof.
  unfold checkSystemHealth_caught, checkSystemHealth. unfold_monad.
  destruct (not_checked_yet_spec (Object_keys adapterRegistry) ∅ s) as (m0 & -> & _).
  destruct (checkSystemHealth_loop_spec config (Object_keys adapterRegistry)
              m0 healthy s) as (hs & m & s1 & -> & _ & Hsame & _).
  { vm_compute; repeat constructor;
      intros H; repeat (apply elem_of_cons in H as [H|H]; [done|]);
      by apply elem_of_nil in H. }
  unfold now, put_lastSystemCheck. eexists. split; [done|].
  destruct Hsame as (?&?&?). by repeat split.
Qed.

Lemma startMonitoring_spec config interval s :
  ∃ s',
    startMonitoring config interval s = (Return tt, s') ∧
    checkInterval s' = Some (next_timer s) ∧
    next_timer s' = S (next_timer s) ∧
    timers s' =
      <[next_timer s := interval]>
        match checkInterval s with
        | Some t => delete t (timers s)
        | None => timers s
        end.
Proof.
  unfold startMonitoring, get_checkInterval. unfold_monad.
  destruct (checkInterval s) as [t|] eqn:Hc.
  - unfold clearInterval at 1. set (s0 := set_timers _ _ s).
    destruct (checkSystemHealth_caught_spec config s0) as (s1 & -> & (Ht & Hn & _)).
    unfold setInterval, put_checkInterval. eexists. split; [done|].
    simpl. rewrite Ht, Hn. by subst s0.
  - destruct (checkSystemHealth_caught_spec config s) as (s1 & -> & (Ht & Hn & _)).
    unfold setInterval, put_checkInterval. eexists. split; [done|].
    simpl. by rewrite Ht, Hn.
Qed.

Lemma stopMonitoring_spec s :
  ∃ s',
    stopMonitoring s = (Return tt, s') ∧
    checkInterval s' = None ∧
    timers s' = match checkInterval s with
                | Some t => delete t (timers s)
                | None => timers s
                end.
Proof.
  unfold stopMonitoring, get_checkInterval. unfold_monad.
  destruct (checkInterval s) as [t|] eqn:Hc.
  - eexists. split; [done|]. by split.
  - exists s. by split.
Qed.

Lemma monitor_inv_size s : monitor_inv s → (size (timers s) ≤ 1)%nat.
Proof.
  unfold monitor_inv. intros Hinv. rewrite <- size_dom, Hinv.
  destruct (checkInterval s); [by rewrite size_singleton | by rewrite size_empty; lia].
Qed.

Lemma monitor_step_inv config op s :
  monitor_inv s →
  ∃ s', monitor_step config op s = (Return tt, s') ∧ monitor_inv s'.
Proof.
  unfold monitor_inv. intros Hinv. destruct op as [interval| |t]; simpl.
  - destruct (startMonitoring_spec config interval s) as (s' & -> & Hc & _ & Ht).
    exists s'. split; [done|]. rewrite Hc, Ht, dom_insert_L.
    destruct (checkInterval s); [rewrite dom_delete_L|]; set_solver.
  - destruct (stopMonitoring_spec s) as (s' & -> & Hc & Ht).
    exists s'. split; [done|]. rewrite Hc, Ht.
    destruct (checkInterval s); [rewrite dom_delete_L|]; set_solver.
  - unfold scheduled. unfold_monad. destruct (bool_decide _).
    + destruct (checkSystemHealth_caught_spec config s) as (s' & -> & (Ht & _ & Hc)).
      exists s'. split; [done|]. by rewrite Ht, Hc.
    + by exists s.
Qed.

(** C9. Whatever is done to the monitor, starting it, stopping it, or
    letting its interval fire, in any order, at most one interval is
    scheduled, the one [checkInterval] holds. Two calls of
    [startMonitoring] in a row leave exactly one, the second call's: the
    first call's interval has been cancelled. [stopMonitoring] without a
    running monitor returns normally and changes nothing. *)
Theorem monitor_has_at_most_one_timer config :
  (∀ ops s,
      monitor_inv s →
      monitor_inv (run_ops config ops s) ∧
      (size (timers (run_ops config ops s)) ≤ 1)%nat) ∧
  (∀ interval1 interval2 s,
      monitor_inv s →
      ∃ s1 s2,
        startMonitoring config interval1 s = (Return tt, s1) ∧
        startMonitoring config interval2 s1 = (Return tt, s2) ∧
        timers s1 = {[next_timer s := interval1]} ∧
        timers s2 = {[next_timer s1 := interval2]} ∧
        timers s2 !! next_timer s = None ∧
        size (timers s2) = 1%nat) ∧
  (∀ s, checkInterval s = None → stopMonitoring s = (Return tt, s)).
Proof.
  split; [|split].
  - intros ops. induction ops as [|op ops IH] using rev_ind; intros s Hinv.
    + split; [done | by apply monitor_inv_size].
    + unfold run_ops. rewrite foldl_app. simpl. fold (run_ops config ops s).
      destruct (IH s Hinv) as [Hinv' _].
      destruct (monitor_step_inv config op _ Hinv') as (s' & -> & Hinv'').
      split; [done | by apply monitor_inv_size].
  - intros interval1 interval2 s Hinv. unfold monitor_inv in Hinv.
    destruct (startMonitoring_spec config interval1 s) as (s1 & H1 & Hc1 & Hn1 & Ht1).
    destruct (startMonitoring_spec config interval2 s1) as (s2 & H2 & Hc2 & Hn2 & Ht2).
    assert (timers s1 = {[next_timer s := interval1]}) as Ht1'.
    { assert (match checkInterval s with
              | Some t => delete t (timers s)
              | None => timers s
              end = ∅) as Hempty.
      { apply (dom_empty_inv_L (D := gset nat)).
        destruct (checkInterval s); [rewrite dom_delete_L|]; set_solver. }
      rewrite Ht1, Hempty. apply insert_empty. }
    assert (timers s2 = {[next_timer s1 := interval2]}) as Ht2'.
    { rewrite Ht2, Hc1, Ht1', delete_singleton_eq. apply insert_empty. }
    exists s1, s2. repeat split; try done.
    + rewrite Ht2', Hn1. apply lookup_singleton_ne. lia.
    + rewrite Ht2'. apply map_size_singleton.
  - intros s Hc. unfold stopMonitoring, get_checkInterval. unfold_monad.
    by rewrite Hc.
Qed.

End Properties.

(** * The properties at work *)

Example flaky_three_attempts :
  let run := @callAdapter (scripted flaky_server) default_config
               "risk-analyzer" None 0%nat (scenario_state flaky_server) in
  let request := mkRequest "risk-analyzer" None scenario_context in
  run.1 = Return (ok_response (Some "done") None) ∧
  trace run.2 =
    [EvFetch request; EvSleep 1000; EvFetch request; EvSleep 2000; EvFetch request].
Proof. vm_compute. done. Qed.

(** The retry schedule against a server that answers 404: the policy has
    three attempts, the call makes one. *)
Lemma retry_attempts_and_delays_witness :
  let s := scenario_state rejecting_server in
  let request := mkRequest "risk-analyzer" None scenario_context in
  let s' := (@callAdapter (scripted rejecting_server) default_config
               "risk-analyzer" None 0%nat s).2 in
  1 ≤ maxAttempts (merge_retry defaultRetryConfig (retry default_config)) ∧
  (∃ n : nat,
      Z.of_nat n ≤ 3 ∧
      trace s' = trace s ++ attempts_schedule defaultRetryConfig request n) ∧
  trace s' = trace s ++ [EvFetch request].
Proof.
  intros s request s'.
  assert (1 ≤ maxAttempts (merge_retry defaultRetryConfig (retry default_config)))
    as Hmax by (vm_compute; discriminate).
  split; [exact Hmax|].
  destruct (@retry_attempts_and_delays (scripted rejecting_server) default_config
              "risk-analyzer" None 0%nat s Hmax) as [(n & Hn & Htrace & _) H4xx].
  split.
  - exists n. split; [exact Hn | exact Htrace].
  - apply (H4xx eq_refl 404 "Not Found" (JsonSyntaxError "") (5, 1%nat)).
    + reflexivity.
    + lia.
Defined.

(** The sequential chain against [chain_server]: the example, and the
    general statement at the run the example describes. *)
Lemma runBeforeLLM_threads_output_and_context_witness :
  let s := scenario_state chain_server in
  ∃ updatedContext s',
    @runBeforeLLM (scripted chain_server) default_config "x"
                  ["pdf-text-extractor"; "persona-legal"] 0%nat s
      = (Return ("z", updatedContext), s') ∧
    heap s !! updatedContext = None ∧
    heap s' = <[updatedContext := <["foo" := JsNumber 1]> scenario_context]> (heap s) ∧
    ∃ rs, length rs = 2%nat ∧
          "z" = input_after "x" rs ∧
          heap s' = <[updatedContext := context_after scenario_context rs]> (heap s).
Proof.
  intros s.
  destruct (proj2 (@runBeforeLLM_threads_output_and_context (scripted chain_server)
                     default_config)
              "pdf-text-extractor" "persona-legal" 0%nat s (5, 1%nat) (10, 2%nat)
              eq_refl eq_refl ltac:(vm_compute; discriminate) eq_refl eq_refl)
    as (updatedContext & s' & Hrun & Hfresh & Hheap).
  exists updatedContext, s'. split; [exact Hrun|]. split; [exact Hfresh|].
  split; [exact Hheap|].
  destruct (proj1 (@runBeforeLLM_threads_output_and_context (scripted chain_server)
                     default_config) _ _ _ _ _ _ _ Hrun)
    as (rs & evss & Hlen & _ & _ & Hprompt & _ & Hheap' & _).
  exists rs. split; [exact Hlen|]. split; [exact Hprompt | exact Hheap'].
Defined.

(** C4 as it is worded fails when an output is present and empty: the
    extractor answers with the output [""], and the request that the
    next adapter receives carries the input ["x"], not [""]; the prompt
    returned is ["x"] as well. *)
Lemma empty_output_is_not_threaded :
  let run := @runBeforeLLM (scripted silent_server) default_config "x"
               ["pdf-text-extractor"; "persona-legal"] 0%nat
               (scenario_state silent_server) in
  (silent_server 0%nat (mkRequest "pdf-text-extractor" (Some "x") scenario_context)).1
    = http_ok (ok_response (Some "") None) ∧
  trace run.2 =
    [EvFetch (mkRequest "pdf-text-extractor" (Some "x") scenario_context);
     EvFetch (mkRequest "persona-legal" (Some "x") scenario_context)] ∧
  (∃ updatedContext, run.1 = Return ("x", updatedContext)) ∧
  Some "x" ≠ Some "".
Proof.
  vm_compute. split; [done|]. split; [done|]. split; [by eexists | discriminate].
Qed.

(** C1 as it is worded fails: the Slack adapter answers with the update
    [{notified: true}], and the request that the logger receives next
    carries the caller's context without it. *)
Lemma runAfterLLM_update_not_visible :
  let run := @runAfterLLM (scripted notifying_server) default_config 0%nat
               ["slack-sender"; "db-logger"] (scenario_state notifying_server) in
  (notifying_server 0%nat (mkRequest "slack-sender" None scenario_context)).1
    = http_ok (ok_response None (Some (JsObject [("notified", JsBool true)]))) ∧
  run.1 = Return tt ∧
  trace run.2 =
    [EvFetch (mkRequest "slack-sender" None scenario_context);
     EvFetch (mkRequest "db-logger" None scenario_context)] ∧
  scenario_context !! "notified" = None ∧
  Object_assign scenario_context (JsObject [("notified", JsBool true)]) !! "notified"
    = Some (JsBool true).
Proof. vm_compute. done. Qed.

(** The abort against [failing_server]: the extractor succeeds, the
    persona adapter reports ["boom"], the vector search is never asked. *)
Lemma runBeforeLLM_aborts_on_first_error_witness :
  let s := scenario_state failing_server in
  let run := @runBeforeLLM (scripted failing_server) default_config "x"
               ["pdf-text-extractor"; "persona-legal"; "vector-search-legal"] 0%nat s in
  run.1 = Throw (mkError "Adapter persona-legal failed after retries: boom" None) ∧
  trace run.2 =
    [EvFetch (mkRequest "pdf-text-extractor" (Some "x") scenario_context);
     EvFetch (mkRequest "persona-legal" (Some "y") scenario_context)].
Proof.
  intros s run.
  pose (s1 := (@runBeforeLLM (scripted failing_server) default_config "x"
                 ["pdf-text-extractor"] 0%nat s).2).
  pose (s2 := (@callAdapter (scripted failing_server) default_config
                 "persona-legal" (Some "y") 1%nat s1).2).
  pose proof (@runBeforeLLM_aborts_on_first_error (scripted failing_server)
                default_config "x" ["pdf-text-extractor"] "persona-legal"
                ["vector-search-legal"] 0%nat s "y" 1%nat s1
                (mkResponse None error None (Some "boom")) s2
                ltac:(vm_compute; reflexivity) ltac:(vm_compute; reflexivity)
                eq_refl) as H.
  subst run. cbn [app] in H. rewrite H. split; [reflexivity|].
  vm_compute. reflexivity.
Defined.

(** The fan-out against [updating_server], the logger's call settling
    before the analyzer's. *)
Lemma runParallel_merges_in_list_order_witness :
  let s := scenario_state updating_server in
  ∃ updatedContext s' ctx,
    @runParallel (scripted updating_server) default_config [1%nat; 0%nat] (Some "x")
                 ["risk-analyzer"; "db-logger"] 0%nat s = (Return updatedContext, s') ∧
    heap s' !! updatedContext = Some ctx ∧
    ctx !! "x" = Some (JsNumber 2) ∧ ctx !! "y" = Some (JsNumber 1) ∧
    (∃ rs, length rs = 2%nat ∧
           heap s' = <[updatedContext := context_after scenario_context rs]> (heap s)) ∧
    match @runParallel (scripted updating_server) default_config [0%nat; 0%nat]
                       (Some "x") ["risk-analyzer"; "db-logger"] 0%nat s with
    | (Return u2, s2) => heap s' !! updatedContext = heap s2 !! u2
    | (Throw _, _) => False
    end.
Proof.
  intros s.
  assert (@stateless (scripted updating_server)) as Hstateless
    by (intros request w1 w2; reflexivity).
  pose proof (proj1 (proj2 (@runParallel_merges_in_list_order
                              (scripted updating_server) default_config))
                [1%nat; 0%nat] [0%nat; 0%nat] (Some "x")
                ["risk-analyzer"; "db-logger"] 0%nat s Hstateless
                ltac:(repeat constructor)) as Hdet.
  destruct (proj2 (proj2 (@runParallel_merges_in_list_order (scripted updating_server)
                            default_config))
              [1%nat; 0%nat] (Some "x") "risk-analyzer" "db-logger" 0%nat s
              eq_refl eq_refl ltac:(vm_compute; discriminate)
              (λ w, eq_refl) (λ w, eq_refl))
    as (updatedContext & s' & ctx & Hrun & Hctx & Hx & Hy & _).
  exists updatedContext, s', ctx.
  split; [exact Hrun|]. split; [exact Hctx|]. split; [exact Hx|]. split; [exact Hy|].
  split; [|by rewrite Hrun in Hdet].
  destruct (proj1 (@runParallel_merges_in_list_order (scripted updating_server)
                     default_config)
              [1%nat; 0%nat] (Some "x") ["risk-analyzer"; "db-logger"] 0%nat s
              ltac:(repeat constructor))
    as (rs & s1 & _ & Hlen & _ & Hok & Herr).
  exists rs. split; [exact Hlen|].
  destruct (decide (Forall (λ r, resp_status r = ok) rs)) as [Hall|Hnot].
  - destruct (Hok Hall) as (u & s'' & Hrun' & _ & Hheap & _).
    rewrite Hrun in Hrun'. inversion Hrun'; subst u s''. exact Hheap.
  - exfalso.
    destruct (first_error_split rs Hnot) as (pre & r' & post & Heq & Hpre & Hr').
    destruct (Herr pre r' post Heq Hpre Hr') as (id & s'' & _ & Hthrow & _).
    rewrite Hrun in Hthrow. discriminate.
Defined.

(** The monitor from a state with nothing scheduled. *)
Lemma monitor_has_at_most_one_timer_witness :
  let s := scenario_state slow_server in
  monitor_inv s ∧
  (size (timers (run_ops (Env := scripted slow_server) default_config
                         [OpStart 60000; OpStart 1000; OpTick 1%nat; OpStop;
                          OpStop; OpStart 500] s))
     ≤ 1)%nat ∧
  (∃ s1 s2,
      @startMonitoring (scripted slow_server) default_config 60000 s = (Return tt, s1) ∧
      @startMonitoring (scripted slow_server) default_config 1000 s1 = (Return tt, s2) ∧
      timers s2 = {[1%nat := 1000]}) ∧
  @stopMonitoring (scripted slow_server) s = (Return tt, s).
Proof.
  intros s.
  assert (monitor_inv s) as Hinv by reflexivity.
  destruct (@monitor_has_at_most_one_timer (scripted slow_server) default_config)
    as (Hops & Htwice & Hstop).
  split; [exact Hinv|]. split; [|split].
  - apply Hops. exact Hinv.
  - destruct (Htwice 60000 1000 s Hinv) as (s1 & s2 & H1 & H2 & Ht1 & Ht2 & _).
    exists s1, s2. split; [exact H1|]. split; [exact H2|].
    rewrite Ht2. f_equal.
    assert (next_timer s1 = S (next_timer s)) as ->; [|reflexivity].
    destruct (@startMonitoring_spec (scripted slow_server) default_config 60000 s)
      as (s1' & H1' & _ & Hn & _).
    rewrite H1 in H1'. by inversion H1'.
  - apply Hstop. reflexivity.
Defined.

(** An empty output in the chain of [silent_server]. *)
Lemma empty_output_keeps_previous_input_witness :
  let s := scenario_state silent_server in
  let run := @runBeforeLLM (scripted silent_server) default_config "x"
               ["pdf-text-extractor"; "persona-legal"] 0%nat s in
  "x" ≠ "" ∧
  run.1 = Return ("x", 1%nat) ∧
  ∃ evs, trace run.2 = trace s ++ evs ∧
         ∀ request, EvFetch request ∈ evs →
                    ∃ i, req_input request = Some i ∧ i ≠ "".
Proof.
  intros s run.
  assert ("x" ≠ "") as Hx by discriminate.
  assert (run = (Return ("x", 1%nat), run.2)) as Hrun by (vm_compute; reflexivity).
  split; [exact Hx|]. split; [by rewrite Hrun|].
  destruct (@empty_output_keeps_previous_input (scripted silent_server)
              default_config "x" ["pdf-text-extractor"; "persona-legal"] 0%nat s
              "x" 1%nat run.2 Hx Hrun) as (_ & _ & Hevs).
  exact Hevs.
Defined.

(** One slow probe, no failing one: the system is [degraded]. *)
Example slow_probe_degrades :
  let run := @checkSystemHealth (scripted slow_server) default_config
               (scenario_state slow_server) in
  sys_status <$> (match run.1 with Return snapshot => Some snapshot | Throw _ => None end)
    = Some degraded ∧
  health_status <$> healthState run.2 !! "risk-analyzer" = Some degraded ∧
  health_status <$> healthState run.2 !! "db-logger" = Some healthy.
Proof. vm_compute. done. Qed.

(** A probe of an identifier that is not valid is [unhealthy], with the
    validation message. *)
Example invalid_probe_unhealthy :
  (@checkAdapterHealth (scripted slow_server) default_config "wallet-tracker"
     (scenario_state slow_server)).1
  = Return (mkHealth unhealthy 0 0 (Some "Invalid adapter ID: wallet-tracker")).
Proof. vm_compute. done. Qed.

(** What [isValidAdapterId] accepts and rejects. *)
Example isValidAdapterId_examples :
  isValidAdapterId "risk-analyzer" = true ∧
  isValidAdapterId "wallet-tracker" = false ∧
  isValidAdapterId "toString" = true ∧
  isValidAdapterId "constructor" = true.
Proof. vm_compute. done. Qed.

(** [Object.assign] from an object, an array, a string, a number. *)
Example Object_assign_examples :
  let ctx : AdapterContext := {[ "a" := JsNumber 1 ]} in
  Object_assign ctx (JsObject [("a", JsNumber 2); ("b", JsNull)])
    = <["b" := JsNull]> (<["a" := JsNumber 2]> ctx) ∧
  Object_assign ctx (JsArray [JsBool true; JsNull])
    = <["1" := JsNull]> (<["0" := JsBool true]> ctx) ∧
  Object_assign ctx (JsString "hi")
    = <["1" := JsString "i"]> (<["0" := JsString "h"]> ctx) ∧
  Object_assign ctx (JsNumber 7) = ctx.
Proof. vm_compute. done. Qed.

(** The invalid identifier is rejected before anything happens. *)
Example invalid_identifier_throws :
  @callAdapter (scripted chain_server) default_config "wallet-tracker" None 0%nat
               (scenario_state chain_server)
  = (Throw (mkError "Invalid adapter ID: wallet-tracker" None),
     scenario_state chain_server).
Proof. reflexivity. Qed.

(** An inherited key passes the validation and reaches the network. *)
Example inherited_key_reaches_network :
  let run := @callAdapter (scripted chain_server) default_config "toString" None 0%nat
               (scenario_state chain_server) in
  run.1 = Return (ok_response (Some "z") None) ∧
  trace run.2 = [EvFetch (mkRequest "toString" None scenario_context)].
Proof. vm_compute. done. Qed.

(** * Further properties of the client *)

Section ClientProperties.

Context `{Env : Environment}.

(** X1. [callAdapter] throws exactly when [isValidAdapterId] rejects the
    identifier; the error is then the validation error and the state is
    the one it was called in: nothing was sent, nothing waited for. *)
Theorem callAdapter_throws_only_on_validation config adapterId input context s :
  match callAdapter config adapterId input context s with
  | (Throw e, s') =>
      isValidAdapterId adapterId = false ∧
      e = mkError ("Invalid adapter ID: " +:+ adapterId) None ∧
      s' = s
  | (Return _, _) => isValidAdapterId adapterId = true
  end.
Proof.
  destruct (isValidAdapterId adapterId) eqn:Hv.
  - destruct (callAdapter_valid_returns config adapterId input context s Hv)
      as (r & s' & ->). done.
  - by rewrite callAdapter_invalid.
Qed.

(** X2. [callAdapter] touches nothing but the network and the clock: the
    context objects, the health records and the timers are as they were,
    and every request it sends is the same request, made of its three
    arguments as they were at the call. *)
Theorem callAdapter_touches_only_network config adapterId input context s :
  let s' := (callAdapter config adapterId input context s).2 in
  heap s' = heap s ∧
  healthState s' = healthState s ∧
  lastSystemCheck s' = lastSystemCheck s ∧
  same_timers s s' ∧
  ∃ evs, trace s' = trace s ++ evs ∧
         ∀ request, EvFetch request ∈ evs →
                    request = mkRequest adapterId input (default ∅ (heap s !! context)).
Proof.
  intros s'. subst s'.
  destruct (callAdapter config adapterId input context s) as [res s'] eqn:Hcall.
  destruct (callAdapter_frame _ _ _ _ _ _ _ Hcall) as (evs & Hfr & Hreq).
  destruct Hfr. repeat split; try done. by exists evs.
Qed.

(** X3. With a policy of no attempts ([maxAttempts <= 0]) a valid call
    sends nothing and returns the [error] result with the message
    ["Unknown error occurred"]. *)
Theorem callAdapter_without_attempts config adapterId input context s :
  isValidAdapterId adapterId = true →
  maxAttempts (merge_retry defaultRetryConfig (retry config)) ≤ 0 →
  callAdapter config adapterId input context s =
    (Return (mkResponse None error None (Some "Unknown error occurred")), s).
Proof.
  intros Hv Hmax. unfold callAdapter. rewrite Hv. cbn [negb].
  replace (Z.to_nat _) with O by lia. done.
Qed.




Lemma retry_loop_provenance retryConfig adapterId input context remaining :
  ∀ attempt lastError s exit s',
    retry_loop retryConfig adapterId input context remaining attempt lastError s
      = (Return exit, s') →
    Z.of_nat remaining = maxAttempts retryConfig + 1 - attempt →
    remaining ≠ O →
    ∃ w,
      match exit with
      | Returned r =>
          attempt_completion adapterId
            (run_adapter (request_of adapterId input context s) w).1 = Return r
      | Exhausted lastError' =>
          ∃ e, lastError' = Some e ∧
               attempt_completion adapterId
                 (run_adapter (request_of adapterId input context s) w).1 = Throw e
      end.
Proof.
  induction remaining as [|remaining IH];
    intros attempt lastError s exit s' H Hinv Hrem; [done|].
  simpl in H. unfold_monad.
  pose proof (attempt_once_result adapterId input context s) as Hres.
  destruct (attempt_once adapterId input context s) as [[r|e] s1] eqn:Hatt;
    simpl in Hres.
  - inversion H; subst. by exists (world s).
  - pose proof (attempt_once_frame _ _ _ _ _ _ Hatt) as Hfr.
    destruct (shouldRetry e attempt (maxAttempts retryConfig)) eqn:Hsr; simpl in H.
    + apply shouldRetry_lt in Hsr.
      destruct (attempt <? maxAttempts retryConfig); simpl in H;
        apply IH in H; try lia;
        destruct H as (w & H); exists w;
        unfold request_of in *; simpl in H; by rewrite (fr_heap _ _ _ Hfr) in H.
    + inversion H; subst. exists (world s). eauto.
Qed.

(** X5. The value of a valid call with [maxAttempts >= 1] is never made
    up: it is the body of a 2xx answer that the server gave to this very
    request, or the [error] result carrying the message with which an
    attempt of this very request failed. *)
Theorem callAdapter_value_provenance config adapterId input context s :
  let request := request_of adapterId input context s in
  isValidAdapterId adapterId = true →
  1 ≤ maxAttempts (merge_retry defaultRetryConfig (retry config)) →
  ∃ r s' w,
    callAdapter config adapterId input context s = (Return r, s') ∧
    (attempt_completion adapterId (run_adapter request w).1 = Return r ∨
     ∃ e, attempt_completion adapterId (run_adapter request w).1 = Throw e ∧
          r = mkResponse None error None (Some (err_message e))).
Proof.
  intros request Hv Hmax.
  destruct (callAdapter_valid config adapterId input context s Hv)
    as (n & exit & s' & Hloop & Hcall & _).
  apply retry_loop_provenance in Hloop as (w & Hw); [|lia..].
  exists (match exit with
          | Returned r => r
          | Exhausted lastError => errorResponse lastError
          end), s', w.
  split; [done|]. destruct exit as [r|lastError]; [by left|].
  destruct Hw as (e & -> & He). right. by exists e.
Qed.

(** *** The waits *)

Lemma total_wait_app evs1 evs2 :
  total_wait (evs1 ++ evs2) = total_wait evs1 + total_wait evs2.
Proof.
  induction evs1 as [|[request|ms] evs1 IH]; simpl; [done | done | lia].
Qed.

Lemma delay_before_le_max retryConfig k :
  delay_before retryConfig k ≤ maxDelay retryConfig.
Proof. unfold delay_before. lia. Qed.

Lemma total_wait_later_attempts retryConfig request (n : nat) :
  ∀ a : nat,
    0 ≤ maxDelay retryConfig →
    total_wait (flat_map (attempt_events retryConfig request) (seq a n))
      ≤ Z.of_nat n * maxDelay retryConfig.
Proof.
  induction n as [|n IH]; intros a Hmax; [simpl; lia|].
  cbn [seq flat_map]. rewrite total_wait_app.
  specialize (IH (S a) Hmax).
  assert (total_wait (attempt_events retryConfig request a) ≤ maxDelay retryConfig).
  { unfold attempt_events. destruct (2 <=? a)%nat; simpl; [|lia].
    pose proof (delay_before_le_max retryConfig (Z.of_nat a)). lia. }
  nia.
Qed.

Lemma total_wait_schedule retryConfig request (n : nat) :
  0 ≤ maxDelay retryConfig →
  total_wait (attempts_schedule retryConfig request n)
    ≤ (Z.of_nat n - 1) * maxDelay retryConfig ∨ n = O.
Proof.
  intros Hmax. destruct n as [|n]; [by right|]. left.
  unfold attempts_schedule. cbn [seq flat_map]. rewrite total_wait_app.
  pose proof (total_wait_later_attempts retryConfig request n 2 Hmax).
  unfold attempt_events at 1. simpl (2 <=? 1)%nat. cbn [app total_wait foldr]. lia.
Qed.

Lemma callAdapter_schedule config adapterId input context s :
  let retryConfig := merge_retry defaultRetryConfig (retry config) in
  1 ≤ maxAttempts retryConfig →
  ∃ n : nat,
    Z.of_nat n ≤ maxAttempts retryConfig ∧
    trace (callAdapter config adapterId input context s).2 =
      trace s ++ attempts_schedule retryConfig
                   (request_of adapterId input context s) n.
Proof.
  intros retryConfig Hmax. destruct (isValidAdapterId adapterId) eqn:Hv.
  - destruct (callAdapter_valid config adapterId input context s Hv)
      as (n & exit & s1 & _ & Hcall & Hn & _ & Hfr).
    exists n. rewrite Hcall. cbn [snd]. fold retryConfig in Hn, Hfr.
    rewrite loop_trace_attempts in Hfr. split; [lia | apply Hfr].
  - exists O. rewrite callAdapter_invalid by done. cbn [snd].
    split; [lia | by rewrite app_nil_r].
Qed.

(** X6. With [maxAttempts >= 1] and [maxDelay >= 0], the time that one
    call of [callAdapter] spends waiting between its attempts is at most
    [(maxAttempts - 1) * maxDelay], whatever the base delay and the
    multiplier. *)
Theorem callAdapter_total_wait_bounded config adapterId input context s :
  let retryConfig := merge_retry defaultRetryConfig (retry config) in
  1 ≤ maxAttempts retryConfig →
  0 ≤ maxDelay retryConfig →
  ∃ evs,
    trace (callAdapter config adapterId input context s).2 = trace s ++ evs ∧
    total_wait evs ≤ (maxAttempts retryConfig - 1) * maxDelay retryConfig.
Proof.
  intros retryConfig Hmax Hdelay.
  destruct (callAdapter_schedule config adapterId input context s Hmax)
    as (n & Hn & Htrace).
  eexists. split; [exact Htrace|]. fold retryConfig in Hn |- *.
  destruct (total_wait_schedule retryConfig
              (request_of adapterId input context s) n Hdelay) as [H| ->].
  - etrans; [exact H|]. apply Z.mul_le_mono_nonneg_r; lia.
  - change (total_wait (attempts_schedule retryConfig
                          (request_of adapterId input context s) 0)) with 0.
    apply Z.mul_nonneg_nonneg; lia.
Qed.

(** X7. With [baseDelay >= 0] and [backoffMultiplier >= 1], the delay of
    [getRetryDelay] never decreases from one attempt to a later one and
    never exceeds [maxDelay]; once it has reached [maxDelay] it stays
    there. *)
Theorem getRetryDelay_monotone_and_capped retryConfig (a b : Z) :
  0 ≤ baseDelay retryConfig →
  1 ≤ backoffMultiplier retryConfig →
  1 ≤ a ≤ b →
  getRetryDelay a retryConfig ≤ getRetryDelay b retryConfig ∧
  getRetryDelay b retryConfig ≤ maxDelay retryConfig ∧
  (getRetryDelay a retryConfig = maxDelay retryConfig →
   getRetryDelay b retryConfig = maxDelay retryConfig).
Proof.
  intros Hbase Hmult Hab. unfold getRetryDelay. cbv zeta.
  assert (backoffMultiplier retryConfig ^ (a - 1)
          ≤ backoffMultiplier retryConfig ^ (b - 1)) as Hpow
    by (apply Z.pow_le_mono_r; lia).
  assert (baseDelay retryConfig * backoffMultiplier retryConfig ^ (a - 1)
          ≤ baseDelay retryConfig * backoffMultiplier retryConfig ^ (b - 1)) as Hmul
    by (apply Z.mul_le_mono_nonneg_l; lia).
  lia.
Qed.

(** X26. [batchCallAdapters] answers in the order of the request, in
    whatever order the calls settle: for identifiers that are all valid
    it returns one response per identifier, the response at an index
    being that of a call of the identifier at the same index, with the
    batch's input and context; and the calls touch nothing but the
    network and the clock. *)
Theorem batchCallAdapters_keeps_request_order
    config schedule adapterIds input context s :
  Forall (λ adapterId, isValidAdapterId adapterId = true) adapterIds →
  ∃ rs s1,
    batchCallAdapters config schedule adapterIds input context s = (Return rs, s1) ∧
    length rs = length adapterIds ∧
    heap s1 = heap s ∧ timers s1 = timers s ∧
    ∀ i adapterId,
      adapterIds !! i = Some adapterId →
      ∃ r evs,
        rs !! i = Some r ∧
        invocation config adapterId input (default ∅ (heap s !! context)) r evs.
Proof.
  intros Hvalid.
  destruct (batchCallAdapters_spec config schedule adapterIds input context s Hvalid)
    as (rs & s1 & Hrun & Hlen & [evs Hfr] & Hall).
  exists rs, s1. split; [exact Hrun|]. split; [exact Hlen|].
  split; [exact (fr_heap _ _ _ Hfr)|]. split; [exact (fr_timers _ _ _ Hfr)|].
  exact Hall.
Qed.

End ClientProperties.

(** * Further properties of the executor *)

Section ExecutorProperties.

Context `{Env : Environment}.

Lemma only_touches_refl u s : only_touches u s s.
Proof. by repeat split. Qed.

Lemma only_touches_trans u s1 s2 s3 :
  only_touches u s1 s2 → only_touches u s2 s3 → only_touches u s1 s3.
Proof.
  intros (Hh1 & ? & ? & ?) (Hh2 & ? & ? & ?). split; [|split; [|split]].
  - intros l Hl. by rewrite Hh2, Hh1.
  - congruence.
  - congruence.
  - by eapply same_timers_trans.
Qed.

Lemma frame_only_touches u s s' evs : frame s s' evs → only_touches u s s'.
Proof. intros []. repeat split; congruence. Qed.

Lemma merge_data_only_touches u data s :
  ∃ s', merge_data u data s = (Return tt, s') ∧ only_touches u s s' ∧
        trace s' = trace s ∧ world s' = world s.
Proof.
  unfold merge_data. destruct data as [d|]; [destruct (truthy d)|].
  - unfold assign_object. eexists. split; [done|]. repeat split; try done.
    intros l Hl. simpl. by rewrite lookup_insert_ne.
  - exists s. split; [done|]. split; [apply only_touches_refl | done].
  - exists s. split; [done|]. split; [apply only_touches_refl | done].
Qed.

Lemma callAdapter_only_touches u config adapterId input context s :
  only_touches u s (callAdapter config adapterId input context s).2.
Proof.
  destruct (callAdapter config adapterId input context s) as [res s'] eqn:Hcall.
  destruct (callAdapter_frame _ _ _ _ _ _ _ Hcall) as (evs & Hfr & _).
  by eapply frame_only_touches.
Qed.

Lemma callAdapter_touches_heap config adapterId input context s :
  heap (callAdapter config adapterId input context s).2 = heap s.
Proof.
  destruct (callAdapter config adapterId input context s) as [res s'] eqn:Hcall.
  destruct (callAdapter_frame _ _ _ _ _ _ _ Hcall) as (evs & Hfr & _).
  apply Hfr.
Qed.

Lemma runBeforeLLM_loop_only_touches config u adapterIds :
  ∀ input s, only_touches u s (runBeforeLLM_loop config adapterIds input u s).2.
Proof.
  induction adapterIds as [|adapterId rest IH]; intros input s;
    [apply only_touches_refl|].
  simpl. unfold_monad.
  pose proof (callAdapter_only_touches u config adapterId (Some input) u s) as Hcall.
  destruct (callAdapter config adapterId (Some input) u s) as [[r|e] s1]; [|done].
  destruct (resp_status r); [|done].
  destruct (merge_data_only_touches u (resp_data r) s1) as (s2 & -> & Hmerge & _).
  eapply only_touches_trans; [exact Hcall|].
  eapply only_touches_trans; [exact Hmerge|]. apply IH.
Qed.

Lemma runParallel_forEach_only_touches adapterIds u results :
  ∀ index s, only_touches u s (runParallel_forEach adapterIds u index results s).2.
Proof.
  induction results as [|r results IH]; intros index s; [apply only_touches_refl|].
  simpl. destruct (resp_status r); [|apply only_touches_refl]. unfold_monad.
  destruct (merge_data_only_touches u (resp_data r) s) as (s1 & -> & Hmerge & _).
  eapply only_touches_trans; [exact Hmerge | apply IH].
Qed.

Lemma settle_pending_frame config input context n :
  ∀ schedule pending s,
    ∃ evs, frame s (settle_pending config input context n schedule pending s).2 evs.
Proof.
  induction n as [|n IH]; intros schedule pending s;
    [exists []; apply frame_refl|].
  destruct pending as [|p0 pending']; [exists []; apply frame_refl|].
  cbn [settle_pending].
  set (pending := p0 :: pending').
  destruct (nth _ pending p0) as [i adapterId].
  destruct (callAdapter config adapterId input context s) as [c s1] eqn:Hcall.
  destruct (callAdapter_frame _ _ _ _ _ _ _ Hcall) as (evs & Hfr & _).
  destruct (IH (tl schedule)
               (delete (hd 0%nat schedule `mod` length pending)%nat pending) s1)
    as (evs' & Hfr').
  destruct (settle_pending config input context n (tl schedule) _ s1) as [rest s2].
  eexists. by eapply frame_trans.
Qed.

Lemma new_object_only_touches props s :
  only_touches (fresh (dom (heap s))) s (new_object props s).2.
Proof.
  unfold new_object. repeat split; try done.
  intros l Hl. simpl. by rewrite lookup_insert_ne.
Qed.

Lemma only_touches_fresh_preserved s s' :
  only_touches (fresh (dom (heap s))) s s' → heap_preserved s s'.
Proof.
  intros (Hheap & _) l Hl. apply Hheap. intros ->.
  apply elem_of_dom in Hl. by apply is_fresh in Hl.
Qed.

(** X8. None of the three entry points of the executor ever changes an
    object that exists when it is called, the caller's context among
    them, nor the health records, nor the timers; this holds whether the
    call returns or throws, for any list of identifiers. *)
Theorem executor_preserves_callers_state config :
  (∀ input adapterIds context s,
      let s' := (runBeforeLLM config input adapterIds context s).2 in
      heap_preserved s s' ∧ healthState s' = healthState s ∧ same_timers s s') ∧
  (∀ context adapterIds s,
      let s' := (runAfterLLM config context adapterIds s).2 in
      heap s' = heap s ∧ healthState s' = healthState s ∧ same_timers s s') ∧
  (∀ schedule input adapterIds context s,
      let s' := (runParallel config schedule input adapterIds context s).2 in
      heap_preserved s s' ∧ healthState s' = healthState s ∧ same_timers s s').
Proof.
  split; [|split].
  - intros input adapterIds context s.
    assert (only_touches (fresh (dom (heap s))) s
              (runBeforeLLM config input adapterIds context s).2) as H.
    { unfold runBeforeLLM, read_object. unfold_monad.
      pose proof (new_object_only_touches (default ∅ (heap s !! context)) s) as Hnew.
      unfold new_object in *. cbn [snd] in Hnew.
      set (u := fresh (dom (heap s))) in *. set (s0 := set_heap _ s) in *.
      pose proof (runBeforeLLM_loop_only_touches config u adapterIds input s0) as Hloop.
      destruct (runBeforeLLM_loop config adapterIds input u s0) as [[p|e] s1];
        by eapply only_touches_trans. }
    split; [by apply only_touches_fresh_preserved|]. by destruct H as (_ & ? & _ & ?).
  - intros context adapterIds. induction adapterIds as [|adapterId rest IH]; intros s.
    + by repeat split.
    + simpl. unfold_monad.
      destruct (callAdapter config adapterId None context s) as [res s1] eqn:Hcall.
      destruct (callAdapter_frame _ _ _ _ _ _ _ Hcall) as (evs & Hfr & _).
      assert (heap s1 = heap s ∧ healthState s1 = healthState s ∧ same_timers s s1)
        as (Hh & Hhs & Ht) by (destruct Hfr; by repeat split).
      destruct res as [r|e]; [destruct (resp_status r)|]; try done.
      destruct (IH s1) as (Hh' & Hhs' & Ht'). cbn zeta in *.
      split; [congruence|]. split; [congruence|]. by eapply same_timers_trans.
  - intros schedule input adapterIds context s.
    assert (only_touches (fresh (dom (heap s))) s
              (runParallel config schedule input adapterIds context s).2) as H.
    { set (u := fresh (dom (heap s))).
      unfold runParallel, batchCallAdapters, read_object. unfold_monad.
      destruct (settle_pending_frame config input context
                  (length adapterIds) schedule (imap pair adapterIds) s)
        as (evs & Hfr).
      destruct (settle_pending config input context (length adapterIds) schedule
                  (imap pair adapterIds) s) as [settled s1] eqn:Hs.
      cbn [snd] in Hfr.
      pose proof (frame_only_touches u _ _ _ Hfr) as Hsettle.
      destruct (first_rejection _); [done|].
      unfold new_object. rewrite (fr_heap _ _ _ Hfr). fold u.
      set (s2 := set_heap _ s1).
      assert (only_touches u s s2) as H2.
      { eapply only_touches_trans; [exact Hsettle|]. subst s2.
        split; [|by repeat split]. intros l Hl. simpl.
        by rewrite lookup_insert_ne, (fr_heap _ _ _ Hfr). }
      pose proof (runParallel_forEach_only_touches adapterIds u
                    (omap fulfilled (fill_results (length adapterIds) settled))
                    0%nat s2) as Hfor.
      destruct (runParallel_forEach adapterIds u 0 _ s2) as [[[]|e] s3];
        by eapply only_touches_trans. }
    split; [by apply only_touches_fresh_preserved|]. by destruct H as (_ & ? & _ & ?).
Qed.


(** X10. [runAfterLLM] on a list that is the concatenation of two is
    [runAfterLLM] on the first followed, if that returns, by
    [runAfterLLM] on the second with the same context; on the empty list
    it returns at once. *)
Theorem runAfterLLM_composes config context pre post s :
  runAfterLLM config context (pre ++ post) s =
    (runAfterLLM config context pre;; runAfterLLM config context post) s ∧
  runAfterLLM config context [] s = (Return tt, s).
Proof.
  split; [|done]. revert s. induction pre as [|a pre IH]; intros s; [done|].
  simpl. unfold_monad.
  destruct (callAdapter config a None context s) as [[ra|e] s0]; [|done].
  destruct (resp_status ra); [|done]. apply IH.
Qed.

(** X11. An identifier that the validation rejects stops both sequential
    chains where it stands: after the adapters before it have succeeded,
    the chain throws the validation error for that identifier, not a
    "failed after retries" error, in the state those adapters left, and
    the adapters after it are not invoked. *)
Theorem sequential_chains_stop_at_invalid_identifier config :
  (∀ input pre adapterId post context s input' updatedContext s1,
      runBeforeLLM config input pre context s
        = (Return (input', updatedContext), s1) →
      isValidAdapterId adapterId = false →
      runBeforeLLM config input (pre ++ adapterId :: post) context s =
        (Throw (mkError ("Invalid adapter ID: " +:+ adapterId) None), s1)) ∧
  (∀ context pre adapterId post s s1,
      runAfterLLM config context pre s = (Return tt, s1) →
      isValidAdapterId adapterId = false →
      runAfterLLM config context (pre ++ adapterId :: post) s =
        (Throw (mkError ("Invalid adapter ID: " +:+ adapterId) None), s1)).
Proof.
  split.
  - intros input pre adapterId post context s input' u s1.
    unfold runBeforeLLM, read_object. unfold_monad.
    destruct (new_object _ s) as [[u0|e] s0]; [|done].
    rewrite runBeforeLLM_loop_app.
    destruct (runBeforeLLM_loop config pre input u0 s0) as [[p|e] s1'] eqn:Hpre;
      [|done].
    intros H Hv. inversion H; subst. clear H.
    cbn [runBeforeLLM_loop]. unfold_monad. by rewrite callAdapter_invalid.
  - intros context pre adapterId post. induction pre as [|a pre IH]; intros s s1 Hpre Hv.
    + simpl in Hpre. unfold_monad. inversion Hpre; subst s1.
      simpl. unfold_monad. by rewrite callAdapter_invalid.
    + simpl in Hpre |- *. unfold_monad.
      destruct (callAdapter config a None context s) as [[ra|e] s0]; [|done].
      destruct (resp_status ra); [|done]. by apply IH.
Qed.

(** *** Chaining two runs *)

Lemma attempt_once_state adapterId input context s :
  (attempt_once adapterId input context s).2 =
    log_event (EvFetch (request_of adapterId input context s))
      (set_world (run_adapter (request_of adapterId input context s) (world s)).2 s).
Proof.
  unfold attempt_once, read_object. unfold_monad. rewrite fetch_frame.
  unfold request_of.
  destruct (run_adapter _ _).1 as [?|st ? body]; [done|].
  destruct (response_ok st); [|done]. by destruct body.
Qed.

Lemma retry_loop_same_outside retryConfig adapterId input context1 context2 remaining :
  ∀ attempt lastError s1 s2,
    same_outside s1 s2 →
    default ∅ (heap s1 !! context1) = default ∅ (heap s2 !! context2) →
    (retry_loop retryConfig adapterId input context1 remaining attempt lastError s1).1 =
    (retry_loop retryConfig adapterId input context2 remaining attempt lastError s2).1 ∧
    same_outside
      (retry_loop retryConfig adapterId input context1 remaining attempt lastError s1).2
      (retry_loop retryConfig adapterId input context2 remaining attempt lastError s2).2.
Proof.
  induction remaining as [|remaining IH];
    intros attempt lastError s1 s2 [Hw Ht] Hheap; [done|].
  simpl. unfold_monad.
  pose proof (attempt_once_result adapterId input context1 s1) as Hr1.
  pose proof (attempt_once_result adapterId input context2 s2) as Hr2.
  pose proof (attempt_once_state adapterId input context1 s1) as Hs1.
  pose proof (attempt_once_state adapterId input context2 s2) as Hs2.
  assert (request_of adapterId input context1 s1 = request_of adapterId input context2 s2)
    as Hreq by (unfold request_of; by rewrite Hheap).
  rewrite Hreq, Hw in Hr1, Hs1. rewrite <- Hr2 in Hr1.
  destruct (attempt_once adapterId input context1 s1) as [c1 s1'] eqn:Ha1.
  destruct (attempt_once adapterId input context2 s2) as [c2 s2'] eqn:Ha2.
  simpl in Hr1, Hs1, Hs2. subst c2 s1' s2'.
  set (request := request_of adapterId input context2 s2) in *.
  set (w := (run_adapter request (world s2)).2) in *.
  assert (same_outside (log_event (EvFetch request) (set_world w s1))
                       (log_event (EvFetch request) (set_world w s2))) as Hsame
    by (split; simpl; [done | by rewrite Ht]).
  destruct c1 as [r|e]; [done|].
  destruct (shouldRetry e attempt (maxAttempts retryConfig)); [|done].
  cbn [negb]. unfold sleep.
  destruct (attempt <? maxAttempts retryConfig); apply IH; try done.
  split; simpl; [done | by rewrite Ht].
Qed.

Lemma callAdapter_same_outside config adapterId input context1 context2 s1 s2 :
  same_outside s1 s2 →
  default ∅ (heap s1 !! context1) = default ∅ (heap s2 !! context2) →
  (callAdapter config adapterId input context1 s1).1 =
  (callAdapter config adapterId input context2 s2).1 ∧
  same_outside (callAdapter config adapterId input context1 s1).2
               (callAdapter config adapterId input context2 s2).2.
Proof.
  intros Hsame Hheap. unfold callAdapter.
  destruct (isValidAdapterId adapterId); [|done]. cbn [negb]. unfold_monad.
  set (retryConfig := merge_retry _ _).
  destruct (retry_loop_same_outside retryConfig adapterId input context1 context2
              (Z.to_nat (maxAttempts retryConfig)) 1 None s1 s2 Hsame Hheap)
    as [Hres Hout].
  destruct (retry_loop retryConfig adapterId input context1 _ 1 None s1)
    as [[e1|e1] s1'],
           (retry_loop retryConfig adapterId input context2 _ 1 None s2)
    as [[e2|e2] s2']; simpl in Hres, Hout; try done.
  - inversion Hres; subst. by destruct e2.
  - by inversion Hres.
Qed.

Lemma runBeforeLLM_loop_same_outside config u1 u2 adapterIds :
  ∀ input s1 s2 ctx,
    same_outside s1 s2 →
    heap s1 !! u1 = Some ctx →
    heap s2 !! u2 = Some ctx →
    (runBeforeLLM_loop config adapterIds input u1 s1).1 =
    (runBeforeLLM_loop config adapterIds input u2 s2).1 ∧
    same_outside (runBeforeLLM_loop config adapterIds input u1 s1).2
                 (runBeforeLLM_loop config adapterIds input u2 s2).2 ∧
    heap (runBeforeLLM_loop config adapterIds input u1 s1).2 !! u1 =
    heap (runBeforeLLM_loop config adapterIds input u2 s2).2 !! u2.
Proof.
  induction adapterIds as [|adapterId rest IH]; intros input s1 s2 ctx Hsame H1 H2.
  - simpl. by rewrite H1, H2.
  - simpl. unfold_monad.
    destruct (callAdapter_same_outside config adapterId (Some input) u1 u2 s1 s2 Hsame)
      as [Hres Hout]; [by rewrite H1, H2|].
    pose proof (callAdapter_only_touches u1 config adapterId (Some input) u1 s1) as Ht1.
    pose proof (callAdapter_touches_heap config adapterId (Some input) u1 s1) as Hh1.
    pose proof (callAdapter_touches_heap config adapterId (Some input) u2 s2) as Hh2.
    destruct (callAdapter config adapterId (Some input) u1 s1) as [c1 s1'].
    destruct (callAdapter config adapterId (Some input) u2 s2) as [c2 s2'].
    simpl in Hres, Hout, Hh1, Hh2. subst c2.
    assert (heap s1' !! u1 = Some ctx) as H1' by (by rewrite Hh1).
    assert (heap s2' !! u2 = Some ctx) as H2' by (by rewrite Hh2).
    destruct c1 as [r|e]; [|simpl; by rewrite H1', H2'].
    destruct (resp_status r); [|simpl; by rewrite H1', H2'].
    destruct (merge_data_spec u1 (resp_data r) s1' ctx H1')
      as (s1'' & -> & Hheap1 & (Hw1 & Htr1 & _)).
    destruct (merge_data_spec u2 (resp_data r) s2' ctx H2')
      as (s2'' & -> & Hheap2 & (Hw2 & Htr2 & _)).
    apply (IH _ _ _ (apply_data ctx (resp_data r))).
    + destruct Hout as [Hw Ht]. split; congruence.
    + by rewrite Hheap1, lookup_insert_eq.
    + by rewrite Hheap2, lookup_insert_eq.
Qed.

(** X12. Two runs of [runBeforeLLM] in a row, the second on the prompt
    and the context that the first returned, do what one run on the
    concatenated list does: the same requests in the same order, the same
    prompt and the same contents of the resulting context, or the same
    error. *)
Theorem runBeforeLLM_composes config input pre post context s prompt1 context1 s1 :
  runBeforeLLM config input pre context s = (Return (prompt1, context1), s1) →
  match runBeforeLLM config prompt1 post context1 s1,
        runBeforeLLM config input (pre ++ post) context s with
  | (Return (p2, context2), s2), (Return (p, updatedContext), s') =>
      p = p2 ∧
      heap s' !! updatedContext = heap s2 !! context2 ∧
      trace s' = trace s2 ∧ world s' = world s2
  | (Throw e2, s2), (Throw e, s') =>
      e = e2 ∧ trace s' = trace s2 ∧ world s' = world s2
  | _, _ => False
  end.
Proof.
  intros Hfirst.
  destruct (runBeforeLLM_chain _ _ _ _ _ _ _ _ Hfirst)
    as (rs & _ & _ & _ & _ & _ & _ & Hheap1 & _).
  unfold runBeforeLLM, read_object in Hfirst |- *. unfold_monad.
  destruct (new_object_spec (default ∅ (heap s !! context)) s) as [Hnew _].
  rewrite Hnew in Hfirst |- *. set (u := fresh (dom (heap s))) in *.
  set (s0 := set_heap _ s) in *.
  rewrite runBeforeLLM_loop_app.
  destruct (runBeforeLLM_loop config pre input u s0) as [[p|e] s1'] eqn:Hpre; [|done].
  inversion Hfirst; subst p context1 s1'. clear Hfirst.
  set (ctx1 := context_after (default ∅ (heap s !! context)) rs) in *.
  assert (heap s1 !! u = Some ctx1) as Hu by (by rewrite Hheap1, lookup_insert_eq).
  rewrite Hu. change (default ∅ (Some ctx1)) with ctx1.
  destruct (new_object_spec ctx1 s1) as [Hnew2 _]. rewrite Hnew2.
  set (u2 := fresh (dom (heap s1))) in *. set (s1' := set_heap _ s1) in *.
  destruct (runBeforeLLM_loop_same_outside config u u2 post prompt1 s1 s1' ctx1)
    as (Hres & [Hw Ht] & Hctx); [done | done | |].
  { subst s1'. simpl. by rewrite lookup_insert_eq. }
  destruct (runBeforeLLM_loop config post prompt1 u s1) as [[p|e] s'],
           (runBeforeLLM_loop config post prompt1 u2 s1') as [[p2|e2] s2];
    simpl in Hres, Hw, Ht, Hctx; try done.
  - inversion Hres; subst. by repeat split.
  - inversion Hres; subst. by repeat split.
Qed.

(** *** An invalid identifier in the fan-out *)

Lemma settle_pending_outcomes config input context n :
  ∀ schedule pending s,
    length pending = n →
    let settled := (settle_pending config input context n schedule pending s).1 in
    settled.*1 ≡ₚ pending.*1 ∧
    Forall (λ ic, ∃ adapterId,
                (ic.1, adapterId) ∈ pending ∧
                match ic.2 with
                | Return _ => isValidAdapterId adapterId = true
                | Throw e =>
                    isValidAdapterId adapterId = false ∧
                    e = mkError ("Invalid adapter ID: " +:+ adapterId) None
                end) settled.
Proof.
  induction n as [|n IH]; intros schedule pending s Hlen.
  - destruct pending; [|done]. by split.
  - destruct pending as [|p0 pending']; [done|].
    cbn [settle_pending].
    set (pending := p0 :: pending') in *.
    set (k := (hd 0%nat schedule `mod` length pending)%nat) in *.
    assert (k < length pending)%nat as Hk
      by (apply Nat.mod_upper_bound; by rewrite Hlen).
    destruct (lookup_lt_is_Some_2 pending k Hk) as ([i adapterId] & Hp).
    rewrite (nth_lookup_Some _ _ _ _ Hp).
    assert (match (callAdapter config adapterId input context s).1 with
            | Return _ => isValidAdapterId adapterId = true
            | Throw e =>
                isValidAdapterId adapterId = false ∧
                e = mkError ("Invalid adapter ID: " +:+ adapterId) None
            end) as Hc.
    { destruct (isValidAdapterId adapterId) eqn:Hv.
      - destruct (callAdapter_valid_returns config adapterId input context s Hv)
          as (r & s' & ->). done.
      - by rewrite callAdapter_invalid. }
    destruct (callAdapter config adapterId input context s) as [c s1].
    specialize (IH (tl schedule) (delete k pending) s1).
    destruct (settle_pending config input context n (tl schedule)
                (delete k pending) s1) as [rest s2].
    destruct IH as [Hperm Hall].
    { rewrite length_delete by eauto. rewrite Hlen. lia. }
    cbn [fst snd] in *. split.
    + cbn [fmap list_fmap fst]. rewrite Hperm.
      by rewrite (delete_Permutation pending k (i, adapterId)) at 2.
    + constructor.
      * exists adapterId. split; [|done]. apply list_elem_of_lookup. eauto.
      * eapply Forall_impl; [exact Hall|].
        intros ic (id' & Hin & Hic). exists id'. split; [|done].
        rewrite (delete_Permutation pending k (i, adapterId)) by done.
        apply elem_of_cons. by right.
Qed.

Lemma first_rejection_at {A} (arr : list (option (Completion A))) :
  ∀ (k : nat) e,
    arr !! k = Some (Some (Throw e)) →
    (∀ i : nat, (i < k)%nat → ∃ a, arr !! i = Some (Some (Return a))) →
    first_rejection arr = Some e.
Proof.
  induction arr as [|x arr IH]; intros k e Hk Hbefore; [done|].
  destruct k as [|k].
  - simpl in Hk. inversion Hk; subst. done.
  - destruct (Hbefore 0%nat) as (a & Ha); [lia|].
    simpl in Ha. inversion Ha; subst. simpl.
    apply (IH k); [done|]. intros i Hi. apply (Hbefore (S i)). lia.
Qed.

(** X13. When the list given to [runParallel] holds an identifier that
    the validation rejects, [runParallel] throws the validation error of
    the first such identifier in list order, whatever the order in which
    the other calls settle, and makes no copy of the context. *)
Theorem runParallel_rejects_invalid_identifier
    config schedule input pre adapterId post context s :
  Forall (λ a, isValidAdapterId a = true) pre →
  isValidAdapterId adapterId = false →
  ∃ s',
    runParallel config schedule input (pre ++ adapterId :: post) context s =
      (Throw (mkError ("Invalid adapter ID: " +:+ adapterId) None), s') ∧
    heap s' = heap s.
Proof.
  intros Hpre Hbad.
  set (adapterIds := pre ++ adapterId :: post).
  unfold runParallel, batchCallAdapters. unfold_monad.
  destruct (settle_pending_frame config input context (length adapterIds) schedule
              (imap pair adapterIds) s) as (evs & Hfr).
  destruct (settle_pending_outcomes config input context (length adapterIds) schedule
              (imap pair adapterIds) s) as [Hperm Hall]; [by rewrite length_imap|].
  destruct (settle_pending config input context (length adapterIds) schedule
              (imap pair adapterIds) s) as [settled s1].
  cbn [fst snd] in *.
  assert ((imap pair adapterIds).*1 = seq 0 (length adapterIds)) as Hidx.
  { rewrite fmap_imap. unfold compose. simpl. apply (imap_index adapterIds 0). }
  rewrite Hidx in Hperm.
  assert (NoDup settled.*1) as Hnd by (rewrite Hperm; apply NoDup_seq).
  assert (∀ i a, adapterIds !! i = Some a →
            ∃ c, fill_results (length adapterIds) settled !! i = Some (Some c) ∧
                 match c with
                 | Return _ => isValidAdapterId a = true
                 | Throw e =>
                     isValidAdapterId a = false ∧
                     e = mkError ("Invalid adapter ID: " +:+ a) None
                 end) as Hfill.
  { intros i a Hid.
    assert (i ∈ settled.*1) as Hi.
    { rewrite Hperm. apply elem_of_seq. apply lookup_lt_Some in Hid. lia. }
    apply list_elem_of_fmap in Hi as ([i' c] & -> & Hin). simpl in *.
    rewrite Forall_forall in Hall.
    destruct (Hall _ Hin) as (a' & Hpend & Hc). simpl in *.
    apply list_elem_of_lookup in Hpend as (j & Hj).
    rewrite list_lookup_imap in Hj.
    destruct (adapterIds !! j) as [a''|] eqn:Hid'; [|done].
    inversion Hj; subst. rewrite Hid in Hid'. inversion Hid'; subst.
    exists c. split; [|done].
    apply settle_into_lookup; [done..|].
    rewrite length_replicate. by eapply lookup_lt_Some. }
  rewrite (first_rejection_at _ (length pre)
             (mkError ("Invalid adapter ID: " +:+ adapterId) None)).
  - exists s1. split; [done | apply Hfr].
  - destruct (Hfill (length pre) adapterId) as (c & Hc & Hm).
    { subst adapterIds. by rewrite list_lookup_middle. }
    rewrite Hc. destruct c as [r|e]; [congruence|]. by destruct Hm as [_ ->].
  - intros i Hi.
    destruct (lookup_lt_is_Some_2 pre i Hi) as (a & Ha).
    destruct (Hfill i a) as (c & Hc & Hm).
    { subst adapterIds. by rewrite lookup_app_l. }
    rewrite Forall_forall in Hpre.
    assert (isValidAdapterId a = true) as Hv
      by (apply Hpre, list_elem_of_lookup; eauto).
    destruct c as [r|e]; [eauto|]. destruct Hm as [Hm _]. congruence.
Qed.

End ExecutorProperties.

(** * Further properties of the health monitor *)

Section HealthProperties.

Context `{Env : Environment}.

Lemma registry_keys_NoDup : NoDup (Object_keys adapterRegistry).
Proof.
  vm_compute. repeat constructor;
    intros H; repeat (apply elem_of_cons in H as [H|H]; [done|]);
    by apply elem_of_nil in H.
Qed.

Lemma heap_preserved_refl s : heap_preserved s s.
Proof. by intros l Hl. Qed.

Lemma heap_preserved_trans s1 s2 s3 :
  heap_preserved s1 s2 → heap_preserved s2 s3 → heap_preserved s1 s3.
Proof.
  intros H12 H23 l Hl. rewrite H23, H12; [done..|]. by rewrite H12.
Qed.

Lemma probes_only_trans ids s1 s2 s3 :
  probes_only ids s1 s2 → probes_only ids s2 s3 → probes_only ids s1 s3.
Proof.
  intros (Hh1 & Ht1 & evs1 & Htr1 & Hev1) (Hh2 & Ht2 & evs2 & Htr2 & Hev2).
  split; [by eapply heap_preserved_trans|]. split; [by eapply same_timers_trans|].
  exists (evs1 ++ evs2). split; [by rewrite Htr2, Htr1, app_assoc|].
  intros request Hin. apply elem_of_app in Hin as [Hin|Hin]; eauto.
Qed.

Lemma probes_only_weaken ids1 ids2 s s' :
  ids1 ⊆ ids2 → probes_only ids1 s s' → probes_only ids2 s s'.
Proof.
  intros Hsub (Hh & Ht & evs & Htr & Hev). split; [done|]. split; [done|].
  exists evs. split; [done|]. intros request Hin.
  destruct (Hev request Hin) as (? & ? & ?). split; [by apply Hsub | done].
Qed.

Lemma retry_loop_clock retryConfig adapterId input context remaining :
  monotone_clock →
  ∀ attempt lastError s,
    Date_now (world s) ≤
    Date_now (world (retry_loop retryConfig adapterId input context remaining
                                attempt lastError s).2).
Proof.
  intros [Hrun Hsleep].
  induction remaining as [|remaining IH]; intros attempt lastError s; [done|].
  simpl. unfold_monad.
  pose proof (attempt_once_state adapterId input context s) as Hs.
  destruct (attempt_once adapterId input context s) as [[r|e] s1]; simpl in Hs; subst s1.
  - simpl. apply Hrun.
  - destruct (shouldRetry e attempt (maxAttempts retryConfig)); simpl; [|apply Hrun].
    destruct (attempt <? maxAttempts retryConfig); simpl;
      (etrans; [|apply IH]); simpl; [|apply Hrun].
    etrans; [apply Hrun | apply Hsleep].
Qed.

Lemma callAdapter_clock config adapterId input context s :
  monotone_clock →
  Date_now (world s) ≤ Date_now (world (callAdapter config adapterId input context s).2).
Proof.
  intros Hmono. unfold callAdapter.
  destruct (isValidAdapterId adapterId); [|done]. cbn [negb]. unfold_monad.
  pose proof (retry_loop_clock
                (merge_retry defaultRetryConfig (retry config)) adapterId input context
                (Z.to_nat (maxAttempts (merge_retry defaultRetryConfig (retry config))))
                Hmono 1 None s) as H.
  destruct (retry_loop _ _ _ _ _ _ _ s) as [[[r|le]|e] s']; done.
Qed.

(** What [checkAdapterHealth] returns and does. *)
Lemma checkAdapterHealth_spec config adapterId s :
  ∃ h s',
    checkAdapterHealth config adapterId s = (Return h, s') ∧
    probes_only [adapterId] s s' ∧
    healthState s' = healthState s ∧
    lastSystemCheck s' = lastSystemCheck s ∧
    record_consistent h ∧
    (monotone_clock → 0 ≤ health_latency h).
Proof.
  unfold checkAdapterHealth, now, new_object. unfold_monad.
  set (probe := fresh (dom (heap s))).
  set (s0 := set_heap (<[probe := {[ "healthCheck" := JsBool true ]}]> (heap s)) s).
  pose proof (callAdapter_clock config adapterId None probe s0) as Hclock.
  destruct (callAdapter config adapterId None probe s0) as [res s1] eqn:Hcall.
  destruct (callAdapter_frame _ _ _ _ _ _ _ Hcall) as (evs & Hfr & Hreq).
  assert (probes_only [adapterId] s s1 ∧ healthState s1 = healthState s ∧
          lastSystemCheck s1 = lastSystemCheck s) as (Hprobe & Hhs & Hls).
  { destruct Hfr. split; [|by split]. split; [|split].
    - intros l Hl. rewrite fr_heap0. subst s0. simpl.
      apply lookup_insert_ne. intros <-.
      apply elem_of_dom in Hl. by apply is_fresh in Hl.
    - by repeat split.
    - exists evs. split; [done|]. intros request Hin. rewrite (Hreq _ Hin).
      unfold request_of. subst s0. simpl. rewrite lookup_insert_eq.
      split; [apply list_elem_of_singleton; done | done]. }
  cbn [snd world] in Hclock.
  destruct res as [r|e]; [destruct (resp_status r)|];
    (eexists _, s1; split; [done|]; split; [exact Hprobe|];
     split; [exact Hhs|]; split; [exact Hls|]; split);
    try (intros Hmono; cbn [health_latency]; specialize (Hclock Hmono);
         simpl in Hclock; lia);
    try done.
  unfold record_consistent. cbn [health_status health_latency health_message].
  destruct (Z.gtb_spec (Date_now (world s1) - Date_now (world s)) 1000);
    split; (done || lia).
Qed.

Lemma probes_only_refl ids s : probes_only ids s s.
Proof.
  split; [apply heap_preserved_refl|]. split; [by repeat split|].
  exists []. split; [by rewrite app_nil_r|]. intros ? H. by apply elem_of_nil in H.
Qed.

Lemma checkSystemHealth_loop_full config adapterIds :
  ∀ adapters overall s,
    NoDup adapterIds →
    ∃ hs adapters' s',
      checkSystemHealth_loop config adapterIds adapters overall s =
        (Return (adapters', foldl update_overall overall (health_status <$> hs)), s') ∧
      length hs = length adapterIds ∧
      probes_only adapterIds s s' ∧
      lastSystemCheck s' = lastSystemCheck s ∧
      (∀ adapterId, adapterId ∉ adapterIds →
                    adapters' !! adapterId = adapters !! adapterId ∧
                    healthState s' !! adapterId = healthState s !! adapterId) ∧
      (∀ i adapterId,
          adapterIds !! i = Some adapterId →
          ∃ h, hs !! i = Some h ∧
               adapters' !! adapterId = Some h ∧
               healthState s' !! adapterId = Some h ∧
               record_consistent h ∧
               (monotone_clock → 0 ≤ health_latency h)).
Proof.
  induction adapterIds as [|a rest IH]; intros adapters overall s Hnd.
  - exists [], adapters, s. split; [done|]. split; [done|].
    split; [apply probes_only_refl|]. by repeat split.
  - apply NoDup_cons in Hnd as [Ha Hnd]. cbn [checkSystemHealth_loop]. unfold_monad.
    destruct (checkAdapterHealth_spec config a s)
      as (h & s1 & Hprobe & Hp1 & Hhs1 & Hls1 & Hcons & Hlat).
    rewrite Hprobe. unfold healthState_set.
    set (s2 := set_healthState _ s1).
    destruct (IH (<[a := h]> adapters) (update_overall overall (health_status h)) s2 Hnd)
      as (hs & adapters' & s' & -> & Hlen & Hp2 & Hls2 & Hother & Hrec).
    exists (h :: hs), adapters', s'. split; [done|].
    split; [simpl; by rewrite Hlen|]. split; [|split; [|split]].
    + eapply probes_only_trans.
      * eapply probes_only_weaken; [|exact Hp1].
        intros x Hx. apply list_elem_of_singleton in Hx as ->. apply elem_of_cons. by left.
      * eapply probes_only_weaken; [|exact Hp2].
        intros x Hx. apply elem_of_cons. by right.
    + by rewrite Hls2.
    + intros id Hn. apply not_elem_of_cons in Hn as [Hne Hn].
      destruct (Hother id Hn) as [-> ->]. subst s2. simpl.
      rewrite !lookup_insert_ne by done. by rewrite Hhs1.
    + intros [|i] id Hid; simpl in Hid.
      * inversion Hid; subst id. exists h.
        destruct (Hother a Ha) as [-> ->]. subst s2. simpl.
        rewrite !lookup_insert_eq. by repeat split.
      * by apply Hrec.
Qed.

Lemma checkSystemHealth_full config s :
  let keys := Object_keys adapterRegistry in
  ∃ hs snapshot s',
    checkSystemHealth config s = (Return snapshot, s') ∧
    length hs = length keys ∧
    sys_status snapshot = foldl update_overall healthy (health_status <$> hs) ∧
    lastSystemCheck s' = Some (sys_timestamp snapshot) ∧
    probes_only keys s s' ∧
    (∀ adapterId, adapterId ∉ keys →
                  sys_adapters snapshot !! adapterId = None ∧
                  healthState s' !! adapterId = healthState s !! adapterId) ∧
    (∀ i adapterId,
        keys !! i = Some adapterId →
        ∃ h, hs !! i = Some h ∧
             sys_adapters snapshot !! adapterId = Some h ∧
             healthState s' !! adapterId = Some h ∧
             record_consistent h ∧
             (monotone_clock → 0 ≤ health_latency h)).
Proof.
  intros keys. unfold checkSystemHealth. fold keys. unfold_monad.
  destruct (not_checked_yet_spec keys ∅ s) as (m0 & -> & Hm0).
  destruct (checkSystemHealth_loop_full config keys m0 healthy s registry_keys_NoDup)
    as (hs & m & s1 & -> & Hlen & Hp & Hls & Hother & Hrec).
  unfold now, put_lastSystemCheck.
  eexists hs, _, _. split; [done|]. split; [done|]. split; [done|]. split; [done|].
  split; [|split].
  - destruct Hp as (Hh & Ht & Hev). by split.
  - intros id Hn. destruct (Hother id Hn) as [Hm Hhs]. destruct (Hm0 id) as [_ Hacc].
    cbn [sys_adapters fst]. by rewrite Hm, Hacc.
  - intros i id Hid. destruct (Hrec i id Hid) as (h & ? & ? & ? & ? & ?).
    exists h. by repeat split.
Qed.

(** X14. A system check sends probe requests only: every request is for
    an adapter of the registry and carries a null input and the context
    [{healthCheck: true}]; and the check changes no object that existed
    before it and no timer. *)
Theorem checkSystemHealth_sends_probes_only config s :
  let s' := (checkSystemHealth config s).2 in
  heap_preserved s s' ∧ same_timers s s' ∧
  ∃ evs, trace s' = trace s ++ evs ∧
         ∀ request, EvFetch request ∈ evs →
                    req_adapterId request ∈ Object_keys adapterRegistry ∧
                    req_input request = None ∧
                    req_context request = {[ "healthCheck" := JsBool true ]}.
Proof.
  destruct (checkSystemHealth_full config s) as (hs & snap & s' & -> & _ & _ & _ & Hp & _).
  exact Hp.
Qed.

(** X15. In every snapshot of [checkSystemHealth], a [healthy] record has
    a latency of at most 1000 and no message, and a [degraded] record a
    latency above 1000 and the message ["High latency detected"]; when the
    clock does not run backwards, no record has a negative latency. *)
Theorem snapshot_records_consistent config s snapshot s' adapterId h :
  checkSystemHealth config s = (Return snapshot, s') →
  sys_adapters snapshot !! adapterId = Some h →
  record_consistent h ∧ (monotone_clock → 0 ≤ health_latency h).
Proof.
  destruct (checkSystemHealth_full config s)
    as (hs & snap & s1 & -> & _ & _ & _ & _ & Hother & Hrec).
  intros Heq Hh. inversion Heq; subst snap s1. clear Heq.
  destruct (decide (adapterId ∈ Object_keys adapterRegistry)) as [Hin|Hn].
  - apply list_elem_of_lookup in Hin as (i & Hi).
    destruct (Hrec i adapterId Hi) as (h' & _ & Hh' & _ & Hcons & Hlat).
    rewrite Hh in Hh'. inversion Hh'; subst h'. by split.
  - destruct (Hother adapterId Hn) as [Hnone _]. congruence.
Qed.

(** *** Reading the records back *)

Lemma last_known_spec adapterIds :
  ∀ acc s,
    (∀ adapterId, adapterId ∈ adapterIds → is_Some (healthState s !! adapterId)) →
    ∃ m,
      last_known adapterIds acc s = (Return m, s) ∧
      ∀ adapterId,
        (adapterId ∈ adapterIds → m !! adapterId = healthState s !! adapterId) ∧
        (adapterId ∉ adapterIds → m !! adapterId = acc !! adapterId).
Proof.
  induction adapterIds as [|a rest IH]; intros acc s Hall.
  - exists acc. split; [done|]. intros id. split; [|done].
    intros H. by apply elem_of_nil in H.
  - simpl. unfold getAdapterHealth. unfold_monad.
    destruct (Hall a) as (h & Hh); [apply elem_of_cons; by left|]. rewrite Hh.
    destruct (IH (<[a := h]> acc) s) as (m & -> & Hm).
    { intros id Hin. apply Hall. apply elem_of_cons. by right. }
    exists m. split; [done|]. intros id. split.
    + intros Hin. destruct (decide (id ∈ rest)) as [|Hn]; [by apply Hm|].
      apply elem_of_cons in Hin as [->|]; [|done].
      destruct (Hm a) as [_ Ha]. by rewrite Ha, lookup_insert_eq.
    + intros Hn. apply not_elem_of_cons in Hn as [Hne Hn].
      destruct (Hm id) as [_ Hid]. by rewrite Hid, lookup_insert_ne.
Qed.

Lemma Object_values_lookup {A} (keys : list string) (m : gmap string A) :
  ∀ hs : list A,
    length hs = length keys →
    (∀ (i : nat) k, keys !! i = Some k → ∃ h, hs !! i = Some h ∧ m !! k = Some h) →
    Object_values keys m = hs.
Proof.
  unfold Object_values.
  induction keys as [|k keys IH]; intros hs Hlen Hall.
  - by destruct hs.
  - destruct hs as [|h hs]; [done|].
    destruct (Hall 0%nat k eq_refl) as (h' & Hh' & Hm). simpl in Hh'.
    inversion Hh'; subst h'.
    change (omap (λ k, m !! k) (k :: keys))
      with (match m !! k with
            | Some y => y :: omap (λ k, m !! k) keys
            | None => omap (λ k, m !! k) keys
            end).
    rewrite Hm. f_equal. apply IH; [simpl in Hlen; lia|].
    intros i k' Hk'. apply (Hall (S i) k' Hk').
Qed.

(** X16. After [checkSystemHealth], [getAdapterHealth] gives for every
    adapter of the registry the record that is in the snapshot, and for
    any other identifier what it gave before the check: the check
    overwrites the registry's records and touches no other. *)
Theorem getAdapterHealth_after_check config s snapshot s' adapterId :
  checkSystemHealth config s = (Return snapshot, s') →
  (adapterId ∈ Object_keys adapterRegistry →
   ∃ h, sys_adapters snapshot !! adapterId = Some h ∧
        getAdapterHealth adapterId s' = (Return (Some h), s')) ∧
  (adapterId ∉ Object_keys adapterRegistry →
   sys_adapters snapshot !! adapterId = None ∧
   (getAdapterHealth adapterId s').1 = (getAdapterHealth adapterId s).1).
Proof.
  destruct (checkSystemHealth_full config s)
    as (hs & snap & s1 & -> & _ & _ & _ & _ & Hother & Hrec).
  intros Heq. inversion Heq; subst snap s1. clear Heq.
  unfold getAdapterHealth. split.
  - intros Hin. apply list_elem_of_lookup in Hin as (i & Hi).
    destruct (Hrec i adapterId Hi) as (h & _ & Hsnap & Hhs & _).
    exists h. by rewrite Hhs.
  - intros Hin. destruct (Hother adapterId Hin) as [-> ->]. done.
Qed.

(** X17. Right after [checkSystemHealth] has returned a snapshot,
    [getLastSystemHealth] returns that very snapshot, status, records and
    timestamp, and changes nothing. *)
Theorem getLastSystemHealth_after_check config s snapshot s' :
  checkSystemHealth config s = (Return snapshot, s') →
  getLastSystemHealth s' = (Return (Some snapshot), s').
Proof.
  destruct (checkSystemHealth_full config s)
    as (hs & snap & s1 & -> & Hlen & Hstatus & Hls & _ & Hother & Hrec).
  intros Heq. inversion Heq; subst snap s1. clear Heq.
  unfold getLastSystemHealth. rewrite Hls. unfold_monad.
  destruct (last_known_spec (Object_keys adapterRegistry) ∅ s') as (m & -> & Hm).
  { intros id Hin. apply list_elem_of_lookup in Hin as (i & Hi).
    destruct (Hrec i id Hi) as (h & _ & _ & Hhs & _). eauto. }
  assert (m = sys_adapters snapshot) as ->.
  { apply map_eq. intros id.
    destruct (decide (id ∈ Object_keys adapterRegistry)) as [Hin|Hn].
    - destruct (Hm id) as [Hm1 _]. rewrite Hm1 by done.
      apply list_elem_of_lookup in Hin as (i & Hi).
      destruct (Hrec i id Hi) as (h & _ & -> & -> & _). done.
    - destruct (Hm id) as [_ Hm2]. rewrite Hm2 by done.
      destruct (Hother id Hn) as [-> _]. done. }
  rewrite (Object_values_lookup _ _ hs Hlen).
  - rewrite <- Hstatus. by destruct snapshot.
  - intros i k Hk. destruct (Hrec i k Hk) as (h & ? & ? & _). eauto.
Qed.

Lemma checkSystemHealth_caught_state config s :
  checkSystemHealth_caught config s = (Return tt, (checkSystemHealth config s).2).
Proof.
  unfold checkSystemHealth_caught. unfold_monad.
  destruct (checkSystemHealth_full config s) as (hs & snap & s' & -> & _). done.
Qed.

Lemma checkSystemHealth_records_complete config s :
  records_complete (checkSystemHealth config s).2.
Proof.
  destruct (checkSystemHealth_full config s)
    as (hs & snap & s' & -> & _ & _ & _ & _ & _ & Hrec).
  intros _ id Hin. apply list_elem_of_lookup in Hin as (i & Hi).
  destruct (Hrec i id Hi) as (h & _ & _ & Hhs & _). eauto.
Qed.

Lemma monitor_step_records_complete config op s :
  records_complete s → records_complete (monitor_step config op s).2.
Proof.
  intros Hinv. destruct op as [interval| |t]; simpl.
  - unfold startMonitoring, get_checkInterval. unfold_monad.
    destruct (checkInterval s) as [t|].
    + unfold clearInterval at 1. rewrite checkSystemHealth_caught_state.
      apply checkSystemHealth_records_complete.
    + rewrite checkSystemHealth_caught_state.
      apply checkSystemHealth_records_complete.
  - unfold stopMonitoring, get_checkInterval. unfold_monad.
    by destruct (checkInterval s).
  - unfold scheduled. unfold_monad. destruct (bool_decide _); [|done].
    rewrite checkSystemHealth_caught_state. apply checkSystemHealth_records_complete.
Qed.

(** X18. Once a system check has completed there is a record for every
    adapter of the registry, and starting, stopping and ticking keep it
    so. In such a state [getLastSystemHealth] never needs its ["Not
    checked yet"] placeholder: it changes nothing and the records it
    returns are the stored ones; and it returns nothing exactly when no
    check has completed yet. *)
Theorem records_complete_invariant config :
  (∀ ops s, records_complete s → records_complete (run_ops config ops s)) ∧
  (∀ s,
      records_complete s →
      match getLastSystemHealth s with
      | (Return (Some snapshot), s') =>
          s' = s ∧
          lastSystemCheck s = Some (sys_timestamp snapshot) ∧
          ∀ adapterId,
            sys_adapters snapshot !! adapterId =
              if bool_decide (adapterId ∈ Object_keys adapterRegistry)
              then healthState s !! adapterId
              else None
      | (Return None, s') => s' = s ∧ lastSystemCheck s = None
      | (Throw _, _) => False
      end).
Proof.
  split.
  - intros ops. induction ops as [|op ops IH] using rev_ind; intros s Hinv; [done|].
    unfold run_ops. rewrite foldl_app. simpl. fold (run_ops config ops s).
    by apply monitor_step_records_complete, IH.
  - intros s Hinv. unfold getLastSystemHealth.
    destruct (lastSystemCheck s) as [t|] eqn:Hls; [|done]. unfold_monad.
    destruct (last_known_spec (Object_keys adapterRegistry) ∅ s) as (m & -> & Hm).
    { apply Hinv. eauto. }
    split; [done|]. split; [done|]. intros id. cbn [sys_adapters].
    case_bool_decide as Hin.
    + destruct (Hm id) as [Hm1 _]. by apply Hm1.
    + destruct (Hm id) as [_ Hm2]. by rewrite Hm2.
Qed.

(** X19. Starting the monitor and then stopping it leaves no interval
    scheduled and [checkInterval] empty, provided that before the two
    calls the only interval, if any, was the monitor's own; and stopping
    a second time changes nothing. *)
Theorem start_then_stop_leaves_no_timer config interval s :
  monitor_inv s →
  ∃ s1 s2,
    startMonitoring config interval s = (Return tt, s1) ∧
    stopMonitoring s1 = (Return tt, s2) ∧
    timers s2 = ∅ ∧ checkInterval s2 = None ∧
    stopMonitoring s2 = (Return tt, s2).
Proof.
  intros Hinv. unfold monitor_inv in Hinv.
  destruct (startMonitoring_spec config interval s) as (s1 & H1 & Hc1 & _ & Ht1).
  destruct (stopMonitoring_spec s1) as (s2 & H2 & Hc2 & Ht2).
  exists s1, s2. split; [done|]. split; [done|].
  assert (match checkInterval s with
          | Some t => delete t (timers s)
          | None => timers s
          end = ∅) as Hempty.
  { apply (dom_empty_inv_L (D := gset nat)).
    destruct (checkInterval s); [rewrite dom_delete_L|]; set_solver. }
  split; [|split; [done|]].
  - rewrite Ht2, Hc1, Ht1, Hempty, insert_empty. apply delete_singleton_eq.
  - unfold stopMonitoring, get_checkInterval. unfold_monad. by rewrite Hc2.
Qed.


End HealthProperties.

(** * Properties of discovery, of the registry and of the logger *)

Section DiscoveryProperties.

Context `{Env : Environment}.

Variable discover : option string → World → DiscoveryOutcome * World.

(** X21. The discovery calls never retry: [getAdapterInfo] makes no
    request for an identifier that the validation rejects and throws the
    validation error, and otherwise makes exactly one request, as
    [getAvailableAdapters] does; an answer with a status outside 2xx, a
    503 as well as a 404, makes them throw an error made of their own
    prefix and the status text. *)
Theorem discovery_never_retries adapterId s :
  (isValidAdapterId adapterId = false →
   getAdapterInfo discover adapterId s =
     (Throw (mkError ("Invalid adapter ID: " +:+ adapterId) None), s)) ∧
  (isValidAdapterId adapterId = true →
   (getAdapterInfo discover adapterId s).2 =
     set_world (discover (Some adapterId) (world s)).2 s ∧
   ∀ status statusText body,
     (discover (Some adapterId) (world s)).1 = DiscoveryResponse status statusText body →
     response_ok status = false →
     (getAdapterInfo discover adapterId s).1 =
       Throw (mkError ("Failed to fetch adapter info: " +:+ statusText) None)) ∧
  ((getAvailableAdapters discover s).2 = set_world (discover None (world s)).2 s ∧
   ∀ status statusText body,
     (discover None (world s)).1 = DiscoveryResponse status statusText body →
     response_ok status = false →
     (getAvailableAdapters discover s).1 =
       Throw (mkError ("Failed to fetch adapters: " +:+ statusText) None)).
Proof.
  assert (∀ failed path,
            ((response ← fetch_get discover path; discovery_result failed response) s).2
              = set_world (discover path (world s)).2 s ∧
            ∀ status statusText body,
              (discover path (world s)).1 = DiscoveryResponse status statusText body →
              response_ok status = false →
              ((response ← fetch_get discover path; discovery_result failed response) s).1
                = Throw (mkError (failed +:+ statusText) None)) as Hone.
  { intros failed path. unfold fetch_get, discovery_result. unfold_monad.
    destruct (discover path (world s)) as [o w]. cbn [fst snd]. split.
    - destruct o as [?|st ? [v|msg]]; [done| |]; by destruct (response_ok st).
    - intros status statusText body -> Hok. by rewrite Hok. }
  split; [|split].
  - intros Hv. unfold getAdapterInfo. by rewrite Hv.
  - intros Hv. unfold getAdapterInfo. rewrite Hv. cbn [negb]. apply Hone.
  - apply Hone.
Qed.

End DiscoveryProperties.

(** X22. [getAdapterType] gives a declared type exactly for the keys of
    the registry, and the type the registry declares; it throws exactly
    for the identifiers that [isValidAdapterId] rejects; for an identifier
    that passes the validation without being a key it returns
    [undefined]. *)
Theorem getAdapterType_agrees_with_validation (id : string) :
  (∀ ty, getAdapterType id = Return (Some ty) ↔ (id, ty) ∈ adapterRegistry) ∧
  ((∃ e, getAdapterType id = Throw e) ↔ isValidAdapterId id = false) ∧
  (getAdapterType id = Return None ↔
   isValidAdapterId id = true ∧ id ∉ Object_keys adapterRegistry).
Proof.
  assert (∀ ty, (id, ty) ∈ adapterRegistry → getAdapterType id = Return (Some ty)) as Hkey.
  { intros ty Hin. unfold adapterRegistry in Hin.
    repeat (apply elem_of_cons in Hin as [Hin|Hin];
            [inversion Hin; subst; reflexivity|]).
    by apply elem_of_nil in Hin. }
  assert (id ∈ Object_keys adapterRegistry → ∃ ty, (id, ty) ∈ adapterRegistry) as Hty.
  { intros Hin. apply list_elem_of_fmap in Hin as ([k ty] & -> & Hin). eauto. }
  assert (id ∉ Object_keys adapterRegistry →
          getAdapterType id =
            if bool_decide (id ∈ Object_prototype_keys)
            then Return None
            else Throw (mkError "Cannot read properties of undefined (reading 'type')"
                                None)) as Hnokey.
  { intros Hn. unfold getAdapterType.
    destruct (list_find _ adapterRegistry) as [[i kv]|] eqn:Hfind; [|done].
    apply list_find_Some in Hfind as (Hi & Hkv & _). destruct Hn.
    apply list_elem_of_fmap. exists kv. split; [done|].
    apply list_elem_of_lookup. eauto. }
  unfold isValidAdapterId, js_in.
  destruct (decide (id ∈ Object_keys adapterRegistry)) as [Hin|Hn].
  - destruct (Hty Hin) as (ty & Hty'). rewrite (Hkey ty Hty').
    rewrite bool_decide_eq_true_2 by done. cbn [orb].
    split; [|split].
    + intros ty'. split; [intros H; inversion H; subst; exact Hty'|].
      intros H. pose proof (Hkey ty' H). pose proof (Hkey ty Hty'). congruence.
    + split; [by intros (e & He) | done].
    + split; [done | by intros [_ ?]].
  - rewrite (Hnokey Hn). rewrite (bool_decide_eq_false_2 _ Hn). cbn [orb].
    split; [|split].
    + intros ty. split; [by case_bool_decide|].
      intros Hin. destruct Hn. apply list_elem_of_fmap. by exists (id, ty).
    + case_bool_decide; split; try done; [by intros (e & He) | eauto].
    + case_bool_decide; split; try done. by intros [? _].
Qed.

(** X23. A logger that is disabled puts out nothing, whatever the level
    of the call, the level of the configuration or a custom logger; so
    does a logger constructed without a configuration, which is disabled,
    and a logger whose level is [none]. *)
Theorem Logger_disabled_is_silent timestamp stringify lvl message data :
  (∀ config, Logger.log (Logger.disable config) timestamp stringify lvl message data = []) ∧
  Logger.log (Logger.constructor None) timestamp stringify lvl message data = [] ∧
  (∀ config, Logger.level config = Logger.none →
             Logger.log config timestamp stringify lvl message data = []).
Proof.
  split; [|split].
  - by intros [l e c].
  - done.
  - intros [l [|] c] Hl; simpl in Hl; subst; by unfold Logger.log, Logger.shouldLog.
Qed.

(** X24. The levels are ordered by severity: a configuration that lets
    [debug] messages through lets [info] through, one that lets [info]
    through lets [warn] through, one that lets [warn] through lets
    [error] through; and no configuration lets a message of level [none]
    through. *)
Theorem Logger_threshold_is_monotone config :
  (Logger.shouldLog config Logger.debug = true →
   Logger.shouldLog config Logger.info = true) ∧
  (Logger.shouldLog config Logger.info = true →
   Logger.shouldLog config Logger.warn = true) ∧
  (Logger.shouldLog config Logger.warn = true →
   Logger.shouldLog config Logger.error = true) ∧
  Logger.shouldLog config Logger.none = false.
Proof. by destruct config as [[] [] c]. Qed.

(** X25. Two calls of [setConfig] in a row amount to one call with the
    two partial configurations spread one over the other.
    [enableLogging] enables the logger unless the configuration it is
    given says [enabled: false]; after [enableLogging()] an [error]
    message is put out whenever the level is not [none]. *)
Theorem Logger_setConfig_composes config p q :
  Logger.setConfig (Logger.setConfig config p) q =
    Logger.setConfig config (Logger.spread_partial p q) ∧
  Logger.enabled (Logger.enableLogging config (Some p)) =
    default true (Logger.p_enabled p) ∧
  Logger.enabled (Logger.enableLogging config None) = true ∧
  (Logger.level config ≠ Logger.none →
   ∀ timestamp stringify message data,
     Logger.log (Logger.enableLogging config None) timestamp stringify
                Logger.error message data ≠ []).
Proof.
  split; [|split; [|split]].
  - destruct config as [l e c], p as [pl pe pc], q as [[ql|] [qe|] [qc|]]; reflexivity.
  - by destruct p as [pl [pe|] pc].
  - done.
  - intros Hl timestamp stringify message data.
    destruct config as [[] e [c|]]; by simpl in *.
Qed.

(** * The further properties at work *)

Lemma callAdapter_without_attempts_witness :
  @callAdapter (scripted chain_server) no_attempts_config "risk-analyzer" None 0%nat
               (scenario_state chain_server)
  = (Return (mkResponse None error None (Some "Unknown error occurred")),
     scenario_state chain_server).
Proof.
  apply (@callAdapter_without_attempts (scripted chain_server)).
  - reflexivity.
  - vm_compute. discriminate.
Defined.


Lemma callAdapter_value_provenance_witness :
  let s := scenario_state flaky_server in
  ∃ r s',
    @callAdapter (scripted flaky_server) default_config "risk-analyzer" None 0%nat s
      = (Return r, s') ∧
    r = ok_response (Some "done") None.
Proof.
  intros s.
  destruct (@callAdapter_value_provenance (scripted flaky_server) default_config
              "risk-analyzer" None 0%nat s eq_refl ltac:(vm_compute; discriminate))
    as (r & s' & w & Hcall & _).
  exists r, s'. split; [exact Hcall|].
  vm_compute in Hcall. by inversion Hcall.
Defined.

Lemma callAdapter_total_wait_bounded_witness :
  ∃ evs,
    trace (@callAdapter (scripted unavailable_server) default_config "risk-analyzer"
             None 0%nat (scenario_state unavailable_server)).2
      = trace (scenario_state unavailable_server) ++ evs ∧
    total_wait evs ≤ 20000.
Proof.
  apply (@callAdapter_total_wait_bounded (scripted unavailable_server) default_config
           "risk-analyzer" None 0%nat (scenario_state unavailable_server)).
  - vm_compute. discriminate.
  - vm_compute. discriminate.
Defined.

Lemma getRetryDelay_monotone_and_capped_witness :
  getRetryDelay 2 defaultRetryConfig ≤ getRetryDelay 5 defaultRetryConfig ∧
  getRetryDelay 5 defaultRetryConfig ≤ 10000 ∧
  (getRetryDelay 2 defaultRetryConfig = 10000 →
   getRetryDelay 5 defaultRetryConfig = 10000).
Proof.
  apply (getRetryDelay_monotone_and_capped defaultRetryConfig 2 5).
  - vm_compute. discriminate.
  - vm_compute. discriminate.
  - lia.
Defined.


Lemma sequential_chains_stop_at_invalid_identifier_witness :
  let s := scenario_state chain_server in
  (@runBeforeLLM (scripted chain_server) default_config "x"
     ["pdf-text-extractor"; "wallet-tracker"; "persona-legal"] 0%nat s).1
    = Throw (mkError "Invalid adapter ID: wallet-tracker" None) ∧
  (@runAfterLLM (scripted chain_server) default_config 0%nat
     ["slack-sender"; "sql-query-tool"; "db-logger"] s).1
    = Throw (mkError "Invalid adapter ID: sql-query-tool" None).
Proof.
  intros s.
  destruct (@sequential_chains_stop_at_invalid_identifier (scripted chain_server)
              default_config) as [Hbefore Hafter].
  split.
  - pose (s1 := (@runBeforeLLM (scripted chain_server) default_config "x"
                   ["pdf-text-extractor"] 0%nat s).2).
    pose proof (Hbefore "x" ["pdf-text-extractor"] "wallet-tracker" ["persona-legal"]
                  0%nat s "y" 1%nat s1 ltac:(vm_compute; reflexivity) eq_refl) as H.
    cbn [app] in H. by rewrite H.
  - pose (s1 := (@runAfterLLM (scripted chain_server) default_config 0%nat
                   ["slack-sender"] s).2).
    pose proof (Hafter 0%nat ["slack-sender"] "sql-query-tool" ["db-logger"] s s1
                  ltac:(vm_compute; reflexivity) eq_refl) as H.
    cbn [app] in H. by rewrite H.
Defined.

Lemma runBeforeLLM_composes_witness :
  let s := scenario_state chain_server in
  let first := @runBeforeLLM (scripted chain_server) default_config "x"
                 ["pdf-text-extractor"] 0%nat s in
  let second := @runBeforeLLM (scripted chain_server) default_config "y"
                  ["persona-legal"] 1%nat first.2 in
  let whole := @runBeforeLLM (scripted chain_server) default_config "x"
                 ["pdf-text-extractor"; "persona-legal"] 0%nat s in
  first.1 = Return ("y", 1%nat) ∧
  match second, whole with
  | (Return (p2, context2), s2), (Return (p, updatedContext), s') =>
      p = p2 ∧ heap s' !! updatedContext = heap s2 !! context2 ∧
      trace s' = trace s2 ∧ world s' = world s2
  | (Throw e2, s2), (Throw e, s') =>
      e = e2 ∧ trace s' = trace s2 ∧ world s' = world s2
  | _, _ => False
  end.
Proof.
  intros s first second whole.
  assert (first = (Return ("y", 1%nat), first.2)) as Hfirst
    by (vm_compute; reflexivity).
  split; [by rewrite Hfirst|].
  exact (@runBeforeLLM_composes (scripted chain_server) default_config "x"
           ["pdf-text-extractor"] ["persona-legal"] 0%nat s "y" 1%nat first.2 Hfirst).
Defined.

Lemma runParallel_rejects_invalid_identifier_witness :
  ∃ s',
    @runParallel (scripted updating_server) default_config [1%nat; 0%nat] (Some "x")
                 ["risk-analyzer"; "wallet-tracker"; "db-logger"] 0%nat
                 (scenario_state updating_server)
      = (Throw (mkError "Invalid adapter ID: wallet-tracker" None), s') ∧
    heap s' = heap (scenario_state updating_server).
Proof.
  apply (@runParallel_rejects_invalid_identifier (scripted updating_server)
           default_config [1%nat; 0%nat] (Some "x") ["risk-analyzer"]
           "wallet-tracker" ["db-logger"] 0%nat (scenario_state updating_server)).
  - repeat constructor.
  - reflexivity.
Defined.

Lemma snapshot_records_consistent_witness :
  let run := @checkSystemHealth (punctual slow_server) default_config
               (punctual_state slow_server) in
  ∃ snapshot h,
    run = (Return snapshot, run.2) ∧
    sys_adapters snapshot !! "risk-analyzer" = Some h ∧
    health_status h = degraded ∧
    record_consistent h ∧ 0 ≤ health_latency h.
Proof.
  intros run.
  pose (snapshot := match run.1 with
                    | Return x => x
                    | Throw _ => mkSystemHealth unhealthy ∅ 0
                    end).
  pose (h := default (mkHealth healthy 0 0 None)
                     (sys_adapters snapshot !! "risk-analyzer")).
  assert (run = (Return snapshot, run.2)) as Hrun by (vm_compute; reflexivity).
  assert (sys_adapters snapshot !! "risk-analyzer" = Some h) as Hh
    by (vm_compute; reflexivity).
  assert (@monotone_clock (punctual slow_server)) as Hmono.
  { split.
    - intros request [t n]. simpl. destruct (slow_server n request). simpl. lia.
    - intros ms [t n]. simpl. lia. }
  destruct (@snapshot_records_consistent (punctual slow_server) default_config
              (punctual_state slow_server) snapshot run.2 "risk-analyzer" h Hrun Hh)
    as [Hcons Hlat].
  exists snapshot, h. split; [exact Hrun|]. split; [exact Hh|].
  split; [vm_compute; reflexivity|]. split; [exact Hcons | exact (Hlat Hmono)].
Defined.

Lemma getAdapterHealth_after_check_witness :
  let run := @checkSystemHealth (scripted slow_server) default_config
               (scenario_state slow_server) in
  (∃ h, @getAdapterHealth (scripted slow_server) "db-logger" run.2
          = (Return (Some h), run.2)) ∧
  (@getAdapterHealth (scripted slow_server) "wallet-tracker" run.2).1 = Return None.
Proof.
  intros run.
  pose (snapshot := match run.1 with
                    | Return x => x
                    | Throw _ => mkSystemHealth unhealthy ∅ 0
                    end).
  assert (run = (Return snapshot, run.2)) as Hrun by (vm_compute; reflexivity).
  split.
  - destruct (@getAdapterHealth_after_check (scripted slow_server) default_config
                (scenario_state slow_server) snapshot run.2 "db-logger" Hrun)
      as [Hin _].
    destruct Hin as (h & _ & Hget).
    { vm_compute. repeat (first [by left | right]). }
    by exists h.
  - destruct (@getAdapterHealth_after_check (scripted slow_server) default_config
                (scenario_state slow_server) snapshot run.2 "wallet-tracker" Hrun)
      as [_ Hout].
    destruct Hout as [_ ->]; [|reflexivity].
    vm_compute. intros H. repeat (apply elem_of_cons in H as [H|H]; [done|]).
    by apply elem_of_nil in H.
Defined.

Lemma getLastSystemHealth_after_check_witness :
  let run := @checkSystemHealth (scripted slow_server) default_config
               (scenario_state slow_server) in
  ∃ snapshot,
    @getLastSystemHealth (scripted slow_server) run.2 = (Return (Some snapshot), run.2) ∧
    sys_status snapshot = degraded.
Proof.
  intros run.
  pose (snapshot := match run.1 with
                    | Return x => x
                    | Throw _ => mkSystemHealth unhealthy ∅ 0
                    end).
  assert (run = (Return snapshot, run.2)) as Hrun by (vm_compute; reflexivity).
  exists snapshot. split.
  - exact (@getLastSystemHealth_after_check (scripted slow_server) default_config
             (scenario_state slow_server) snapshot run.2 Hrun).
  - vm_compute. reflexivity.
Defined.

Lemma records_complete_invariant_witness :
  let s := scenario_state slow_server in
  let s' := run_ops (Env := scripted slow_server) default_config
                    [OpStart 60000; OpTick 0%nat; OpStop] s in
  records_complete s ∧ records_complete s' ∧
  (@getLastSystemHealth (scripted slow_server) s).1 = Return None ∧
  (@getLastSystemHealth (scripted slow_server) s').2 = s'.
Proof.
  intros s s'.
  assert (records_complete s) as Hinv by (intros [t Ht]; discriminate).
  destruct (@records_complete_invariant (scripted slow_server) default_config)
    as [Hops Hlast].
  pose proof (Hops [OpStart 60000; OpTick 0%nat; OpStop] s Hinv) as Hinv'.
  split; [exact Hinv|]. split; [exact Hinv'|]. split; [reflexivity|].
  specialize (Hlast s' Hinv'). fold s' in Hlast.
  destruct (getLastSystemHealth s') as [[[snapshot|]|e] s''];
    [by destruct Hlast | by destruct Hlast | done].
Defined.

Lemma start_then_stop_leaves_no_timer_witness :
  let s := scenario_state slow_server in
  ∃ s1 s2,
    @startMonitoring (scripted slow_server) default_config 60000 s = (Return tt, s1) ∧
    @stopMonitoring (scripted slow_server) s1 = (Return tt, s2) ∧
    timers s2 = ∅ ∧ checkInterval s2 = None.
Proof.
  intros s.
  assert (monitor_inv s) as Hinv by reflexivity.
  destruct (@start_then_stop_leaves_no_timer (scripted slow_server) default_config
              60000 s Hinv) as (s1 & s2 & H1 & H2 & Ht & Hc & _).
  exists s1, s2. exact (conj H1 (conj H2 (conj Ht Hc))).
Defined.

Lemma discovery_never_retries_witness :
  let s := scenario_state chain_server in
  @getAdapterInfo (scripted chain_server) discovery_down "wallet-tracker" s
    = (Throw (mkError "Invalid adapter ID: wallet-tracker" None), s) ∧
  (@getAdapterInfo (scripted chain_server) discovery_down "risk-analyzer" s).1
    = Throw (mkError "Failed to fetch adapter info: Service Unavailable" None) ∧
  world (@getAdapterInfo (scripted chain_server) discovery_down "risk-analyzer" s).2
    = (5, 1%nat) ∧
  (@getAvailableAdapters (scripted chain_server) discovery_down s).1
    = Throw (mkError "Failed to fetch adapters: Service Unavailable" None).
Proof.
  intros s.
  destruct (@discovery_never_retries (scripted chain_server) discovery_down
              "wallet-tracker" s) as (Hinvalid & _ & _).
  destruct (@discovery_never_retries (scripted chain_server) discovery_down
              "risk-analyzer" s) as (_ & Hvalid & Hall).
  split; [exact (Hinvalid eq_refl)|].
  destruct (Hvalid eq_refl) as [Hstate Hthrow].
  split; [exact (Hthrow 503 "Service Unavailable" (inr "") eq_refl eq_refl)|].
  split; [by rewrite Hstate|].
  destruct Hall as [_ Hthrow'].
  exact (Hthrow' 503 "Service Unavailable" (inr "") eq_refl eq_refl).
Defined.

Lemma Logger_disabled_is_silent_witness :
  Logger.log (Logger.mkLogConfig Logger.none true (Some 7%nat)) "2025-01-01T00:00:00.000Z"
             (λ _, "{}") Logger.error "boom" None = [] ∧
  Logger.log (Logger.disable (Logger.mkLogConfig Logger.debug true None))
             "2025-01-01T00:00:00.000Z" (λ _, "{}") Logger.error "boom" None = [].
Proof.
  destruct (Logger_disabled_is_silent "2025-01-01T00:00:00.000Z" (λ _, "{}")
              Logger.error "boom" None) as (Hdisabled & _ & Hnone).
  split; [by apply Hnone | apply Hdisabled].
Defined.

Lemma Logger_threshold_is_monotone_witness :
  let config := Logger.mkLogConfig Logger.info true None in
  Logger.shouldLog config Logger.debug = false ∧
  Logger.shouldLog config Logger.info = true ∧
  Logger.shouldLog config Logger.warn = true ∧
  Logger.shouldLog config Logger.error = true.
Proof.
  intros config.
  destruct (Logger_threshold_is_monotone config) as (_ & Hinfo & Hwarn & _).
  assert (Logger.shouldLog config Logger.info = true) as H by reflexivity.
  split; [reflexivity|]. split; [exact H|].
  split; [exact (Hinfo H) | exact (Hwarn (Hinfo H))].
Defined.

Lemma Logger_setConfig_composes_witness :
  let config := Logger.constructor None in
  Logger.enabled (Logger.enableLogging config
                    (Some (Logger.mkPartialLogConfig None (Some false) None))) = false ∧
  Logger.log (Logger.enableLogging config None) "2025-01-01T00:00:00.000Z" (λ _, "{}")
             Logger.error "boom" None
    = [Logger.Console Logger.error "[2025-01-01T00:00:00.000Z] [ERROR] boom"].
Proof.
  intros config.
  destruct (Logger_setConfig_composes config
              (Logger.mkPartialLogConfig None (Some false) None)
              (Logger.mkPartialLogConfig None None None))
    as (_ & Henabled & _ & Herror).
  split; [exact Henabled|].
  pose proof (Herror ltac:(discriminate) "2025-01-01T00:00:00.000Z" (λ _, "{}")
                     "boom" None) as Hne.
  reflexivity.
Defined.

(** A message with data on the console, and the same through a custom
    logger. *)
Example Logger_log_examples :
  let stringify := λ _ : JsValue, "{...}" in
  Logger.log (Logger.mkLogConfig Logger.debug true None) "T" stringify
             Logger.warn "slow" (Some (JsObject [("ms", JsNumber 1500)]))
    = [Logger.Console Logger.warn
         ("[T] [WARN] slow" +:+ String (Ascii.ascii_of_nat 10) "" +:+ "{...}")] ∧
  Logger.log (Logger.mkLogConfig Logger.debug true (Some 3%nat)) "T" stringify
             Logger.warn "slow" (Some (JsObject [("ms", JsNumber 1500)]))
    = [Logger.Custom 3%nat Logger.warn "slow" (Some (JsObject [("ms", JsNumber 1500)]))].
Proof. split; reflexivity. Qed.

Lemma batchCallAdapters_keeps_request_order_witness :
  let s := scenario_state chain_server in
  ∃ r0 r1 s1,
    @batchCallAdapters (scripted chain_server) default_config [1%nat; 0%nat]
                       ["pdf-text-extractor"; "db-logger"] (Some "x") 0%nat s
      = (Return [r0; r1], s1) ∧
    resp_output r0 = Some "y" ∧ resp_output r1 = Some "z" ∧
    heap s1 = heap s.
Proof.
  intros s.
  destruct (@batchCallAdapters_keeps_request_order (scripted chain_server)
              default_config [1%nat; 0%nat]
              ["pdf-text-extractor"; "db-logger"] (Some "x") 0%nat s
              ltac:(repeat constructor))
    as (rs & s1 & Hrun & Hlen & Hheap & _).
  destruct rs as [|r0 [|r1 [|? ?]]]; try discriminate Hlen.
  exists r0, r1, s1. split; [exact Hrun|].
  assert ((@batchCallAdapters (scripted chain_server) default_config [1%nat; 0%nat]
             ["pdf-text-extractor"; "db-logger"] (Some "x") 0%nat s).1
          = Return [ok_response (Some "y") (Some (JsObject [("foo", JsNumber 1)]));
                    ok_response (Some "z") None]) as Hval
    by (vm_compute; reflexivity).
  rewrite Hrun in Hval. simpl in Hval. inversion Hval; subst.
  split; [reflexivity|]. split; [reflexivity|]. exact Hheap.
Defined.
